(** * go-verkle: node encoding and the tree it serves

    A shallow embedding of [encoding.go] (package [verkle]) together with
    the parts of the RLP reader of go-ethereum ([rlp/raw.go]) and of
    [common.BytesToHash] that it calls, followed by a model of the tree
    of [tree.go] (keys, [Insert], [InsertOrdered], [Get], the commitment
    and [Serialize]) taken from the specification, since [tree.go] is not
    among the sources.  Byte strings are lists of [Byte.byte]; Go's
    [uint64] sizes and [int] counters are [Z]; a Go call that returns
    [(value, error)] returns a [result]. *)

From Stdlib Require Import ZArith Lia.
From Stdlib Require Import Strings.Byte.
From stdpp Require Import base list sorting.

Local Open Scope Z_scope.

(** ** Bytes *)

Abbreviation byte := Init.Byte.byte.
Abbreviation bytes := (list Init.Byte.byte).

#[global] Instance byte_eq_dec : EqDecision byte := Byte.byte_eq_dec.

(** The numeric value of a byte, in [0, 256). *)
Definition bv (b : byte) : Z := Z.of_N (Byte.to_N b).

(** Go's [byte(z)] conversion: the low eight bits. *)
Definition byte_of_Z (z : Z) : byte :=
  match Byte.of_N (Z.to_N (z mod 256)) with
  | Some b => b
  | None => Byte.x00
  end.

(** [len(b)] as a Go integer. *)
Definition len {A} (l : list A) : Z := Z.of_nat (length l).

(** Big-endian reading of a byte string. *)
Definition be_to_Z (b : bytes) : Z :=
  fold_left (fun acc x => acc * 256 + bv x) b 0.

(** ** Results and errors *)

Inductive error : Type :=
| ErrUnexpectedEOF        (* io.ErrUnexpectedEOF *)
| ErrCanonSize            (* rlp.ErrCanonSize *)
| ErrValueTooLarge        (* rlp.ErrValueTooLarge *)
| ErrExpectedString       (* rlp.ErrExpectedString *)
| ErrExpectedList         (* rlp.ErrExpectedList *)
| ErrInvalidNodeEncoding  (* errors.New(ErrInvalidNodeEncoding) *)
| errValueNotPresent      (* Get: no value under the key *)
| errOpaque               (* Get through a hashed node *)
| errInsertIntoHashed     (* Insert into a hashed node *)
| errDepthExceeded        (* a split below the last level *)
| errKeyOutOfOrder        (* InsertOrdered with a key that does not increase *)
| errNotSupported.        (* the node kind does not have the operation *)

(** What a call does: it returns a value, returns an error, or the Go
    runtime panics (an index out of range). *)
Inductive result (A : Type) : Type :=
| Ok (a : A)
| Err (e : error)
| Panic.
Arguments Ok {A} a.
Arguments Err {A} e.
Arguments Panic {A}.

#[global] Instance result_ret : MRet result := @Ok.
#[global] Instance result_bind : MBind result := fun A B f r =>
  match r with
  | Ok a => f a
  | Err e => Err e
  | Panic => Panic
  end.

Definition is_error {A} (r : result A) : Prop := ∃ e, r = Err e.

(** ** The RLP reader (go-ethereum, [rlp/raw.go]) *)

Module rlp.

Inductive Kind : Type := Byte | String | List.

#[global] Instance Kind_eq_dec : EqDecision Kind.
Proof. solve_decision. Defined.

(** [readSize(b, slen)]: the big-endian integer in the first [slen]
    bytes of [b]; [slen] is between 1 and 8 at every call. *)
Definition readSize (b : bytes) (slen : Z) : result Z :=
  if len b <? slen then Err ErrUnexpectedEOF
  else
    let s := be_to_Z (take (Z.to_nat slen) b) in
    if (s <? 56) || (match b with b0 :: _ => bv b0 =? 0 | [] => false end)
    then Err ErrCanonSize
    else Ok s.

(** [readKind(buf)]: kind, tag size and content size of the first value. *)
Definition readKind (buf : bytes) : result (Kind * Z * Z) :=
  match buf with
  | [] => Err ErrUnexpectedEOF
  | b0 :: tl =>
      let b := bv b0 in
      '(k, tagsize, contentsize) ←
        (if b <? 0x80 then Ok (Byte, 0, 1)
         else if b <? 0xB8 then
           let contentsize := b - 0x80 in
           if (contentsize =? 1) && (1 <? len buf)
              && (match tl with b1 :: _ => bv b1 <? 128 | [] => false end)
           then Err ErrCanonSize
           else Ok (String, 1, contentsize)
         else if b <? 0xC0 then
           contentsize ← readSize tl (b - 0xB7);
           Ok (String, (b - 0xB7) + 1, contentsize)
         else if b <? 0xF8 then Ok (List, 1, b - 0xC0)
         else
           contentsize ← readSize tl (b - 0xF7);
           Ok (List, (b - 0xF7) + 1, contentsize));
      if len buf - tagsize <? contentsize then Err ErrValueTooLarge
      else Ok (k, tagsize, contentsize)
  end.

(** [Split(b)]: the content of the first value and the bytes after it. *)
Definition Split (b : bytes) : result (Kind * bytes * bytes) :=
  '(k, ts, cs) ← readKind b;
  Ok (k, take (Z.to_nat cs) (drop (Z.to_nat ts) b),
         drop (Z.to_nat (ts + cs)) b).

Definition SplitString (b : bytes) : result (bytes * bytes) :=
  '(k, content, rest) ← Split b;
  if decide (k = List) then Err ErrExpectedString else Ok (content, rest).

Definition SplitList (b : bytes) : result (bytes * bytes) :=
  '(k, content, rest) ← Split b;
  if decide (k = List) then Ok (content, rest) else Err ErrExpectedList.

(** The loop of [CountValues]: every turn drops at least one byte, so
    [length b] turns are enough (see [CountValues_loop_fuel]). *)
Fixpoint CountValues_loop (fuel : nat) (b : bytes) (i : Z) : result Z :=
  match b, fuel with
  | [], _ => Ok i
  | _, O => Panic
  | _, S fuel' =>
      '(_, tagsize, size) ← readKind b;
      CountValues_loop fuel' (drop (Z.to_nat (tagsize + size)) b) (i + 1)
  end.

Definition CountValues (b : bytes) : result Z :=
  CountValues_loop (length b) b 0.

End rlp.

(** ** [common.BytesToHash] (go-ethereum)

    [SetBytes] keeps the last 32 bytes of a longer input and copies a
    shorter one to the right end of a zeroed array. *)
Definition HashLength : nat := 32.

Definition BytesToHash (b : bytes) : bytes :=
  let b' := if (HashLength <? length b)%nat
            then drop (length b - HashLength) b else b in
  replicate (HashLength - length b') Byte.x00 ++ b'.

(** ** Nodes *)

(** Modelled from the spec: the tree configuration of [tree.go], of which
    the encoding uses the number of child slots, [2^width]. *)
Record TreeConfig : Type := { width : nat }.

Definition nodeWidth (tc : TreeConfig) : nat := 2 ^ width tc.

(** A scalar of the field [Fr], as its canonical representative. *)
Definition Fr : Type := Z.

(** A point of the group G1: the point at infinity or affine coordinates. *)
Inductive G1Point : Type :=
| G1Infinity
| G1Affine (x y : Z).

(** Modelled from the spec: the node types of [tree.go].  An internal
    node owns its child slots (an empty slot is [None]), its depth, the
    two caches and the shared configuration; a leaf holds key and value;
    a hashed node holds a 32-byte hash. *)
Inductive VerkleNode : Type :=
| InternalNode (children : list (option VerkleNode)) (depth : nat)
               (commitment : option G1Point) (hash : option Fr)
               (treeConfig : TreeConfig)
| LeafNode (key value : bytes)
| HashedNode (hash : bytes).

(** Modelled from the spec: [newInternalNode] of [tree.go] makes a node
    with [nodeWidth] empty slots and no cached commitment. *)
Definition newInternalNode (depth : nat) (tc : TreeConfig) : VerkleNode :=
  InternalNode (replicate (nodeWidth tc) None) depth None None tc.

(** ** encoding.go *)

Definition parseLeafNode (raw : bytes) : result VerkleNode :=
  '(key, rest) ← rlp.SplitString raw;
  '(value, _) ← rlp.SplitString rest;
  Ok (LeafNode key value).

Definition parseHashedNode (raw : bytes) : result VerkleNode :=
  '(h, _) ← rlp.SplitString raw;
  Ok (HashedNode (BytesToHash h)).

(** The inner loop of [indicesFromBitlist] for byte [b] at position [i]. *)
Definition byte_indices (i : nat) (b : byte) : list nat :=
  flat_map (fun j : nat =>
              let mask := bv (byte_of_Z (Z.shiftl 1 (Z.of_nat j))) in
              if Z.land (bv b) mask =? mask then [(i * 8 + j)%nat] else [])
           (seq 0 8).

Fixpoint indices_from (i : nat) (bitlist : bytes) : list nat :=
  match bitlist with
  | [] => []
  | b :: tl =>
      (if Z.land (bv b) 0xff =? 0x00 then [] else byte_indices i b)
        ++ indices_from (S i) tl
  end.

Definition indicesFromBitlist (bitlist : bytes) : list nat :=
  indices_from 0 bitlist.

(** [n.children[index] = child]; the index is checked by the runtime. *)
Definition set_child (children : list (option VerkleNode)) (index : nat)
    (child : VerkleNode) : result (list (option VerkleNode)) :=
  if (index <? length children)%nat
  then Ok (<[index := Some child]> children)
  else Panic.

(** The loop of [createInternalNode] over the indices, threading the
    remaining input and the child slots. *)
Fixpoint createInternalNode_loop (indices : list nat) (raw : bytes)
    (children : list (option VerkleNode))
  : result (list (option VerkleNode)) :=
  match indices with
  | [] => Ok children
  | index :: indices' =>
      '(el, rest) ← rlp.SplitList raw;
      c ← rlp.CountValues el;
      children' ←
        (if c =? 1 then
           hashed ← parseHashedNode el; set_child children index hashed
         else if c =? 2 then
           leaf ← parseLeafNode el; set_child children index leaf
         else Ok children);
      createInternalNode_loop indices' rest children'
  end.

Definition createInternalNode (bitlist raw : bytes) (tc : TreeConfig)
  : result VerkleNode :=
  match newInternalNode 0 tc with
  | InternalNode children depth commitment hash treeConfig =>
      children' ← createInternalNode_loop (indicesFromBitlist bitlist) raw children;
      Ok (InternalNode children' depth commitment hash treeConfig)
  | n => Ok n
  end.

Definition ParseNode (serialized : bytes) (tc : TreeConfig) : result VerkleNode :=
  '(elems, _) ← rlp.SplitList serialized;
  c ← rlp.CountValues elems;
  if c =? 1 then parseHashedNode elems
  else if c =? 2 then
    '(kind, first, rest) ← rlp.Split elems;
    if decide (kind ≠ rlp.String) then Err ErrInvalidNodeEncoding
    else if (length first =? 32)%nat then
      '(value, _) ← rlp.SplitString rest;
      Ok (LeafNode first value)
    else if (length first =? 128)%nat then
      '(children, _) ← rlp.SplitList rest;
      createInternalNode first children tc
    else Err ErrInvalidNodeEncoding
  else Err ErrInvalidNodeEncoding.

(** ** Shapes of an encoded value

    The values laid end to end in a byte string, each with its kind and
    content, as [rlp.Split] reads them one after the other. *)
Inductive has_values : bytes → list (rlp.Kind * bytes) → Prop :=
| has_values_nil : has_values [] []
| has_values_cons b k content rest vs :
    rlp.Split b = Ok (k, content, rest) →
    has_values rest vs →
    has_values b ((k, content) :: vs).

(** [s] starts with a list whose elements are [vs]. *)
Definition list_of (s : bytes) (vs : list (rlp.Kind * bytes)) : Prop :=
  ∃ content rest, rlp.SplitList s = Ok (content, rest) ∧ has_values content vs.

Definition is_internal (n : VerkleNode) : Prop :=
  match n with InternalNode _ _ _ _ _ => True | _ => False end.

(** The three shapes [ParseNode] accepts. *)
Definition shape_hashed (s : bytes) : Prop :=
  ∃ k h, list_of s [(k, h)] ∧ k ≠ rlp.List.

Definition shape_leaf (s : bytes) : Prop :=
  ∃ key k2 value, list_of s [(rlp.String, key); (k2, value)]
                  ∧ length key = 32%nat ∧ k2 ≠ rlp.List.

Definition shape_internal (s : bytes) : Prop :=
  ∃ bitlist children, list_of s [(rlp.String, bitlist); (rlp.List, children)]
                      ∧ length bitlist = 128%nat.

(** [raw] starts with lists whose contents are [els], one after the
    other, as the loop of [createInternalNode] takes them off. *)
Inductive starts_with_lists : bytes → list bytes → Prop :=
| starts_with_nil raw : starts_with_lists raw []
| starts_with_cons raw el rest els :
    rlp.SplitList raw = Ok (el, rest) →
    starts_with_lists rest els →
    starts_with_lists raw (el :: els).

(** What the content [el] of one child list stands for: a hashed node
    (one byte string), a leaf (two byte strings), or nothing when the
    number of its elements is neither one nor two. *)
Inductive child_of : bytes → option VerkleNode → Prop :=
| child_hashed el k h :
    has_values el [(k, h)] → k ≠ rlp.List →
    child_of el (Some (HashedNode (BytesToHash h)))
| child_leaf el k1 key k2 value :
    has_values el [(k1, key); (k2, value)] → k1 ≠ rlp.List → k2 ≠ rlp.List →
    child_of el (Some (LeafNode key value))
| child_skipped el vs :
    has_values el vs → length vs ≠ 1%nat → length vs ≠ 2%nat →
    child_of el None.

(** A slot that does not hold an internal node. *)
Definition no_internal (c : option VerkleNode) : Prop :=
  match c with Some (InternalNode _ _ _ _ _) => False | _ => True end.

(** One turn of the loop of [createInternalNode], once the child list
    [el] has been taken off the input: count, parse, store. *)
Definition turn (el : bytes) (children : list (option VerkleNode)) (index : nat)
  : result (list (option VerkleNode)) :=
  c ← rlp.CountValues el;
  if c =? 1 then
    hashed ← parseHashedNode el; set_child children index hashed
  else if c =? 2 then
    leaf ← parseLeafNode el; set_child children index leaf
  else Ok children.

(** ** Serialization

    [Serialize] lives in [tree.go], which is not part of the sources at
    hand; it is modelled from the specification, with go-ethereum's RLP
    writer for the length prefixes. *)

(** The [n] low bytes of [i], most significant first. *)
Fixpoint be_bytes (n : nat) (i : Z) : bytes :=
  match n with
  | O => []
  | S n' => be_bytes n' (i / 256) ++ [byte_of_Z i]
  end.

(** [intsize(i)]: the number of bytes needed for [i], at least one. *)
Fixpoint intsize_loop (fuel : nat) (i : Z) (size : nat) : nat :=
  match fuel with
  | O => size
  | S fuel' =>
      let i' := Z.shiftr i 8 in
      if i' =? 0 then size else intsize_loop fuel' i' (S size)
  end.

Definition intsize (i : Z) : nat := intsize_loop 7 i 1.

Definition putint (i : Z) : bytes := be_bytes (intsize i) i.

(** [puthead]: one tag byte for a size below 56, else a tag byte that
    gives the length of the size, followed by the size. *)
Definition puthead (smalltag largetag size : Z) : bytes :=
  if size <? 56 then [byte_of_Z (smalltag + size)]
  else let sz := putint size in byte_of_Z (largetag + len sz) :: sz.

Definition encode_string (b : bytes) : bytes :=
  match b with
  | [x] => if bv x <? 0x80 then [x] else puthead 0x80 0xB7 1 ++ b
  | _ => puthead 0x80 0xB7 (len b) ++ b
  end.

Definition encode_list (payload : bytes) : bytes :=
  puthead 0xC0 0xF7 (len payload) ++ payload.

(** The kind [rlp.Split] reports for an encoded byte string. *)
Definition string_kind (b : bytes) : rlp.Kind :=
  match b with
  | [x] => if bv x <? 0x80 then rlp.Byte else rlp.String
  | _ => rlp.String
  end.

Definition occupied (c : option VerkleNode) : bool :=
  match c with Some _ => true | None => false end.

(** The byte of the bitmap for eight consecutive slots: bit [j], counted
    from the least significant, is the [j]-th of them. *)
Fixpoint bits_to_Z (bits : list bool) : Z :=
  match bits with
  | [] => 0
  | b :: bits' => (if b then 1 else 0) + 2 * bits_to_Z bits'
  end.

Fixpoint bitlist_loop (nbytes : nat) (bits : list bool) : bytes :=
  match nbytes with
  | O => []
  | S n => byte_of_Z (bits_to_Z (take 8 bits)) :: bitlist_loop n (drop 8 bits)
  end.

(** Modelled from the spec: the bitmap of an internal node has
    [NodeChildren/8] bytes and bit [i] is 1 iff slot [i] is occupied.  The
    specification leaves the order of bits inside a byte open; the model
    takes the order in which [indicesFromBitlist] reads them. *)
Definition bitlist_of (children : list (option VerkleNode)) : bytes :=
  bitlist_loop (length children / 8) (occupied <$> children).

(** Modelled from the spec: [Serialize] of [tree.go].  A hashed node is
    the list [[hash]], a leaf the list [[key, value]], an internal node
    the list of its bitmap and of the list of its encoded children, one
    per occupied slot in increasing slot order. *)
Fixpoint Serialize (n : VerkleNode) : bytes :=
  match n with
  | HashedNode h => encode_list (encode_string h)
  | LeafNode key value => encode_list (encode_string key ++ encode_string value)
  | InternalNode children _ _ _ _ =>
      encode_list
        (encode_string (bitlist_of children)
         ++ encode_list
              (flat_map (λ c, match c with
                              | Some c' => Serialize c'
                              | None => []
                              end) children))
  end.

(** The positions, counted from [p], of the [true] entries of [bits]. *)
Fixpoint positions_from (p : nat) (bits : list bool) : list nat :=
  match bits with
  | [] => []
  | b :: bits' => (if b then [p] else []) ++ positions_from (S p) bits'
  end.

(** The content of the list that [Serialize] writes for a leaf or a
    hashed node. *)
Definition child_payload (n : VerkleNode) : bytes :=
  match n with
  | HashedNode h => encode_string h
  | LeafNode key value => encode_string key ++ encode_string value
  | InternalNode _ _ _ _ _ => []
  end.

(** A leaf, or a hashed node with a hash of 32 bytes. *)
Definition flat_child (n : VerkleNode) : Prop :=
  match n with
  | HashedNode h => length h = 32%nat
  | LeafNode _ _ => True
  | InternalNode _ _ _ _ _ => False
  end.

Definition flat_slot (c : option VerkleNode) : Prop :=
  match c with Some n => flat_child n | None => True end.

(** ** Sample inputs *)

Definition tc10 : TreeConfig := {| width := 10 |}.

(** [zeroKeyTest] and [testValue] of [tree_test.go]. *)
Definition zeroKeyTest : bytes := replicate 32 Byte.x00.
Definition testValue : bytes := [Byte.x68; Byte.x65; Byte.x6c; Byte.x6c; Byte.x6f].

Definition sample_hash : bytes := replicate 32 Byte.x11.

(** A bitmap with only slot 0 set, one with slots 0 and 9 set. *)
Definition bitmap_0 : bytes := Byte.x01 :: replicate 127 Byte.x00.
Definition bitmap_0_9 : bytes := [Byte.x01; Byte.x02] ++ replicate 126 Byte.x00.

(** The contents of the lists [[key, value]] and [[hash]]. *)
Definition leaf_content : bytes :=
  [Byte.xa0] ++ zeroKeyTest ++ [Byte.x85] ++ testValue.
Definition hashed_content : bytes := [Byte.xa0] ++ sample_hash.

(** The lists [[key, value]], [[hash]], [[[]]] and [[key, []]]. *)
Definition enc_leaf : bytes := [Byte.xe7] ++ leaf_content.
Definition enc_hashed : bytes := [Byte.xe1] ++ hashed_content.
Definition enc_nested_one : bytes := [Byte.xc1; Byte.xc0].
Definition enc_key_list : bytes := [Byte.xe2; Byte.xa0] ++ zeroKeyTest ++ [Byte.xc0].

(** An internal node with no child, and one whose bitmap names slot 0
    but whose children list is empty. *)
Definition enc_internal_empty : bytes :=
  [Byte.xf8; Byte.x83; Byte.xb8; Byte.x80] ++ replicate 128 Byte.x00 ++ [Byte.xc0].
Definition enc_internal_missing : bytes :=
  [Byte.xf8; Byte.x83; Byte.xb8; Byte.x80] ++ bitmap_0 ++ [Byte.xc0].

(** An internal node whose slot 0 is the encoded empty internal node. *)
Definition enc_internal_nested : bytes :=
  [Byte.xf9; Byte.x01; Byte.x09; Byte.xb8; Byte.x80] ++ bitmap_0
  ++ [Byte.xf8; Byte.x85] ++ enc_internal_empty.

(** A list of a 128-byte string and the string [testValue], and an
    internal node that has it as the child of slot 0. *)
Definition long_key_content : bytes :=
  [Byte.xb8; Byte.x80] ++ bitmap_0 ++ [Byte.x85] ++ testValue.
Definition enc_internal_long_key : bytes :=
  [Byte.xf9; Byte.x01; Byte.x0e; Byte.xb8; Byte.x80] ++ bitmap_0
  ++ [Byte.xf8; Byte.x8a; Byte.xf8; Byte.x88] ++ long_key_content.

(** Children for slots 0 and 9: a list of three elements and a leaf. *)
Definition three_content : bytes := [Byte.x01; Byte.x02; Byte.x03].
Definition raw_three_leaf : bytes := [Byte.xc3] ++ three_content ++ enc_leaf.
Definition enc_internal_three : bytes :=
  [Byte.xf8; Byte.xaf; Byte.xb8; Byte.x80] ++ bitmap_0_9
  ++ [Byte.xec] ++ raw_three_leaf.

(** One-element lists of a one-byte and of a 33-byte string. *)
Definition enc_short_hash : bytes := [Byte.xc2; Byte.x81; Byte.xff].
Definition enc_long_hash : bytes :=
  [Byte.xe2; Byte.xa1; Byte.x22] ++ sample_hash.

(** The tree that inserting the keys [00 00 00…] and [00 01 00…] gives
    at width 10: the keys share their first ten bits, so slot 0 of the
    root holds an internal node with the two leaves in slots 0 and 16. *)
Definition sample_key_1 : bytes := [Byte.x00; Byte.x01] ++ replicate 30 Byte.x00.

Definition sample_inner : VerkleNode :=
  InternalNode
    (<[16%nat := Some (LeafNode sample_key_1 testValue)]>
       (<[0%nat := Some (LeafNode zeroKeyTest testValue)]> (replicate 1024 None)))
    1 None None tc10.

Definition sample_outer : VerkleNode :=
  InternalNode (<[0%nat := Some sample_inner]> (replicate 1024 None)) 0 None None tc10.

(** A root with a hashed node in slot 0 and a leaf in slot 9. *)
Definition sample_flat : VerkleNode :=
  InternalNode
    (<[9%nat := Some (LeafNode zeroKeyTest testValue)]>
       (<[0%nat := Some (HashedNode sample_hash)]> (replicate 1024 None)))
    0 (Some G1Infinity) (Some 7) tc10.

(** ** The tree

    [tree.go] is not part of the sources at hand: keys, insertion, lookup
    and the commitment are modelled from the specification (sections 3
    and 4), the curve library from its interface (section 6). *)

(** The modulus of the scalar field [Fr] of BLS12-381. *)
Definition modulus : Z :=
  0x73eda753299d7d483339d80809a1d80553bda402fffe5bfeffffffff00000001.

(** The curve library stores a scalar in 32 bytes, least significant
    byte first. *)
Definition le_to_Z (b : bytes) : Z := be_to_Z (reverse b).

Definition FrTo32 (x : Fr) : bytes := reverse (be_bytes 32 x).

(** [bls.FrFrom32]: the scalar of 32 bytes, refused when it is not below
    the modulus. *)
Definition FrFrom32 (v : bytes) : option Fr :=
  let x := le_to_Z v in
  if x <? modulus then Some x else None.

(** Modelled from the spec: [hashToFr] reduces a 32-byte digest modulo
    the scalar field. *)
Definition hashToFr (h : bytes) : Fr := le_to_Z h mod modulus.

(** The value of [TestHashToFrTrailingZeroBytes]. *)
Definition trailing_zero_hash : bytes :=
  [ Byte.xc7; Byte.x9e; Byte.x57; Byte.x6e; Byte.x0f; Byte.x53; Byte.x4a; Byte.x5b;
    Byte.xbe; Byte.xd6; Byte.x6b; Byte.x32; Byte.xe5; Byte.x02; Byte.x2a; Byte.x9d;
    Byte.x62; Byte.x4b; Byte.x44; Byte.x15; Byte.x77; Byte.x9b; Byte.x36; Byte.x9a;
    Byte.x62; Byte.xb2; Byte.xe7; Byte.xa6; Byte.xc3; Byte.xd8; Byte.xe0; Byte.x00 ].

(** What the tree takes from outside: SHA-256, the compressed form of a
    G1 point, the two multi-scalar multiplications and the number of
    non-zero scalars from which [LinCombG1] is the faster one. *)
Class CurveLib : Type := {
  sha256 : bytes → bytes;
  ToCompressedG1 : G1Point → bytes;
  LinCombG1 : list G1Point → list Fr → G1Point;
  LinCombGBomb : list G1Point → list Fr → G1Point;
  multiExpThreshold : nat
}.

(** Modelled from the spec: [Depth = ceil(256 / w)]. *)
Definition Depth (tc : TreeConfig) : nat := (256 + width tc - 1) / width tc.

(** Modelled from the spec: the slot of a key at depth [d] is the number
    that bits [d·w, (d+1)·w) of the key spell, most significant first.
    Bits past the end of the key, which the last level can ask for, read
    as zero. *)
Definition childIndex (key : bytes) (d : nat) (tc : TreeConfig) : nat :=
  Z.to_nat (Z.shiftr (be_to_Z key)
                     (256 - (Z.of_nat d + 1) * Z.of_nat (width tc))
            mod 2 ^ Z.of_nat (width tc)).

(** The first [d·w] bits of a key, as a number. *)
Definition keyPrefix (key : bytes) (d : nat) (tc : TreeConfig) : Z :=
  Z.shiftr (be_to_Z key) (256 - Z.of_nat d * Z.of_nat (width tc)).

(** Modelled from the spec: [new_tree(width)], an empty root. *)
Definition New (tc : TreeConfig) : VerkleNode := newInternalNode 0 tc.

(** Modelled from the spec: [Insert] on an internal node at depth [d]
    looks at the slot of the key: an empty slot takes a new leaf; a leaf
    with the same key takes the value; a leaf with another key is replaced
    by a new internal node at depth [d+1] into which the old leaf and then
    the new pair are inserted, unless [d+1] exceeds [Depth]; an internal
    child takes the insertion; a hashed child refuses it.  The caches of
    the node are cleared.  [fuel] bounds the number of levels visited. *)
Fixpoint insert_rec (fuel : nat) (n : VerkleNode) (key value : bytes)
  : result VerkleNode :=
  match fuel with
  | O => Panic
  | S fuel' =>
      match n with
      | InternalNode children d _ _ tc =>
          let i := childIndex key d tc in
          match children !! i with
          | None => Panic
          | Some None =>
              Ok (InternalNode (<[i := Some (LeafNode key value)]> children)
                               d None None tc)
          | Some (Some (LeafNode k v)) =>
              if decide (k = key) then
                Ok (InternalNode (<[i := Some (LeafNode key value)]> children)
                                 d None None tc)
              else if (Depth tc <? d + 1)%nat then Err errDepthExceeded
              else
                n1 ← insert_rec fuel' (newInternalNode (d + 1) tc) k v;
                n2 ← insert_rec fuel' n1 key value;
                Ok (InternalNode (<[i := Some n2]> children) d None None tc)
          | Some (Some (HashedNode _)) => Err errInsertIntoHashed
          | Some (Some child) =>
              child' ← insert_rec fuel' child key value;
              Ok (InternalNode (<[i := Some child']> children) d None None tc)
          end
      | LeafNode _ _ => Err errNotSupported
      | HashedNode _ => Err errNotSupported
      end
  end.

Definition node_config (n : VerkleNode) : option TreeConfig :=
  match n with
  | InternalNode _ _ _ _ tc => Some tc
  | _ => None
  end.

(** The levels that [Insert] may visit from a node: a tree has at most
    [Depth + 1] of them. *)
Definition levels (n : VerkleNode) : nat :=
  match node_config n with
  | Some tc => S (S (Depth tc))
  | None => 1
  end.

(** Modelled from the spec: [root.insert(key, value)]. *)
Definition Insert (n : VerkleNode) (key value : bytes) : result VerkleNode :=
  insert_rec (levels n) n key value.

(** Modelled from the spec: [Get] descends by the slots of the key and
    returns the value of the leaf with that key; an empty slot or a leaf
    with another key is [NotFound], a hashed node is opaque. *)
Fixpoint Get (n : VerkleNode) (key : bytes) : result bytes :=
  match n with
  | InternalNode children d _ _ tc =>
      (fix at_slot (cs : list (option VerkleNode)) (i : nat) {struct cs}
         : result bytes :=
         match cs, i with
         | [], _ => Panic
         | c :: _, O =>
             match c with
             | None => Err errValueNotPresent
             | Some child => Get child key
             end
         | _ :: cs', S i' => at_slot cs' i'
         end) children (childIndex key d tc)
  | LeafNode k v => if decide (k = key) then Ok v else Err errValueNotPresent
  | HashedNode _ => Err errOpaque
  end.

(** Inserting a sequence of pairs, first to last. *)
Fixpoint insert_all (n : VerkleNode) (kvs : list (bytes * bytes))
  : result VerkleNode :=
  match kvs with
  | [] => Ok n
  | (k, v) :: kvs' => n' ← Insert n k v; insert_all n' kvs'
  end.

(** The value of the last pair with key [k]. *)
Fixpoint last_value (k : bytes) (kvs : list (bytes * bytes)) : option bytes :=
  match kvs with
  | [] => None
  | (k', v) :: kvs' =>
      match last_value k kvs' with
      | Some v' => Some v'
      | None => if decide (k' = k) then Some v else None
      end
  end.

(** Invariant of a tree grown by [Insert], for a node at depth [d]
    reached through the key prefix [p]: a leaf has a key of 32 bytes with
    that prefix; an internal node is above the last level, has
    [nodeWidth] slots, and the child in slot [i] satisfies the invariant
    at depth [d + 1] and prefix [p·2^w + i]; there is no hashed node. *)
Inductive wf_node (tc : TreeConfig) : nat → Z → VerkleNode → Prop :=
| wf_leaf d p k v :
    length k = 32%nat → keyPrefix k d tc = p →
    wf_node tc d p (LeafNode k v)
| wf_internal d p children c h :
    (d < Depth tc)%nat →
    length children = nodeWidth tc →
    (∀ i child, children !! i = Some (Some child) →
       wf_node tc (S d) (p * 2 ^ Z.of_nat (width tc) + Z.of_nat i) child) →
    wf_node tc d p (InternalNode children d c h tc).

(** ** The commitment *)

(** Modelled from the spec: the commitment to a polynomial given by its
    evaluations is the linear combination of the Lagrange basis with
    them, computed by one of two algorithms chosen by the number of
    non-zero scalars. *)
Definition commitToPoly `{CurveLib} (lg1 : list G1Point) (poly : list Fr) : G1Point :=
  if Nat.ltb (length (filter (λ x : Z, x ≠ 0) poly)) multiExpThreshold
  then LinCombGBomb lg1 poly
  else LinCombG1 lg1 poly.

(** Modelled from the spec: [Hash] is the cached hash of an internal
    node or else the hash to the field of its commitment in compressed
    form (the cached commitment or else the one of its children's
    hashes, 0 for an empty slot); the hash to the field of key and value
    for a leaf; the stored scalar for a hashed node.  The model reads the
    caches and does not fill them. *)
Fixpoint Hash `{CurveLib} (lg1 : list G1Point) (n : VerkleNode) : Fr :=
  match n with
  | InternalNode children _ commitment hash _ =>
      match hash with
      | Some h => h
      | None =>
          let comm :=
            match commitment with
            | Some c => c
            | None =>
                commitToPoly lg1
                  (map (λ c, match c with
                             | None => 0
                             | Some child => Hash lg1 child
                             end) children)
            end in
          hashToFr (sha256 (ToCompressedG1 comm))
      end
  | LeafNode key value => hashToFr (sha256 (key ++ value))
  | HashedNode h => default 0 (FrFrom32 h)
  end.

(** The evaluation that a slot contributes. *)
Definition childScalar `{CurveLib} (lg1 : list G1Point) (c : option VerkleNode) : Fr :=
  match c with
  | None => 0
  | Some child => Hash lg1 child
  end.

(** Modelled from the spec: [ComputeCommitment] of an internal node. *)
Definition ComputeCommitment `{CurveLib} (lg1 : list G1Point) (n : VerkleNode)
  : result G1Point :=
  match n with
  | InternalNode children _ commitment _ _ =>
      Ok (match commitment with
          | Some c => c
          | None => commitToPoly lg1 (childScalar lg1 <$> children)
          end)
  | _ => Err errNotSupported
  end.

(** ** Ordered insertion *)

(** Modelled from the spec: a finished child becomes a hashed node that
    carries the 32 bytes of its hash. *)
Definition condense `{CurveLib} (lg1 : list G1Point) (c : option VerkleNode)
  : option VerkleNode :=
  match c with
  | None => None
  | Some (HashedNode h) => Some (HashedNode h)
  | Some n => Some (HashedNode (FrTo32 (Hash lg1 n)))
  end.

(** Modelled from the spec: every child to the left of slot [i] is
    replaced by a hashed node. *)
Definition hash_left `{CurveLib} (lg1 : list G1Point) (i : nat)
    (children : list (option VerkleNode)) : list (option VerkleNode) :=
  (condense lg1 <$> take i children) ++ drop i children.

(** Modelled from the spec: [InsertOrdered] takes keys in strictly
    increasing order.  At a node it refuses a key that is not to the right
    of everything inserted before (a slot to the right of the key's slot
    is occupied, the key's slot holds a hashed node or a leaf with the same
    key), replaces the children to the left of the key's slot by hashed
    nodes, and then goes on as [Insert] does. *)
Fixpoint insertOrdered_rec `{CurveLib} (lg1 : list G1Point) (fuel : nat)
    (n : VerkleNode) (key value : bytes) : result VerkleNode :=
  match fuel with
  | O => Panic
  | S fuel' =>
      match n with
      | InternalNode children d _ _ tc =>
          let i := childIndex key d tc in
          if existsb occupied (drop (S i) children) then Err errKeyOutOfOrder
          else
            let children := hash_left lg1 i children in
            match children !! i with
            | None => Panic
            | Some None =>
                Ok (InternalNode (<[i := Some (LeafNode key value)]> children)
                                 d None None tc)
            | Some (Some (LeafNode k v)) =>
                if decide (k = key) then Err errKeyOutOfOrder
                else if (Depth tc <? d + 1)%nat then Err errDepthExceeded
                else
                  n1 ← insertOrdered_rec lg1 fuel' (newInternalNode (d + 1) tc) k v;
                  n2 ← insertOrdered_rec lg1 fuel' n1 key value;
                  Ok (InternalNode (<[i := Some n2]> children) d None None tc)
            | Some (Some (HashedNode _)) => Err errKeyOutOfOrder
            | Some (Some child) =>
                child' ← insertOrdered_rec lg1 fuel' child key value;
                Ok (InternalNode (<[i := Some child']> children) d None None tc)
            end
      | LeafNode _ _ => Err errNotSupported
      | HashedNode _ => Err errNotSupported
      end
  end.

(** Modelled from the spec: [root.insert_ordered(key, value, setup,
    lagrange)]; the setup is only handed on and is left out. *)
Definition InsertOrdered `{CurveLib} (lg1 : list G1Point) (n : VerkleNode)
    (key value : bytes) : result VerkleNode :=
  insertOrdered_rec lg1 (levels n) n key value.

Fixpoint insertOrdered_all `{CurveLib} (lg1 : list G1Point) (n : VerkleNode)
    (kvs : list (bytes * bytes)) : result VerkleNode :=
  match kvs with
  | [] => Ok n
  | (k, v) :: kvs' => n' ← InsertOrdered lg1 n k v; insertOrdered_all lg1 n' kvs'
  end.

(** [bytes.Compare]: the order of byte strings, byte by byte. *)
Fixpoint Compare (a b : bytes) : comparison :=
  match a, b with
  | [], [] => Eq
  | [], _ :: _ => Lt
  | _ :: _, [] => Gt
  | x :: a', y :: b' =>
      match bv x ?= bv y with
      | Eq => Compare a' b'
      | c => c
      end
  end.

(** Every key is greater than the one before it. *)
Fixpoint increasing (kvs : list (bytes * bytes)) : Prop :=
  match kvs with
  | [] => True
  | a :: kvs' =>
      match kvs' with
      | [] => True
      | b :: _ => Compare a.1 b.1 = Lt ∧ increasing kvs'
      end
  end.

(** A slot that is empty or holds a hashed node. *)
Definition is_condensed (c : option VerkleNode) : Prop :=
  match c with
  | None => True
  | Some (HashedNode _) => True
  | Some _ => False
  end.

(** What two nodes of [nodeWidth] slots share around slot [i] when one
    was grown by [InsertOrdered] and the other by [Insert] from the same
    keys: to the left the first has condensed children that contribute the
    same scalars, to the right both are empty. *)
Definition Sim_sides `{CurveLib} (lg1 : list G1Point) (tc : TreeConfig) (i : nat)
    (children' children : list (option VerkleNode)) : Prop :=
  length children' = nodeWidth tc ∧ length children = nodeWidth tc ∧
  (∀ j, (j < i)%nat →
     ∃ c' c, children' !! j = Some c' ∧ children !! j = Some c ∧
             is_condensed c' ∧ childScalar lg1 c' = childScalar lg1 c) ∧
  (∀ j, (i < j)%nat → (j < nodeWidth tc)%nat →
     children' !! j = Some None ∧ children !! j = Some None).

(** The tree grown by [InsertOrdered] against the tree grown by [Insert]
    after the same keys, the last of which is [lk]: along the path of
    [lk] the nodes differ only in condensed children to the left. *)
Inductive Sim `{CurveLib} (lg1 : list G1Point) (tc : TreeConfig) (lk : bytes)
  : nat → VerkleNode → VerkleNode → Prop :=
| Sim_at_leaf d children' children v :
    (d < Depth tc)%nat →
    Sim_sides lg1 tc (childIndex lk d tc) children' children →
    children' !! childIndex lk d tc = Some (Some (LeafNode lk v)) →
    children !! childIndex lk d tc = Some (Some (LeafNode lk v)) →
    Sim lg1 tc lk d (InternalNode children' d None None tc)
                    (InternalNode children d None None tc)
| Sim_at_node d children' children n' n :
    (d < Depth tc)%nat →
    Sim_sides lg1 tc (childIndex lk d tc) children' children →
    children' !! childIndex lk d tc = Some (Some n') →
    children !! childIndex lk d tc = Some (Some n) →
    Sim lg1 tc lk (S d) n' n →
    Sim lg1 tc lk d (InternalNode children' d None None tc)
                    (InternalNode children d None None tc).

(** A stand-in for the curve library, to run the model: the digest is
    the first 32 bytes of its input padded with zero bytes, a point is
    written as 48 bytes of its first coordinate, and both linear
    combinations add the scalars up. *)
Definition toy_point (scalars : list Fr) : G1Point :=
  G1Affine (fold_right Z.add 0 scalars) 1.

Definition toy_lib : CurveLib := {|
  sha256 := λ b, take 32 (b ++ replicate 32 Byte.x00);
  ToCompressedG1 := λ p, match p with
                         | G1Infinity => replicate 48 Byte.x00
                         | G1Affine x _ => be_bytes 48 x
                         end;
  LinCombG1 := λ _ scalars, toy_point scalars;
  LinCombGBomb := λ _ scalars, toy_point scalars;
  multiExpThreshold := 110
|}.

(** The keys of [tree_test.go]. *)
Definition oneKeyTest : bytes := replicate 31 Byte.x00 ++ [Byte.x01].
Definition fourtyKeyTest : bytes := Byte.x40 :: replicate 31 Byte.x00.
Definition ffx32KeyTest : bytes := replicate 32 Byte.xff.

(** The pairs of [TestGetTwoLeaves] and of
    [TestComputeRootCommitmentThreeLeaves]. *)
Definition two_leaves : list (bytes * bytes) :=
  [(zeroKeyTest, testValue); (ffx32KeyTest, testValue)].

Definition three_leaves : list (bytes * bytes) :=
  [(zeroKeyTest, testValue); (fourtyKeyTest, testValue); (ffx32KeyTest, testValue)].

(** ** Results of the decoder *)

(** What the decoder can leave in a slot: nothing, a leaf, or a hashed
    node whose hash has [HashLength] bytes. *)
Definition parsed_slot (c : option VerkleNode) : Prop :=
  match c with
  | None | Some (LeafNode _ _) => True
  | Some (HashedNode h) => length h = HashLength
  | Some (InternalNode _ _ _ _ _) => False
  end.

(** A node as [ParseNode] returns it under the configuration [tc]. *)
Definition parsed_node (tc : TreeConfig) (n : VerkleNode) : Prop :=
  match n with
  | LeafNode key _ => length key = 32%nat
  | HashedNode h => length h = HashLength
  | InternalNode children depth commitment hash tc' =>
      depth = 0%nat ∧ commitment = None ∧ hash = None ∧ tc' = tc ∧
      length children = nodeWidth tc ∧ Forall parsed_slot children
  end.

(** [raw] is the lists with the contents [els], one after the other, and
    nothing behind them. *)
Definition lists_exactly (raw : bytes) (els : list bytes) : Prop :=
  has_values raw ((λ el, (rlp.List, el)) <$> els).

(** A configuration with 256 slots, as [benchs/main.go] asks for, and a
    bitmap that names slot 256 alone. *)
Definition tc8 : TreeConfig := {| width := 8 |}.
Definition bitmap_256 : bytes :=
  replicate 32 Byte.x00 ++ [Byte.x01] ++ replicate 95 Byte.x00.

(** An internal node with an all-zero bitmap whose children list holds a
    byte that is no encoding. *)
Definition enc_internal_zero_junk : bytes :=
  [Byte.xf8; Byte.x84; Byte.xb8; Byte.x80] ++ replicate 128 Byte.x00
  ++ [Byte.xc1; Byte.xff].

(** Children for slots 0 and 9: a hashed node and a list that holds a
    list. *)
Definition raw_hashed_nested : bytes := enc_hashed ++ [Byte.xc1; Byte.xc0].

(** ** The testing setup ([tree_test.go], [benchs/main.go]) *)

(** What [GenerateTestingSetupWithLagrange] takes from go-kzg: the group
    G2, the generators of G1 and G2, the multiplication of a point by a
    scalar and the Fourier transform on G1 points; [zeroG1] and [zeroG2]
    are the points a fresh slice holds. *)
Class KzgLib : Type := {
  G2Point : Type;
  GenG1 : G1Point;
  GenG2 : G2Point;
  zeroG1 : G1Point;
  zeroG2 : G2Point;
  MulG1 : G1Point → Fr → G1Point;
  MulG2 : G2Point → Fr → G2Point;
  FFTG1 : list G1Point → bool → result (list G1Point)
}.

(** [bls.ONE] and [bls.MulModFr], the product in the scalar field. *)
Definition ONE : Fr := 1.
Definition MulModFr (a b : Fr) : Fr := (a * b) mod modulus.

(** The loop of [GenerateTestingSetupWithLagrange]: [k] more turns from
    the counter [i] on. *)
Fixpoint setup_loop `{KzgLib} (k i : nat) (s sPow : Fr)
    (s1Out : list G1Point) (s2Out : list G2Point)
  : list G1Point * list G2Point :=
  match k with
  | O => (s1Out, s2Out)
  | S k' =>
      let s1Out' := <[i := MulG1 GenG1 sPow]> s1Out in
      let s2Out' := <[i := MulG2 GenG2 sPow]> s2Out in
      let tmp := sPow in
      setup_loop k' (S i) s (MulModFr tmp s) s1Out' s2Out'
  end.

(** [s] is the scalar that [bls.SetFr] makes of the secret; the error is
    the one of [FFTG1]. *)
Definition GenerateTestingSetupWithLagrange `{KzgLib} (s : Fr) (n : nat)
  : list G1Point * list G2Point * result (list G1Point) :=
  let '(s1Out, s2Out) :=
    setup_loop n 0 s ONE (replicate n zeroG1) (replicate n zeroG2) in
  (s1Out, s2Out, FFTG1 s1Out true).

(** ** The keys of [BenchmarkCommitFullNode] ([tree_test.go]) *)

(** Go's conversion [uint16(i)] and shift [v << k] on [uint16]. *)
Definition uint16 (i : Z) : Z := i mod 2 ^ 16.
Definition shl16 (v k : Z) : Z := uint16 (Z.shiftl v k).

(** [binary.BigEndian.PutUint16(b, v)] for [b] of at least two bytes. *)
Definition PutUint16 (b : bytes) (v : Z) : bytes :=
  <[1%nat := byte_of_Z v]> (<[0%nat := byte_of_Z (Z.shiftr v 8)]> b).

(** The key that the loop makes at counter [i]: 32 zero bytes with
    [uint16(i) << 6] written over the first two. *)
Definition fullNodeKey (i : Z) : bytes :=
  PutUint16 (replicate 32 Byte.x00) (shl16 (uint16 i) 6).

(** The number of set bits of a byte. *)
Definition set_bits (b : byte) : nat :=
  length (filter (λ j : nat, Z.testbit (bv b) (Z.of_nat j) = true) (seq 0 8)).

(** * Properties of the RLP reader *)

Lemma bv_range b : 0 ≤ bv b < 256.
Proof.
  unfold bv. pose proof (Byte.to_N_bounded b). lia.
Qed.

Lemma len_nonneg {A} (l : list A) : 0 ≤ len l.
Proof. unfold len. lia. Qed.

Lemma len_cons {A} (x : A) l : len (x :: l) = len l + 1.
Proof. unfold len. simpl. lia. Qed.

Lemma len_app {A} (l1 l2 : list A) : len (l1 ++ l2) = len l1 + len l2.
Proof. unfold len. rewrite length_app. lia. Qed.

Lemma ret_bind {A B} (a : A) (f : A → result B) : Ok a ≫= f = f a.
Proof. reflexivity. Qed.

Lemma bind_Ok {A B} (r : result A) (f : A → result B) (b : B) :
  r ≫= f = Ok b → ∃ a, r = Ok a ∧ f a = Ok b.
Proof. destruct r; simpl; intros; eauto; discriminate. Qed.

Lemma readSize_Ok b slen s :
  rlp.readSize b slen = Ok s → 56 ≤ s ∧ slen ≤ len b.
Proof.
  unfold rlp.readSize. intros H.
  destruct (len b <? slen) eqn:E1; [discriminate|].
  destruct (_ || _) eqn:E2; [discriminate|].
  apply orb_false_iff in E2 as [E2 _]. injection H as <-. lia.
Qed.

Lemma readKind_Ok buf k ts cs :
  rlp.readKind buf = Ok (k, ts, cs) →
  0 ≤ ts ∧ 0 ≤ cs ∧ 1 ≤ ts + cs ∧ ts + cs ≤ len buf.
Proof.
  unfold rlp.readKind. destruct buf as [|b0 tl]; [discriminate|].
  intros H. apply bind_Ok in H as [[[k' ts'] cs'] [H1 H2]].
  destruct (len (b0 :: tl) - ts' <? cs') eqn:E; [discriminate|].
  injection H2 as -> -> ->.
  pose proof (bv_range b0) as Hb. pose proof (len_nonneg tl) as Hl.
  rewrite len_cons in E.
  assert (0 ≤ ts ∧ 0 ≤ cs ∧ 1 ≤ ts + cs) as (? & ? & ?);
    [|rewrite len_cons; lia].
  repeat match type of H1 with
  | (if ?c then _ else _) = _ => destruct c eqn:?
  | _ ≫= _ = _ => apply bind_Ok in H1 as [s [Hs H1]]; apply readSize_Ok in Hs
  end; try discriminate; injection H1 as <- <- <-; lia.
Qed.

Lemma readSize_not_Panic b slen : rlp.readSize b slen ≠ Panic.
Proof.
  unfold rlp.readSize. destruct (len b <? slen); [done|].
  by destruct (_ || _).
Qed.

Lemma readKind_not_Panic buf : rlp.readKind buf ≠ Panic.
Proof.
  unfold rlp.readKind. destruct buf as [|b0 tl]; [done|].
  assert (∀ r : result (rlp.Kind * Z * Z), r ≠ Panic →
     (r ≫= λ '(k, tagsize, contentsize),
        if len (b0 :: tl) - tagsize <? contentsize
        then Err ErrValueTooLarge else Ok (k, tagsize, contentsize)) ≠ Panic) as Hb.
  { intros [[[k ts] cs]|e|] Hr; simpl; try done. by destruct (_ <? _). }
  apply Hb.
  assert (∀ k t slen, (rlp.readSize tl slen ≫= λ cs, Ok (k, t, cs))
                      ≠ (Panic : result (rlp.Kind * Z * Z))) as Hs.
  { intros k t slen. pose proof (readSize_not_Panic tl slen).
    by destruct (rlp.readSize tl slen). }
  repeat match goal with
  | |- (if ?c then _ else _) ≠ _ => destruct c
  end; try done; apply Hs.
Qed.

Lemma Split_Ok b k content rest :
  rlp.Split b = Ok (k, content, rest) →
  ∃ ts cs, rlp.readKind b = Ok (k, ts, cs) ∧
           content = take (Z.to_nat cs) (drop (Z.to_nat ts) b) ∧
           rest = drop (Z.to_nat (ts + cs)) b ∧
           (length rest < length b)%nat.
Proof.
  unfold rlp.Split. intros H. apply bind_Ok in H as [[[k' ts] cs] [H1 H2]].
  injection H2 as -> <- <-. exists ts, cs. split_and!; try done.
  apply readKind_Ok in H1. unfold len in H1. rewrite length_drop. lia.
Qed.

Lemma Split_nil : rlp.Split [] = Err ErrUnexpectedEOF.
Proof. reflexivity. Qed.

Lemma has_values_inj b vs1 vs2 :
  has_values b vs1 → has_values b vs2 → vs1 = vs2.
Proof.
  intros H1. revert vs2. induction H1 as [|b k c rest vs Hs _ IH]; intros vs2 H2.
  - inversion H2; subst; [done|]. rewrite Split_nil in *. discriminate.
  - inversion H2; subst; [rewrite Split_nil in Hs; discriminate|].
    rewrite Hs in *. simplify_eq. f_equal. by apply IH.
Qed.

(** [CountValues] counts exactly the values of its input, fails exactly
    when the input is not a sequence of values, and [length b] turns of
    its loop are enough. *)
Lemma CountValues_loop_spec fuel b i :
  (length b ≤ fuel)%nat →
  match rlp.CountValues_loop fuel b i with
  | Ok c => ∃ vs, has_values b vs ∧ c = i + len vs
  | Err _ => ∀ vs, ¬ has_values b vs
  | Panic => False
  end.
Proof.
  revert b i. induction fuel as [|fuel IH]; intros b i Hlen.
  - destruct b; [|simpl in Hlen; lia]. simpl. exists []. split; [constructor|].
    unfold len. simpl. lia.
  - destruct b as [|b0 tl].
    { simpl. exists []. split; [constructor|]. unfold len. simpl. lia. }
    cbn [rlp.CountValues_loop].
    destruct (rlp.readKind (b0 :: tl)) as [[[k ts] cs]| e |] eqn:Hk; simpl.
    + pose proof (readKind_Ok _ _ _ _ Hk) as (? & ? & ? & Hle).
      assert (rlp.Split (b0 :: tl) =
              Ok (k, take (Z.to_nat cs) (drop (Z.to_nat ts) (b0 :: tl)),
                  drop (Z.to_nat (ts + cs)) (b0 :: tl))) as HS.
      { unfold rlp.Split. by rewrite Hk. }
      set (rest := drop (Z.to_nat (ts + cs)) (b0 :: tl)) in *.
      assert (length rest ≤ fuel)%nat as Hr.
      { subst rest. rewrite length_drop. simpl in *. lia. }
      specialize (IH rest (i + 1) Hr).
      destruct (rlp.CountValues_loop fuel rest (i + 1)) as [c|e|]; [| |done].
      * destruct IH as (vs & Hvs & ->). eexists. split; [econstructor; eauto|].
        rewrite len_cons. lia.
      * intros vs Hvs. inversion Hvs; subst. rewrite HS in *. simplify_eq.
        by eapply IH.
    + intros vs Hvs. inversion Hvs as [|? ? ? ? ? HS]; subst.
      apply Split_Ok in HS as (? & ? & HS & _). congruence.
    + by apply readKind_not_Panic in Hk.
Qed.

Lemma CountValues_Ok b c :
  rlp.CountValues b = Ok c ↔ ∃ vs, has_values b vs ∧ c = len vs.
Proof.
  unfold rlp.CountValues.
  pose proof (CountValues_loop_spec (length b) b 0 (le_n _)) as H.
  destruct (rlp.CountValues_loop (length b) b 0) as [c'|e|]; [| |done].
  - destruct H as (vs & Hvs & ->). split.
    + intros [= <-]. eauto.
    + intros (vs' & Hvs' & ->). by rewrite (has_values_inj _ _ _ Hvs Hvs').
  - split; [discriminate|]. intros (vs & Hvs & _). by apply H in Hvs.
Qed.

Lemma CountValues_not_Panic b : rlp.CountValues b ≠ Panic.
Proof.
  unfold rlp.CountValues.
  pose proof (CountValues_loop_spec (length b) b 0 (le_n _)) as H.
  by destruct (rlp.CountValues_loop (length b) b 0).
Qed.

(** More turns than [length b] change nothing. *)
Lemma CountValues_loop_fuel2 fuel1 fuel2 b i :
  (length b ≤ fuel1)%nat → (length b ≤ fuel2)%nat →
  rlp.CountValues_loop fuel1 b i = rlp.CountValues_loop fuel2 b i.
Proof.
  revert fuel2 b i. induction fuel1 as [|fuel1 IH]; intros fuel2 b i H1 H2.
  - destruct b; [by destruct fuel2|simpl in H1; lia].
  - destruct b as [|b0 tl]; [by destruct fuel2|].
    destruct fuel2 as [|fuel2]; [simpl in H2; lia|].
    cbn [rlp.CountValues_loop].
    destruct (rlp.readKind (b0 :: tl)) as [[[k ts] cs]| e |] eqn:Hk; simpl; try done.
    pose proof (readKind_Ok _ _ _ _ Hk) as (? & ? & ? & Hle).
    unfold len in Hle. simpl in *.
    apply IH; rewrite length_drop; simpl; lia.
Qed.

Lemma CountValues_loop_fuel fuel b i :
  (length b ≤ fuel)%nat →
  rlp.CountValues_loop fuel b i = rlp.CountValues_loop (length b) b i.
Proof. intros H. by apply CountValues_loop_fuel2. Qed.

Lemma Split_not_Panic b : rlp.Split b ≠ Panic.
Proof.
  unfold rlp.Split. pose proof (readKind_not_Panic b).
  by destruct (rlp.readKind b) as [[[??]?]| |].
Qed.

Lemma SplitList_Ok s content rest :
  rlp.SplitList s = Ok (content, rest) ↔ rlp.Split s = Ok (rlp.List, content, rest).
Proof.
  unfold rlp.SplitList. destruct (rlp.Split s) as [[[k c] r]| |]; simpl.
  - destruct (decide (k = rlp.List)) as [->|]; split; intros; simplify_eq; done.
  - split; discriminate.
  - split; discriminate.
Qed.

Lemma SplitList_not_Ok s :
  (∀ content rest, rlp.SplitList s ≠ Ok (content, rest)) → is_error (rlp.SplitList s).
Proof.
  unfold rlp.SplitList. pose proof (Split_not_Panic s) as Hp.
  destruct (rlp.Split s) as [[[k c] r]|e|]; simpl; intros H; [|by eexists|done].
  destruct (decide _); [|by eexists]. by destruct (H c r).
Qed.

Lemma has_values_cons_inv b k c vs :
  has_values b ((k, c) :: vs) →
  ∃ rest, rlp.Split b = Ok (k, c, rest) ∧ has_values rest vs.
Proof. inversion 1; subst; eauto. Qed.

Lemma has_values_nil_inv b : has_values b [] → b = [].
Proof. by inversion 1. Qed.

Lemma CountValues_values b vs : has_values b vs → rlp.CountValues b = Ok (len vs).
Proof. intros H. apply CountValues_Ok. eauto. Qed.

(** * ParseNode, shape by shape *)

(** A list of one element: [parseHashedNode] takes it, unless the
    element is itself a list. *)
Lemma ParseNode_one s tc k h :
  list_of s [(k, h)] →
  ParseNode s tc = if decide (k = rlp.List) then Err ErrExpectedString
                   else Ok (HashedNode (BytesToHash h)).
Proof.
  intros (content & rest & HS & Hv). unfold ParseNode. rewrite HS. simpl.
  rewrite (CountValues_values _ _ Hv). simpl.
  apply has_values_cons_inv in Hv as (r & Hs & _).
  unfold parseHashedNode, rlp.SplitString. rewrite Hs. simpl.
  by destruct (decide _).
Qed.

(** A list of two elements: the kind and length of the first element
    choose between leaf, internal node and failure. *)
Lemma ParseNode_two s tc k1 first k2 second :
  list_of s [(k1, first); (k2, second)] →
  ParseNode s tc =
    if decide (k1 ≠ rlp.String) then Err ErrInvalidNodeEncoding
    else if (length first =? 32)%nat then
      if decide (k2 = rlp.List) then Err ErrExpectedString
      else Ok (LeafNode first second)
    else if (length first =? 128)%nat then
      if decide (k2 = rlp.List) then createInternalNode first second tc
      else Err ErrExpectedList
    else Err ErrInvalidNodeEncoding.
Proof.
  intros (content & rest & HS & Hv). unfold ParseNode. rewrite HS. simpl.
  rewrite (CountValues_values _ _ Hv). simpl.
  apply has_values_cons_inv in Hv as (r1 & Hs1 & Hv).
  apply has_values_cons_inv in Hv as (r2 & Hs2 & _).
  rewrite Hs1. simpl. destruct (decide (k1 ≠ _)); [done|].
  unfold rlp.SplitString, rlp.SplitList. rewrite Hs2. simpl.
  destruct (length first =? 32)%nat; [by destruct (decide _)|].
  destruct (length first =? 128)%nat; [by destruct (decide _)|]. done.
Qed.

(** Anything else is refused. *)
Lemma ParseNode_other s tc :
  (∀ vs, list_of s vs → length vs ≠ 1%nat ∧ length vs ≠ 2%nat) →
  is_error (ParseNode s tc).
Proof.
  intros H. unfold ParseNode.
  destruct (rlp.SplitList s) as [[elems rest]|e|] eqn:HS; simpl; [|by eexists|].
  - pose proof (CountValues_not_Panic elems) as Hp.
    destruct (rlp.CountValues elems) as [c|e|] eqn:Hc; simpl; [|by eexists|done].
    apply CountValues_Ok in Hc as (vs & Hvs & ->).
    destruct (H vs) as [H1 H2]; [by exists elems, rest|].
    unfold len. destruct (_ =? 1) eqn:E1; [lia|]. destruct (_ =? 2) eqn:E2; [lia|].
    by eexists.
  - exfalso. revert HS. unfold rlp.SplitList. pose proof (Split_not_Panic s).
    destruct (rlp.Split s) as [[[k c] r]| |]; simpl; try done. by destruct (decide _).
Qed.

Lemma list_of_inj s vs1 vs2 : list_of s vs1 → list_of s vs2 → vs1 = vs2.
Proof.
  intros (c1 & r1 & H1 & Hv1) (c2 & r2 & H2 & Hv2). rewrite H1 in H2.
  simplify_eq. by eapply has_values_inj.
Qed.

Lemma createInternalNode_internal bitlist raw tc n :
  createInternalNode bitlist raw tc = Ok n → is_internal n.
Proof.
  unfold createInternalNode, newInternalNode. intros H.
  apply bind_Ok in H as (cs & _ & [= <-]). done.
Qed.

(** Every input has one element, two elements, or neither. *)
Lemma classic_shape s :
  (∃ k h, list_of s [(k, h)]) ∨
  (∃ k1 a k2 b, list_of s [(k1, a); (k2, b)]) ∨
  (∀ vs, list_of s vs → length vs ≠ 1%nat ∧ length vs ≠ 2%nat).
Proof.
  destruct (rlp.SplitList s) as [[elems rest]|e|] eqn:HS.
  - pose proof (CountValues_not_Panic elems) as Hp.
    destruct (rlp.CountValues elems) as [c|e|] eqn:Hc; [| |done].
    + apply CountValues_Ok in Hc as (vs & Hvs & ->).
      destruct vs as [|[k1 a] [|[k2 b] [|v vs]]].
      * right; right. intros vs' Hl.
        rewrite (list_of_inj s vs' []); [simpl; lia|done|by exists elems, rest].
      * left. exists k1, a. by exists elems, rest.
      * right; left. exists k1, a, k2, b. by exists elems, rest.
      * right; right. intros vs' Hl.
        rewrite (list_of_inj s vs' ((k1, a) :: (k2, b) :: v :: vs));
          [simpl; lia|done|by exists elems, rest].
    + right; right. intros vs (c & r & Hs & Hv). rewrite HS in Hs. simplify_eq.
      apply CountValues_values in Hv. congruence.
  - right; right. intros vs (c & r & Hs & Hv). congruence.
  - right; right. intros vs (c & r & Hs & Hv). congruence.
Qed.

(** C1 (as amended): for every input byte string, [ParseNode] returns a
    hashed node when the input is a one-element list whose element is a
    byte string; the leaf with the first element as key and the second as
    value when the input is a two-element list whose first element is a
    32-byte string and whose second element is a byte string; the outcome
    of [createInternalNode] on the bitmap and the children (an internal
    node whenever it is a node) when the input is a two-element list of a
    128-byte string and a list; and an error, never a node, for every
    other input. *)
Theorem ParseNode_shapes (s : bytes) (tc : TreeConfig) :
  (∀ k h, list_of s [(k, h)] → k ≠ rlp.List →
          ParseNode s tc = Ok (HashedNode (BytesToHash h))) ∧
  (∀ key k2 value, list_of s [(rlp.String, key); (k2, value)] →
          length key = 32%nat → k2 ≠ rlp.List →
          ParseNode s tc = Ok (LeafNode key value)) ∧
  (∀ bitlist children,
          list_of s [(rlp.String, bitlist); (rlp.List, children)] →
          length bitlist = 128%nat →
          ParseNode s tc = createInternalNode bitlist children tc ∧
          ∀ n, ParseNode s tc = Ok n → is_internal n) ∧
  (¬ shape_hashed s → ¬ shape_leaf s → ¬ shape_internal s →
          is_error (ParseNode s tc)).
Proof.
  split_and!.
  - intros k h Hl Hk. rewrite (ParseNode_one _ _ _ _ Hl). by destruct (decide _).
  - intros key k2 value Hl Hlen Hk. rewrite (ParseNode_two _ _ _ _ _ _ Hl).
    destruct (decide (_ ≠ _)); [done|]. rewrite Hlen. simpl.
    by destruct (decide _).
  - intros bitlist children Hl Hlen.
    assert (ParseNode s tc = createInternalNode bitlist children tc) as ->.
    { rewrite (ParseNode_two _ _ _ _ _ _ Hl).
      destruct (decide (_ ≠ _)); [done|]. by rewrite Hlen. }
    split; [done|]. apply createInternalNode_internal.
  - intros Hh Hlf Hi.
    destruct (classic_shape s) as [(k & h & Hl)|[(k1 & a & k2 & b & Hl)|Ho]].
    + rewrite (ParseNode_one _ _ _ _ Hl). destruct (decide _); [by eexists|].
      destruct Hh. by exists k, h.
    + rewrite (ParseNode_two _ _ _ _ _ _ Hl).
      destruct (decide (k1 ≠ _)) as [|Hk1]; [by eexists|].
      apply dec_stable in Hk1 as ->.
      destruct (length a =? 32)%nat eqn:E1.
      { destruct (decide _); [by eexists|]. destruct Hlf.
        exists a, k2, b. split_and!; try done. by apply Nat.eqb_eq. }
      destruct (length a =? 128)%nat eqn:E2; [|by eexists].
      destruct (decide _) as [->|]; [|by eexists]. destruct Hi.
      exists a, b. split; [done|]. by apply Nat.eqb_eq.
    + by apply ParseNode_other.
Qed.

(** * The slots named by a bitmap *)

Lemma land_pow2 (x j : Z) :
  0 ≤ j → (Z.land x (2 ^ j) =? 2 ^ j) = Z.testbit x j.
Proof.
  intros Hj. destruct (Z.testbit x j) eqn:E.
  - apply Z.eqb_eq, Z.bits_inj'. intros n Hn.
    rewrite Z.land_spec, Z.pow2_bits_eqb by lia.
    destruct (Z.eqb_spec j n) as [->|]; [by rewrite E|apply andb_false_r].
  - apply Z.eqb_neq. intros H.
    assert (Z.testbit (Z.land x (2 ^ j)) j = true) as Hb
      by (rewrite H; by apply Z.pow2_bits_true).
    rewrite Z.land_spec, E in Hb. discriminate.
Qed.

Lemma mask_pow2 (j : nat) :
  (j < 8)%nat → bv (byte_of_Z (Z.shiftl 1 (Z.of_nat j))) = 2 ^ Z.of_nat j.
Proof.
  intros Hj. do 8 (destruct j as [|j]; [reflexivity|]). lia.
Qed.

Lemma elem_of_byte_indices i b n :
  n ∈ byte_indices i b ↔
  ∃ j, (j < 8)%nat ∧ Z.testbit (bv b) (Z.of_nat j) = true ∧ n = (i * 8 + j)%nat.
Proof.
  unfold byte_indices. rewrite list_elem_of_In, in_flat_map. split.
  - intros (j & Hin & Hn). apply in_seq in Hin.
    rewrite mask_pow2, land_pow2 in Hn by lia.
    destruct (Z.testbit (bv b) (Z.of_nat j)) eqn:E; [|done].
    destruct Hn as [<-|[]]. exists j. split_and!; [lia|done..].
  - intros (j & Hj & Hb & ->). exists j. split; [apply in_seq; lia|].
    rewrite mask_pow2, land_pow2, Hb by lia. by left.
Qed.

Lemma zero_byte_no_indices i b :
  Z.land (bv b) 0xff = 0 → byte_indices i b = [].
Proof.
  intros H0. destruct (byte_indices i b) as [|n l] eqn:E; [done|].
  assert (n ∈ byte_indices i b) as Hn by (rewrite E; left).
  apply elem_of_byte_indices in Hn as (j & Hj & Hb & _).
  assert (Z.testbit (Z.land (bv b) 255) (Z.of_nat j) = true) as Hc.
  { rewrite Z.land_spec, Hb. change 255 with (Z.ones 8).
    rewrite Z.ones_spec_low by lia. done. }
  rewrite H0, Z.bits_0 in Hc. discriminate.
Qed.

Lemma elem_of_indices_from i0 bitlist n :
  n ∈ indices_from i0 bitlist ↔
  ∃ i j b, bitlist !! i = Some b ∧ (j < 8)%nat ∧
           Z.testbit (bv b) (Z.of_nat j) = true ∧ n = ((i0 + i) * 8 + j)%nat.
Proof.
  revert i0. induction bitlist as [|b tl IH]; intros i0; simpl.
  - split; [by intros ?%elem_of_nil|]. by intros (i & j & b & ? & _).
  - rewrite elem_of_app, IH.
    assert (n ∈ (if Z.land (bv b) 255 =? 0 then [] else byte_indices i0 b)
            ↔ n ∈ byte_indices i0 b) as ->.
    { destruct (Z.eqb_spec (Z.land (bv b) 255) 0) as [H0|]; [|done].
      by rewrite zero_byte_no_indices. }
    rewrite elem_of_byte_indices. split.
    + intros [(j & Hj & Hb & ->)|(i & j & b' & Hl & Hj & Hb & ->)].
      * exists 0%nat, j, b. split_and!; try done. f_equal; lia.
      * exists (S i), j, b'. split_and!; try done. lia.
    + intros (i & j & b' & Hl & Hj & Hb & ->). destruct i as [|i].
      * left. simpl in Hl. simplify_eq. exists j. split_and!; try done. f_equal; lia.
      * right. exists i, j, b'. split_and!; try done. lia.
Qed.

Lemma flat_map_seq_sorted (P : nat → bool) (base a n : nat) :
  StronglySorted lt
    (flat_map (λ j, if P j then [(base + j)%nat] else []) (seq a n)).
Proof.
  revert a. induction n as [|n IH]; intros a; simpl; [constructor|].
  apply StronglySorted_app_2; [|destruct (P a); repeat constructor|apply IH].
  intros x1 x2 H1 H2. destruct (P a); [|by apply elem_of_nil in H1].
  apply list_elem_of_singleton in H1 as ->.
  apply list_elem_of_In, in_flat_map in H2 as (j & Hin & Hj).
  apply in_seq in Hin. destruct (P j); [|done]. destruct Hj as [<-|[]]. lia.
Qed.

Lemma byte_indices_sorted i b : StronglySorted lt (byte_indices i b).
Proof. apply flat_map_seq_sorted. Qed.

Lemma indices_from_sorted i0 bitlist : StronglySorted lt (indices_from i0 bitlist).
Proof.
  revert i0. induction bitlist as [|b tl IH]; intros i0; simpl; [constructor|].
  apply StronglySorted_app_2; [| |apply IH].
  2: destruct (_ =? _); [constructor|apply byte_indices_sorted].
  - intros x1 x2 H1 H2.
    assert (x1 ∈ byte_indices i0 b) as H1'
      by (destruct (_ =? _); [by apply elem_of_nil in H1|done]).
    apply elem_of_byte_indices in H1' as (j & Hj & _ & ->).
    apply elem_of_indices_from in H2 as (i' & j' & b' & _ & _ & _ & ->). lia.
Qed.

(** The slots of a bitmap: slot [8*i + j] for every set bit [j] (counted
    from the least significant) of byte [i], in strictly increasing order
    and all below eight times the bitmap's length. *)
Lemma indicesFromBitlist_spec bitlist :
  (∀ slot, slot ∈ indicesFromBitlist bitlist ↔
     ∃ i j b, bitlist !! i = Some b ∧ (j < 8)%nat ∧
              Z.testbit (bv b) (Z.of_nat j) = true ∧ slot = (8 * i + j)%nat) ∧
  StronglySorted lt (indicesFromBitlist bitlist) ∧
  (∀ slot, slot ∈ indicesFromBitlist bitlist → (slot < 8 * length bitlist)%nat).
Proof.
  unfold indicesFromBitlist. split_and!.
  - intros slot. rewrite elem_of_indices_from. split.
    + intros (i & j & b & ? & ? & ? & ->). exists i, j, b. split_and!; try done. lia.
    + intros (i & j & b & ? & ? & ? & ->). exists i, j, b. split_and!; try done. lia.
  - apply indices_from_sorted.
  - intros slot (i & j & b & Hl & Hj & _ & ->)%elem_of_indices_from.
    apply lookup_lt_Some in Hl. lia.
Qed.

(** * The loop of createInternalNode *)

Lemma SplitString_Ok b k content rest :
  rlp.Split b = Ok (k, content, rest) →
  rlp.SplitString b =
    if decide (k = rlp.List) then Err ErrExpectedString else Ok (content, rest).
Proof. unfold rlp.SplitString. by intros ->. Qed.

Lemma SplitString_not_Panic b : rlp.SplitString b ≠ Panic.
Proof.
  unfold rlp.SplitString. pose proof (Split_not_Panic b).
  destruct (rlp.Split b) as [[[k c] r]| |]; simpl; try done. by destruct (decide _).
Qed.

Lemma parseHashedNode_values el k h :
  has_values el [(k, h)] →
  parseHashedNode el = if decide (k = rlp.List) then Err ErrExpectedString
                       else Ok (HashedNode (BytesToHash h)).
Proof.
  intros (r & Hs & _)%has_values_cons_inv. unfold parseHashedNode.
  rewrite (SplitString_Ok _ _ _ _ Hs). by destruct (decide _).
Qed.

Lemma parseLeafNode_values el k1 key k2 value :
  has_values el [(k1, key); (k2, value)] →
  parseLeafNode el =
    if decide (k1 = rlp.List) then Err ErrExpectedString
    else if decide (k2 = rlp.List) then Err ErrExpectedString
    else Ok (LeafNode key value).
Proof.
  intros (r & Hs & (r' & Hs' & _)%has_values_cons_inv)%has_values_cons_inv.
  unfold parseLeafNode. rewrite (SplitString_Ok _ _ _ _ Hs).
  destruct (decide _); [done|]. simpl. rewrite (SplitString_Ok _ _ _ _ Hs').
  by destruct (decide _).
Qed.

Lemma parseHashedNode_Ok el n :
  parseHashedNode el = Ok n → ∃ h, n = HashedNode h.
Proof.
  unfold parseHashedNode. intros ([h r] & _ & [= <-])%bind_Ok. eauto.
Qed.

Lemma parseLeafNode_Ok el n :
  parseLeafNode el = Ok n → ∃ key value, n = LeafNode key value.
Proof.
  unfold parseLeafNode. intros ([k r] & _ & ([v r'] & _ & [= <-])%bind_Ok)%bind_Ok.
  eauto.
Qed.

Lemma parseHashedNode_not_Panic el : parseHashedNode el ≠ Panic.
Proof.
  unfold parseHashedNode. pose proof (SplitString_not_Panic el).
  by destruct (rlp.SplitString el) as [[??]| |].
Qed.

Lemma parseLeafNode_not_Panic el : parseLeafNode el ≠ Panic.
Proof.
  unfold parseLeafNode. pose proof (SplitString_not_Panic el).
  destruct (rlp.SplitString el) as [[k r]| |]; simpl; try done.
  pose proof (SplitString_not_Panic r).
  by destruct (rlp.SplitString r) as [[??]| |].
Qed.

Lemma set_child_Ok children index c :
  (index < length children)%nat →
  set_child children index c = Ok (<[index := Some c]> children).
Proof.
  intros H. unfold set_child. by destruct (Nat.ltb_spec index (length children)); [|lia].
Qed.

(** One turn of the loop on a child that [child_of] describes. *)
Lemma child_turn el oc children index :
  child_of el oc → (index < length children)%nat →
  turn el children index
  = Ok (match oc with
        | Some c => <[index := Some c]> children
        | None => children
        end).
Proof.
  intros Hc Hi. unfold turn.
  destruct Hc as [el k h Hv Hk|el k1 key k2 v Hv Hk1 Hk2|el vs Hv H1 H2];
    rewrite (CountValues_values _ _ Hv); simpl.
  - rewrite (parseHashedNode_values _ _ _ Hv). destruct (decide _); [done|].
    simpl. by apply set_child_Ok.
  - rewrite (parseLeafNode_values _ _ _ _ _ Hv). do 2 (destruct (decide _); [done|]).
    simpl. by apply set_child_Ok.
  - unfold len. destruct (_ =? 1) eqn:E1; [lia|]. by destruct (_ =? 2) eqn:E2; [lia|].
Qed.

(** One turn of the loop on any input: no panic while the index is in
    range, the number of slots is kept, and only a leaf or a hashed node
    is ever stored. *)
Lemma any_turn el children index :
  (index < length children)%nat →
  match turn el children index with
  | Ok children' =>
      length children' = length children ∧
      (Forall no_internal children → Forall no_internal children')
  | Err _ => True
  | Panic => False
  end.
Proof.
  intros Hi. unfold turn. pose proof (CountValues_not_Panic el).
  destruct (rlp.CountValues el) as [c| |]; simpl; [|done..].
  destruct (c =? 1).
  { pose proof (parseHashedNode_not_Panic el).
    destruct (parseHashedNode el) as [n| |] eqn:E; simpl; [|done..].
    rewrite set_child_Ok by done. rewrite length_insert. split; [done|].
    apply parseHashedNode_Ok in E as [h ->]. intros HF.
    apply Forall_insert; done. }
  destruct (c =? 2); [|done].
  pose proof (parseLeafNode_not_Panic el).
  destruct (parseLeafNode el) as [n| |] eqn:E; simpl; [|done..].
  rewrite set_child_Ok by done. rewrite length_insert. split; [done|].
  apply parseLeafNode_Ok in E as (k & v & ->). intros HF.
  apply Forall_insert; done.
Qed.

Lemma createInternalNode_loop_cons index indices raw children :
  createInternalNode_loop (index :: indices) raw children =
    '(el, rest) ← rlp.SplitList raw;
    children' ← turn el children index;
    createInternalNode_loop indices rest children'.
Proof.
  cbn [createInternalNode_loop]. unfold turn.
  destruct (rlp.SplitList raw) as [[el rest]| |]; simpl; try done.
  by destruct (rlp.CountValues el).
Qed.

Lemma createInternalNode_loop_spec indices :
  ∀ raw els cs children,
    starts_with_lists raw els → Forall2 child_of els cs →
    length els = length indices →
    StronglySorted lt indices →
    (∀ i, i ∈ indices → (i < length children)%nat) →
    ∃ children',
      createInternalNode_loop indices raw children = Ok children' ∧
      length children' = length children ∧
      (∀ k idx, indices !! k = Some idx →
         children' !! idx = match cs !! k with
                            | Some (Some c) => Some (Some c)
                            | _ => children !! idx
                            end) ∧
      (∀ slot, slot ∉ indices → children' !! slot = children !! slot).
Proof.
  induction indices as [|index indices IH]; intros raw els cs children Hs Hc Hlen Hsort Hin.
  { exists children. split_and!; try done. }
  destruct els as [|el els]; [done|]. inversion Hs as [|? ? rest ? HS Hs']; subst.
  apply Forall2_cons_inv_l in Hc as (oc & cs' & Hoc & Hc & ->).
  apply StronglySorted_inv in Hsort as [Hsort Hall].
  assert (index < length children)%nat as Hi by (apply Hin; left).
  rewrite createInternalNode_loop_cons, HS. simpl.
  pose proof (child_turn el oc children index Hoc Hi) as Ht.
  set (children1 := match oc with
                    | Some c => <[index := Some c]> children
                    | None => children end) in *.
  assert (length children1 = length children) as Hl1.
  { subst children1. destruct oc; [apply length_insert|done]. }
  destruct (IH rest els cs' children1) as (children' & Hloop & Hl' & Hk & Hout);
    try done.
  { simpl in Hlen. lia. }
  { intros i Hi'. rewrite Hl1. apply Hin. by right. }
  exists children'.
  assert (index ∉ indices) as Hnotin.
  { intros Hel. rewrite Forall_forall in Hall. apply Hall in Hel. lia. }
  split_and!.
  - by rewrite Ht.
  - lia.
  - intros [|k] idx Hlk; simpl in *.
    + simplify_eq. rewrite Hout by done. subst children1.
      destruct oc; [by apply list_lookup_insert_eq|done].
    + rewrite (Hk _ _ Hlk).
      assert (idx ≠ index) as Hne.
      { intros ->. apply Hnotin. by eapply list_elem_of_lookup_2. }
      destruct (cs' !! k) as [[c|]|]; try done;
        subst children1; destruct oc; try done; by apply list_lookup_insert_ne.
  - intros slot Hslot. apply not_elem_of_cons in Hslot as [Hne Hslot].
    rewrite Hout by done. subst children1.
    destruct oc; [by apply list_lookup_insert_ne|done].
Qed.

(** The loop never panics while the indices are in range, and it never
    stores an internal node. *)
Lemma createInternalNode_loop_total indices :
  ∀ raw children,
    (∀ i, i ∈ indices → (i < length children)%nat) →
    match createInternalNode_loop indices raw children with
    | Ok children' => length children' = length children ∧
                      (Forall no_internal children → Forall no_internal children')
    | Err _ => True
    | Panic => False
    end.
Proof.
  induction indices as [|index indices IH]; intros raw children Hin; [done|].
  rewrite createInternalNode_loop_cons.
  destruct (rlp.SplitList raw) as [[el rest]|e|] eqn:HS; simpl; [|done|].
  - assert (index < length children)%nat as Hi by (apply Hin; left).
    pose proof (any_turn el children index Hi) as Ht.
    destruct (turn el children index) as [children1| |]; simpl; [|done..].
    destruct Ht as [Hl1 HF1].
    specialize (IH rest children1).
    destruct (createInternalNode_loop indices rest children1); [|done|].
    + destruct IH as [Hl HF]; [intros i Hi'; rewrite Hl1; apply Hin; by right|].
      split; [lia|auto].
    + apply IH. intros i Hi'. rewrite Hl1. apply Hin. by right.
  - revert HS. unfold rlp.SplitList. pose proof (Split_not_Panic raw).
    destruct (rlp.Split raw) as [[[k c] r]| |]; simpl; try done. by destruct (decide _).
Qed.

(** A child with the shape of an encoded internal node, a byte string
    followed by a list, stops the loop with an error. *)
Lemma createInternalNode_loop_nested indices :
  ∀ raw els children k el k1 a b,
    starts_with_lists raw els → length els = length indices →
    (∀ i, i ∈ indices → (i < length children)%nat) →
    els !! k = Some el → has_values el [(k1, a); (rlp.List, b)] →
    is_error (createInternalNode_loop indices raw children).
Proof.
  induction indices as [|index indices IH];
    intros raw els children k el k1 a b Hs Hlen Hin Hk Hv.
  { destruct els; [by rewrite lookup_nil in Hk|done]. }
  destruct els as [|el0 els]; [done|]. inversion Hs as [|? ? rest ? HS Hs']; subst.
  assert (index < length children)%nat as Hi by (apply Hin; left).
  rewrite createInternalNode_loop_cons, HS. simpl.
  destruct k as [|k]; simpl in Hk.
  - simplify_eq. unfold turn. rewrite (CountValues_values _ _ Hv). simpl.
    rewrite (parseLeafNode_values _ _ _ _ _ Hv).
    destruct (decide (k1 = _)); [by eexists|]. simpl. by eexists.
  - pose proof (any_turn el0 children index Hi) as Ht.
    destruct (turn el0 children index) as [children1| |]; simpl; [|by eexists|done].
    destruct Ht as [Hl1 _].
    eapply (IH rest els children1 k); eauto.
    intros i Hi'. rewrite Hl1. apply Hin. by right.
Qed.

(** * createInternalNode *)

Lemma createInternalNode_unfold bitlist raw tc :
  createInternalNode bitlist raw tc =
    children ← createInternalNode_loop (indicesFromBitlist bitlist) raw
                 (replicate (nodeWidth tc) None);
    Ok (InternalNode children 0 None None tc).
Proof. reflexivity. Qed.

Lemma indices_in_range bitlist tc i :
  (8 * length bitlist ≤ nodeWidth tc)%nat →
  i ∈ indicesFromBitlist bitlist →
  (i < length (replicate (nodeWidth tc) (@None VerkleNode)))%nat.
Proof.
  intros Hw Hi. rewrite length_replicate.
  apply (proj2 (proj2 (indicesFromBitlist_spec bitlist))) in Hi. lia.
Qed.

(** The slots of the node that [createInternalNode] builds from children
    that [child_of] describes. *)
Lemma createInternalNode_spec bitlist raw tc els cs :
  (8 * length bitlist ≤ nodeWidth tc)%nat →
  starts_with_lists raw els → Forall2 child_of els cs →
  length els = length (indicesFromBitlist bitlist) →
  ∃ children,
    createInternalNode bitlist raw tc = Ok (InternalNode children 0 None None tc) ∧
    length children = nodeWidth tc ∧
    (∀ k slot, indicesFromBitlist bitlist !! k = Some slot →
               children !! slot = Some (default None (cs !! k))) ∧
    (∀ slot, (slot < nodeWidth tc)%nat → slot ∉ indicesFromBitlist bitlist →
             children !! slot = Some None).
Proof.
  intros Hw Hs Hc Hlen.
  destruct (createInternalNode_loop_spec (indicesFromBitlist bitlist) raw els cs
              (replicate (nodeWidth tc) None)) as (children & Hloop & Hl & Hk & Hout);
    try done.
  { apply indicesFromBitlist_spec. }
  { intros i. by apply indices_in_range. }
  exists children. rewrite createInternalNode_unfold, Hloop. split_and!; try done.
  - by rewrite Hl, length_replicate.
  - intros k slot Hlk. rewrite (Hk _ _ Hlk).
    assert (slot < nodeWidth tc)%nat as Hslot.
    { rewrite <- (length_replicate (nodeWidth tc) (@None VerkleNode)).
      eapply indices_in_range; [done|]. by eapply list_elem_of_lookup_2. }
    assert (is_Some (cs !! k)) as [oc Hoc].
    { apply lookup_lt_is_Some. rewrite <- (Forall2_length _ _ _ Hc), Hlen.
      by eapply lookup_lt_Some. }
    rewrite Hoc. simpl. destruct oc; [done|]. by apply lookup_replicate_2.
  - intros slot Hslot Hnin. rewrite (Hout _ Hnin). by apply lookup_replicate_2.
Qed.


(** C3 (as amended): inside an internal node's children list a child is
    rebuilt from the number of its elements alone: a one-element child
    becomes a hashed node and a child of two byte strings becomes a leaf,
    whatever the length of its first element (32 bytes, 128 bytes or any
    other); a child with the shape of an encoded internal node, a byte
    string followed by a list, makes deserialization fail, and no slot of
    a deserialized node ever holds an internal node. *)
Theorem createInternalNode_children (bitlist raw : bytes) (tc : TreeConfig)
    (els : list bytes) :
  (8 * length bitlist ≤ nodeWidth tc)%nat →
  starts_with_lists raw els →
  length els = length (indicesFromBitlist bitlist) →
  (∀ cs, Forall2 child_of els cs →
     ∃ children,
       createInternalNode bitlist raw tc = Ok (InternalNode children 0 None None tc) ∧
       ∀ k el slot,
         els !! k = Some el → indicesFromBitlist bitlist !! k = Some slot →
         (∀ kd h, has_values el [(kd, h)] → kd ≠ rlp.List →
            children !! slot = Some (Some (HashedNode (BytesToHash h)))) ∧
         (∀ k1 key k2 value,
            has_values el [(k1, key); (k2, value)] →
            k1 ≠ rlp.List → k2 ≠ rlp.List →
            children !! slot = Some (Some (LeafNode key value)))) ∧
  (∀ k el k1 a b,
     els !! k = Some el → has_values el [(k1, a); (rlp.List, b)] →
     is_error (createInternalNode bitlist raw tc)) ∧
  (∀ n, createInternalNode bitlist raw tc = Ok n →
     ∃ children, n = InternalNode children 0 None None tc ∧
                 Forall no_internal children).
Proof.
  intros Hw Hs Hlen. split_and!.
  - intros cs Hc.
    destruct (createInternalNode_spec bitlist raw tc els cs)
      as (children & Hok & Hl & Hk & Hout); try done.
    exists children. split; [done|]. intros k el slot Hel Hslot.
    rewrite (Hk _ _ Hslot).
    destruct (Forall2_lookup_l _ _ _ _ _ Hc Hel) as (oc & Hoc & Hch).
    rewrite Hoc. simpl. split.
    + intros kd h Hv Hkd. inversion Hch as [? ? ? Hv'|? ? ? ? ? Hv'|? ? Hv' H1 H2]; subst;
        pose proof (has_values_inj _ _ _ Hv Hv'); simplify_eq; done.
    + intros k1 key k2 value Hv Hk1 Hk2.
      inversion Hch as [? ? ? Hv'|? ? ? ? ? Hv'|? ? Hv' H1 H2]; subst;
        pose proof (has_values_inj _ _ _ Hv Hv'); simplify_eq; done.
  - intros k el k1 a b Hel Hv. rewrite createInternalNode_unfold.
    destruct (createInternalNode_loop_nested (indicesFromBitlist bitlist) raw els
                (replicate (nodeWidth tc) None) k el k1 a b) as [e He]; try done.
    { intros i. by apply indices_in_range. }
    rewrite He. by eexists.
  - intros n. rewrite createInternalNode_unfold.
    intros (children & Hloop & [= <-])%bind_Ok. exists children. split; [done|].
    pose proof (createInternalNode_loop_total (indicesFromBitlist bitlist) raw
                  (replicate (nodeWidth tc) None)) as Ht.
    rewrite Hloop in Ht. destruct Ht as [_ HF].
    { intros i. by apply indices_in_range. }
    apply HF. by apply Forall_replicate.
Qed.

(** C9: a child list whose number of elements is neither 1 nor 2 is no
    error: [createInternalNode] skips it, the slot that the bitmap names
    for it stays empty, the children after it are still parsed into their
    slots, and [ParseNode] returns the node. *)
Theorem ParseNode_skips_children (s : bytes) (tc : TreeConfig)
    (bitlist raw : bytes) (els : list bytes) (cs : list (option VerkleNode)) :
  list_of s [(rlp.String, bitlist); (rlp.List, raw)] →
  length bitlist = 128%nat →
  (1024 ≤ nodeWidth tc)%nat →
  starts_with_lists raw els → Forall2 child_of els cs →
  length els = length (indicesFromBitlist bitlist) →
  ∃ children,
    ParseNode s tc = Ok (InternalNode children 0 None None tc) ∧
    (∀ k el vs slot,
       els !! k = Some el → has_values el vs →
       length vs ≠ 1%nat → length vs ≠ 2%nat →
       indicesFromBitlist bitlist !! k = Some slot →
       children !! slot = Some None) ∧
    (∀ k slot c,
       indicesFromBitlist bitlist !! k = Some slot → cs !! k = Some (Some c) →
       children !! slot = Some (Some c)).
Proof.
  intros Hl Hlen Hw Hs Hc Hn.
  destruct (createInternalNode_spec bitlist raw tc els cs)
    as (children & Hok & _ & Hk & _); try done; [lia|].
  exists children. split_and!.
  - rewrite (ParseNode_two _ _ _ _ _ _ Hl). destruct (decide (_ ≠ _)); [done|].
    by rewrite Hlen.
  - intros k el vs slot Hel Hv H1 H2 Hslot. rewrite (Hk _ _ Hslot).
    destruct (Forall2_lookup_l _ _ _ _ _ Hc Hel) as (oc & Hoc & Hch).
    rewrite Hoc. simpl. f_equal.
    inversion Hch as [? ? ? Hv'|? ? ? ? ? Hv'|? ? Hv' ? ?]; subst; try done;
      pose proof (has_values_inj _ _ _ Hv Hv'); by subst.
  - intros k slot c Hslot Hck. by rewrite (Hk _ _ Hslot), Hck.
Qed.

(** * The hash of a hashed node *)

Lemma BytesToHash_length b : length (BytesToHash b) = 32%nat.
Proof.
  unfold BytesToHash, HashLength.
  destruct (Nat.ltb_spec 32 (length b));
    rewrite length_app, length_replicate, ?length_drop; lia.
Qed.

Lemma BytesToHash_short b :
  (length b ≤ 32)%nat → BytesToHash b = replicate (32 - length b) Byte.x00 ++ b.
Proof.
  intros H. unfold BytesToHash, HashLength.
  by destruct (Nat.ltb_spec 32 (length b)); [lia|].
Qed.

Lemma BytesToHash_long b :
  (32 ≤ length b)%nat → BytesToHash b = drop (length b - 32) b.
Proof.
  intros H. unfold BytesToHash, HashLength.
  destruct (Nat.ltb_spec 32 (length b)).
  - rewrite length_drop. by replace (32 - _)%nat with 0%nat by lia.
  - replace (length b) with 32%nat by lia. done.
Qed.

(** C10: [ParseNode] of a one-element list does not look at the length
    of the element: for a byte string of any length it returns a hashed
    node whose hash has 32 bytes, the element padded with zero bytes on
    the left when it is shorter and cut to its last 32 bytes when it is
    longer. *)
Theorem ParseNode_hash_any_length (s : bytes) (tc : TreeConfig)
    (k : rlp.Kind) (h : bytes) :
  list_of s [(k, h)] → k ≠ rlp.List →
  ∃ hash,
    ParseNode s tc = Ok (HashedNode hash) ∧
    length hash = 32%nat ∧
    ((length h ≤ 32)%nat → hash = replicate (32 - length h) Byte.x00 ++ h) ∧
    ((32 ≤ length h)%nat → hash = drop (length h - 32) h).
Proof.
  intros Hl Hk. exists (BytesToHash h). split_and!.
  - rewrite (ParseNode_one _ _ _ _ Hl). by destruct (decide _).
  - apply BytesToHash_length.
  - apply BytesToHash_short.
  - apply BytesToHash_long.
Qed.

(** * The RLP writer against the reader *)

Lemma bv_byte_of_Z z : bv (byte_of_Z z) = z mod 256.
Proof.
  unfold bv, byte_of_Z. pose proof (Z.mod_pos_bound z 256 eq_refl) as Hm.
  destruct (Byte.of_N (Z.to_N (z mod 256))) as [b|] eqn:E.
  - apply Byte.to_of_N in E. rewrite E. lia.
  - apply Byte.of_N_None_iff in E. lia.
Qed.

Lemma bv_byte_of_Z_small z : 0 ≤ z < 256 → bv (byte_of_Z z) = z.
Proof. intros H. rewrite bv_byte_of_Z. by apply Z.mod_small. Qed.

Lemma be_to_Z_snoc l x : be_to_Z (l ++ [x]) = be_to_Z l * 256 + bv x.
Proof. unfold be_to_Z. by rewrite fold_left_app. Qed.

Lemma length_be_bytes n i : length (be_bytes n i) = n.
Proof.
  revert i. induction n as [|n IH]; intros i; simpl; [done|].
  rewrite length_app, IH. simpl. lia.
Qed.

Lemma be_to_Z_be_bytes n i : be_to_Z (be_bytes n i) = i mod 256 ^ Z.of_nat n.
Proof.
  revert i. induction n as [|n IH]; intros i.
  - simpl. by rewrite Z.mod_1_r.
  - cbn [be_bytes]. rewrite be_to_Z_snoc, IH, bv_byte_of_Z.
    rewrite Nat2Z.inj_succ, Z.pow_succ_r by lia.
    rewrite Z.rem_mul_r by lia. lia.
Qed.

Lemma be_bytes_head n i :
  be_bytes (S n) i = byte_of_Z (i / 256 ^ Z.of_nat n) :: be_bytes n i.
Proof.
  revert i. induction n as [|n IH]; intros i.
  - simpl. by rewrite Z.div_1_r.
  - change (be_bytes (S (S n)) i) with (be_bytes (S n) (i / 256) ++ [byte_of_Z i]).
    rewrite IH. simpl. do 2 f_equal.
    rewrite Nat2Z.inj_succ, Z.pow_succ_r by lia.
    rewrite Z.div_div by lia. done.
Qed.

Lemma intsize_loop_spec fuel i size :
  0 ≤ i < 256 ^ Z.of_nat (S fuel) →
  ∃ d, intsize_loop fuel i size = (size + d)%nat ∧ (d ≤ fuel)%nat ∧
       i < 256 ^ Z.of_nat (S d) ∧ (d = 0%nat ∨ 256 ^ Z.of_nat d ≤ i).
Proof.
  revert i size. induction fuel as [|fuel IH]; intros i size Hi.
  - exists 0%nat. simpl. split_and!; try done; [lia|by left].
  - cbn [intsize_loop]. rewrite Z.shiftr_div_pow2 by lia. change (2 ^ 8) with 256.
    destruct (Z.eqb_spec (i / 256) 0) as [H0|H0].
    + exists 0%nat. split_and!; [lia|lia| |by left].
      apply Z.div_small_iff in H0; lia.
    + destruct (IH (i / 256) (S size)) as (d & Hd & Hle & Hlt & Hge).
      { split; [apply Z.div_pos; lia|].
        apply Z.div_lt_upper_bound; [lia|].
        rewrite (Nat2Z.inj_succ (S fuel)), Z.pow_succ_r in Hi by lia. lia. }
      exists (S d). split_and!; [lia|lia| |right].
      * rewrite (Nat2Z.inj_succ (S d)), Z.pow_succ_r by lia.
        pose proof (Z.div_mod i 256 ltac:(lia)).
        pose proof (Z.mod_pos_bound i 256 ltac:(lia)). lia.
      * rewrite Nat2Z.inj_succ, Z.pow_succ_r by lia.
        assert (256 ^ Z.of_nat d ≤ i / 256) as Hq.
        { destruct Hge as [->|]; [|done]. simpl.
          assert (0 ≤ i / 256) by (apply Z.div_pos; lia). lia. }
        pose proof (Z.div_mod i 256 ltac:(lia)).
        pose proof (Z.mod_pos_bound i 256 ltac:(lia)). lia.
Qed.

(** The size bytes that [putint] writes: between one and eight of them,
    no leading zero, and they read back as the size. *)
Lemma putint_spec i :
  56 ≤ i < 2 ^ 64 →
  1 ≤ len (putint i) ≤ 8 ∧ be_to_Z (putint i) = i ∧
  ∃ b0 tl, putint i = b0 :: tl ∧ bv b0 ≠ 0.
Proof.
  intros Hi. unfold putint, intsize.
  destruct (intsize_loop_spec 7 i 1) as (d & -> & Hd & Hlt & Hge).
  { change (256 ^ Z.of_nat 8) with (2 ^ 64). lia. }
  split_and!.
  - unfold len. rewrite length_be_bytes. lia.
  - unfold len. rewrite length_be_bytes. lia.
  - rewrite be_to_Z_be_bytes. apply Z.mod_small.
    replace (1 + d)%nat with (S d) by lia. lia.
  - replace (1 + d)%nat with (S d) by lia. rewrite be_bytes_head.
    eexists _, _. split; [done|]. rewrite bv_byte_of_Z.
    assert (0 < 256 ^ Z.of_nat d) by (apply Z.pow_pos_nonneg; lia).
    assert (1 ≤ i / 256 ^ Z.of_nat d < 256) as Hq.
    { split.
      - apply Z.div_le_lower_bound; [lia|]. destruct Hge as [->|]; simpl; lia.
      - apply Z.div_lt_upper_bound; [lia|].
        rewrite Nat2Z.inj_succ, Z.pow_succ_r in Hlt by lia. lia. }
    rewrite Z.mod_small; lia.
Qed.

Lemma take_drop_app_exact {A} (hdr body rest : list A) (ts cs : Z) :
  ts = len hdr → cs = len body →
  take (Z.to_nat cs) (drop (Z.to_nat ts) (hdr ++ body ++ rest)) = body ∧
  drop (Z.to_nat (ts + cs)) (hdr ++ body ++ rest) = rest.
Proof.
  intros -> ->. unfold len. rewrite !Nat2Z.id. split.
  - rewrite drop_app_length. by rewrite take_app_length.
  - replace (Z.to_nat (Z.of_nat (length hdr) + Z.of_nat (length body)))
      with (length (hdr ++ body)) by (rewrite length_app; lia).
    by rewrite (assoc_L (++)), drop_app_length.
Qed.

Lemma readSize_putint size tl :
  56 ≤ size < 2 ^ 64 →
  rlp.readSize (putint size ++ tl) (len (putint size)) = Ok size.
Proof.
  intros Hs. destruct (putint_spec size Hs) as (Hlen & Hbe & b0 & t & Hp & Hb0).
  unfold rlp.readSize. rewrite len_app.
  destruct (Z.ltb_spec (len (putint size) + len tl) (len (putint size))) as [Hlt|_].
  { pose proof (len_nonneg tl). lia. }
  assert (take (Z.to_nat (len (putint size))) (putint size ++ tl) = putint size)
    as -> by (unfold len; rewrite Nat2Z.id; apply take_app_length).
  rewrite Hbe. destruct (Z.ltb_spec size 56); [lia|]. simpl.
  rewrite Hp. simpl. by destruct (Z.eqb_spec (bv b0) 0).
Qed.

Lemma readKind_short_string b0 tl cs :
  bv b0 = 0x80 + cs → 0 ≤ cs < 56 → cs ≤ len tl →
  (cs = 1 → ∃ b1 tl', tl = b1 :: tl' ∧ 128 ≤ bv b1) →
  rlp.readKind (b0 :: tl) = Ok (rlp.String, 1, cs).
Proof.
  intros Hb Hcs Hle Hcanon. unfold rlp.readKind. rewrite Hb, len_cons.
  replace (128 + cs - 128) with cs by lia.
  assert (((cs =? 1) && (1 <? len tl + 1) &&
           match tl with b1 :: _ => bv b1 <? 128 | [] => false end) = false) as ->.
  { destruct (Z.eqb_spec cs 1) as [Hone|]; [|done].
    destruct (Hcanon Hone) as (b1 & tl' & -> & Hb1).
    destruct (Z.ltb_spec (bv b1) 128); [lia|]. apply andb_false_r. }
  destruct (Z.ltb_spec (128 + cs) 128); [lia|].
  destruct (Z.ltb_spec (128 + cs) 184); [|lia]. simpl.
  by destruct (Z.ltb_spec (len tl + 1 - 1) cs); [lia|].
Qed.

Lemma readKind_long_string b0 tl n cs :
  bv b0 = 0xB7 + n → 1 ≤ n ≤ 8 → rlp.readSize tl n = Ok cs → cs ≤ len tl - n →
  rlp.readKind (b0 :: tl) = Ok (rlp.String, n + 1, cs).
Proof.
  intros Hb Hn Hs Hle. unfold rlp.readKind. rewrite Hb, len_cons.
  replace (183 + n - 183) with n by lia. rewrite Hs.
  destruct (Z.ltb_spec (183 + n) 128); [lia|].
  destruct (Z.ltb_spec (183 + n) 184); [lia|].
  destruct (Z.ltb_spec (183 + n) 192); [|lia]. simpl.
  by destruct (Z.ltb_spec (len tl + 1 - (n + 1)) cs); [lia|].
Qed.

Lemma readKind_short_list b0 tl cs :
  bv b0 = 0xC0 + cs → 0 ≤ cs < 56 → cs ≤ len tl →
  rlp.readKind (b0 :: tl) = Ok (rlp.List, 1, cs).
Proof.
  intros Hb Hcs Hle. unfold rlp.readKind. rewrite Hb, len_cons.
  replace (192 + cs - 192) with cs by lia.
  destruct (Z.ltb_spec (192 + cs) 128); [lia|].
  destruct (Z.ltb_spec (192 + cs) 184); [lia|].
  destruct (Z.ltb_spec (192 + cs) 192); [lia|].
  destruct (Z.ltb_spec (192 + cs) 248); [|lia]. simpl.
  by destruct (Z.ltb_spec (len tl + 1 - 1) cs); [lia|].
Qed.

Lemma readKind_long_list b0 tl n cs :
  bv b0 = 0xF7 + n → 1 ≤ n ≤ 8 → rlp.readSize tl n = Ok cs → cs ≤ len tl - n →
  rlp.readKind (b0 :: tl) = Ok (rlp.List, n + 1, cs).
Proof.
  intros Hb Hn Hs Hle. unfold rlp.readKind. rewrite Hb, len_cons.
  replace (247 + n - 247) with n by lia. rewrite Hs.
  destruct (Z.ltb_spec (247 + n) 128); [lia|].
  destruct (Z.ltb_spec (247 + n) 184); [lia|].
  destruct (Z.ltb_spec (247 + n) 192); [lia|].
  destruct (Z.ltb_spec (247 + n) 248); [lia|]. simpl.
  by destruct (Z.ltb_spec (len tl + 1 - (n + 1)) cs); [lia|].
Qed.

(** Reading back a header written by [puthead]. *)
Lemma readKind_puthead (smalltag largetag : Z) (k : rlp.Kind) body rest :
  (smalltag = 0x80 ∧ largetag = 0xB7 ∧ k = rlp.String ∧
   (∀ x, body = [x] → 0x80 ≤ bv x))
  ∨ (smalltag = 0xC0 ∧ largetag = 0xF7 ∧ k = rlp.List) →
  len body < 2 ^ 64 →
  rlp.readKind (puthead smalltag largetag (len body) ++ body ++ rest) =
    Ok (k, len (puthead smalltag largetag (len body)), len body).
Proof.
  intros Htag Hlen. pose proof (len_nonneg body) as H0.
  pose proof (len_nonneg rest) as Hr.
  unfold puthead. destruct (Z.ltb_spec (len body) 56) as [Hsmall|Hlarge].
  - (* one tag byte *)
    change (len [byte_of_Z (smalltag + len body)]) with 1. cbn [app].
    destruct Htag as [(-> & -> & -> & Hcanon)|(-> & -> & ->)].
    + apply readKind_short_string; rewrite ?bv_byte_of_Z_small, ?len_app; try lia.
      intros Hone. destruct body as [|x [|y body]]; unfold len in Hone;
        simpl in Hone; try lia.
      exists x, rest. split; [done|]. by apply Hcanon.
    + apply readKind_short_list; rewrite ?bv_byte_of_Z_small, ?len_app; lia.
  - (* a tag byte and the size *)
    assert (56 ≤ len body < 2 ^ 64) as Hs by lia.
    destruct (putint_spec (len body) Hs) as (Hn & _).
    rewrite len_cons. cbn [app].
    destruct Htag as [(-> & -> & -> & _)|(-> & -> & ->)].
    + apply readKind_long_string; rewrite ?bv_byte_of_Z_small, ?len_app; try lia.
      by apply readSize_putint.
    + apply readKind_long_list; rewrite ?bv_byte_of_Z_small, ?len_app; try lia.
      by apply readSize_putint.
Qed.

Lemma Split_encode_list payload rest :
  len payload < 2 ^ 64 →
  rlp.Split (encode_list payload ++ rest) = Ok (rlp.List, payload, rest).
Proof.
  intros Hlen. unfold encode_list, rlp.Split. rewrite <- (assoc_L (++)).
  rewrite (readKind_puthead 0xC0 0xF7 rlp.List) by (auto; right; done).
  simpl. destruct (take_drop_app_exact (puthead 192 247 (len payload)) payload rest
                     _ _ eq_refl eq_refl) as [-> ->]. done.
Qed.

Lemma Split_encode_string b rest :
  len b < 2 ^ 64 →
  rlp.Split (encode_string b ++ rest) = Ok (string_kind b, b, rest).
Proof.
  intros Hlen.
  assert ((∀ x, b = [x] → 0x80 ≤ bv x) →
          rlp.Split ((puthead 0x80 0xB7 (len b) ++ b) ++ rest)
          = Ok (rlp.String, b, rest)) as Hgen.
  { intros Hc. unfold rlp.Split. rewrite <- (assoc_L (++)).
    rewrite (readKind_puthead 0x80 0xB7 rlp.String) by (auto; left; done).
    simpl. destruct (take_drop_app_exact (puthead 128 183 (len b)) b rest
                       _ _ eq_refl eq_refl) as [-> ->]. done. }
  unfold encode_string, string_kind.
  destruct b as [|x [|y b]]; try (apply Hgen; intros ? [=]).
  destruct (Z.ltb_spec (bv x) 128) as [Hx|Hx].
  - unfold rlp.Split, rlp.readKind. cbn [app].
    destruct (Z.ltb_spec (bv x) 128); [|lia]. simpl.
    rewrite len_cons. pose proof (len_nonneg rest).
    destruct (Z.ltb_spec (len rest + 1 - 0) 1); [lia|]. done.
  - apply Hgen. by intros ? [= <-].
Qed.

Lemma SplitString_encode_string b rest :
  len b < 2 ^ 64 →
  rlp.SplitString (encode_string b ++ rest) = Ok (b, rest).
Proof.
  intros H. rewrite (SplitString_Ok _ _ _ _ (Split_encode_string b rest H)).
  unfold string_kind. destruct b as [|x [|??]]; try done. by destruct (_ <? _).
Qed.

Lemma string_kind_not_List b : string_kind b ≠ rlp.List.
Proof.
  unfold string_kind. destruct b as [|x [|??]]; try done. by destruct (_ <? _).
Qed.

Lemma SplitList_encode_list payload rest :
  len payload < 2 ^ 64 →
  rlp.SplitList (encode_list payload ++ rest) = Ok (payload, rest).
Proof. intros H. by apply SplitList_Ok, Split_encode_list. Qed.

Lemma len_encode_string_ge b : len b ≤ len (encode_string b).
Proof.
  assert (∀ h : bytes, len b ≤ len (h ++ b)) as Hh.
  { intros h. rewrite len_app. pose proof (len_nonneg h). lia. }
  unfold encode_string. destruct b as [|x [|y b]]; try apply Hh.
  destruct (bv x <? 128); [lia|apply Hh].
Qed.

Lemma len_encode_list_ge p : len p ≤ len (encode_list p).
Proof.
  unfold encode_list. rewrite len_app.
  pose proof (len_nonneg (puthead 192 247 (len p))). lia.
Qed.

(** * Round trips *)

Lemma has_values_encode_string_1 b :
  len (encode_string b) < 2 ^ 64 →
  has_values (encode_string b) [(string_kind b, b)].
Proof.
  intros H. pose proof (len_encode_string_ge b).
  econstructor; [|constructor].
  rewrite <- (app_nil_r (encode_string b)). apply Split_encode_string. lia.
Qed.

Lemma has_values_encode_string_2 a b :
  len (encode_string a ++ encode_string b) < 2 ^ 64 →
  has_values (encode_string a ++ encode_string b)
             [(string_kind a, a); (string_kind b, b)].
Proof.
  rewrite len_app. intros H.
  pose proof (len_encode_string_ge a). pose proof (len_encode_string_ge b).
  pose proof (len_nonneg (encode_string a)).
  pose proof (len_nonneg (encode_string b)). pose proof (len_nonneg b).
  econstructor; [apply Split_encode_string; lia|].
  apply has_values_encode_string_1. lia.
Qed.

Lemma list_of_encode_list payload vs :
  len (encode_list payload) < 2 ^ 64 →
  has_values payload vs → list_of (encode_list payload) vs.
Proof.
  intros H Hv. pose proof (len_encode_list_ge payload).
  exists payload, []. split; [|done].
  rewrite <- (app_nil_r (encode_list payload)) at 1.
  apply SplitList_encode_list. lia.
Qed.

Lemma string_kind_long b : (2 ≤ length b)%nat → string_kind b = rlp.String.
Proof. destruct b as [|x [|y b]]; simpl; [lia|lia|done]. Qed.

Lemma BytesToHash_32 h : length h = 32%nat → BytesToHash h = h.
Proof.
  intros H. rewrite BytesToHash_short by lia. rewrite H. done.
Qed.

Lemma ParseNode_Serialize_leaf key value tc :
  length key = 32%nat →
  len (Serialize (LeafNode key value)) < 2 ^ 64 →
  ParseNode (Serialize (LeafNode key value)) tc = Ok (LeafNode key value).
Proof.
  intros Hk Hlen. cbn [Serialize] in *.
  pose proof (len_encode_list_ge (encode_string key ++ encode_string value)).
  assert (has_values (encode_string key ++ encode_string value)
            [(string_kind key, key); (string_kind value, value)]) as Hv
    by (apply has_values_encode_string_2; lia).
  rewrite (ParseNode_two _ tc _ _ _ _ (list_of_encode_list _ _ Hlen Hv)).
  rewrite string_kind_long by lia. destruct (decide (_ ≠ _)); [done|].
  rewrite Hk. simpl. destruct (decide _) as [E|]; [|done].
  by apply string_kind_not_List in E.
Qed.

Lemma ParseNode_Serialize_hashed h tc :
  length h = 32%nat →
  ParseNode (Serialize (HashedNode h)) tc = Ok (HashedNode h).
Proof.
  intros Hh. cbn [Serialize].
  assert (len h = 32) as Hl by (unfold len; lia).
  assert (encode_string h = byte_of_Z (0x80 + 32) :: h) as He.
  { unfold encode_string. destruct h as [|x [|y h]]; try (simpl in Hh; lia).
    unfold puthead. rewrite Hl. done. }
  assert (len (encode_string h) = 33) as Hl' by (rewrite He, len_cons; lia).
  assert (len (encode_list (encode_string h)) = 34) as Hl''.
  { unfold encode_list, puthead. rewrite Hl'. simpl. rewrite len_cons. lia. }
  assert (has_values (encode_string h) [(string_kind h, h)]) as Hv
    by (apply has_values_encode_string_1; lia).
  assert (list_of (encode_list (encode_string h)) [(string_kind h, h)]) as Hlo
    by (apply list_of_encode_list; [lia|done]).
  rewrite (ParseNode_one _ tc _ _ Hlo).
  destruct (decide _) as [E|]; [by apply string_kind_not_List in E|].
  by rewrite BytesToHash_32.
Qed.

(** ** The bitmap written for a node names its occupied slots *)

Lemma positions_from_app p bits1 bits2 :
  positions_from p (bits1 ++ bits2) =
    positions_from p bits1 ++ positions_from (p + length bits1) bits2.
Proof.
  revert p. induction bits1 as [|b bits1 IH]; intros p; simpl.
  - by rewrite Nat.add_0_r.
  - rewrite IH, <- (assoc_L (++)). do 3 f_equal. lia.
Qed.

Lemma chunk_indices i (o0 o1 o2 o3 o4 o5 o6 o7 : bool) :
  let b := byte_of_Z (bits_to_Z [o0; o1; o2; o3; o4; o5; o6; o7]) in
  (if Z.land (bv b) 0xff =? 0x00 then [] else byte_indices i b)
  = positions_from (i * 8) [o0; o1; o2; o3; o4; o5; o6; o7].
Proof.
  destruct o0, o1, o2, o3, o4, o5, o6, o7; cbv zeta; unfold byte_indices;
    simpl; repeat (f_equal; try lia).
Qed.

Lemma indices_from_bitlist_loop n :
  ∀ i bits, length bits = (8 * n)%nat →
    indices_from i (bitlist_loop n bits) = positions_from (i * 8) bits.
Proof.
  induction n as [|n IH]; intros i bits Hlen.
  - by destruct bits.
  - do 8 (destruct bits as [|? bits]; [simpl in Hlen; lia|]).
    assert (length bits = (8 * n)%nat) as Hlen' by (cbn [length] in Hlen; lia).
    cbn [bitlist_loop indices_from take drop].
    rewrite chunk_indices, (IH _ _ Hlen').
    change (?a :: ?b :: ?c :: ?d :: ?e :: ?f :: ?g :: ?h :: bits)
      with ([a; b; c; d; e; f; g; h] ++ bits).
    rewrite positions_from_app. do 2 f_equal. simpl. lia.
Qed.

Lemma indicesFromBitlist_bitlist_of children :
  (length children mod 8 = 0)%nat →
  indicesFromBitlist (bitlist_of children) = positions_from 0 (occupied <$> children).
Proof.
  intros Hm. unfold indicesFromBitlist, bitlist_of.
  apply (indices_from_bitlist_loop _ 0). rewrite length_fmap.
  pose proof (Nat.div_mod (length children) 8 ltac:(lia)). lia.
Qed.

Lemma length_bitlist_loop n bits : length (bitlist_loop n bits) = n.
Proof.
  revert bits. induction n as [|n IH]; intros bits; simpl; [done|]. by rewrite IH.
Qed.

Lemma positions_from_lookup children :
  ∀ p k slot,
    positions_from p (occupied <$> children) !! k = Some slot →
    ∃ c, (p ≤ slot)%nat ∧ children !! (slot - p)%nat = Some (Some c) ∧
         omap id children !! k = Some c.
Proof.
  induction children as [|c children IH]; intros p k slot Hk; simpl in Hk.
  - by rewrite lookup_nil in Hk.
  - destruct c as [c|]; simpl in Hk.
    + destruct k as [|k]; simpl in Hk.
      * simplify_eq. exists c. replace (slot - slot)%nat with 0%nat by lia.
        split_and!; done.
      * destruct (IH _ _ _ Hk) as (c' & Hle & Hc & Ho). exists c'.
        replace (slot - p)%nat with (S (slot - S p)) by lia.
        split_and!; [lia|done|done].
    + destruct (IH _ _ _ Hk) as (c' & Hle & Hc & Ho). exists c'.
      replace (slot - p)%nat with (S (slot - S p)) by lia.
      split_and!; [lia|done|done].
Qed.

Lemma positions_from_length children p :
  length (positions_from p (occupied <$> children)) = length (omap id children).
Proof.
  revert p. induction children as [|[c|] children IH]; intros p; simpl;
    rewrite ?IH; done.
Qed.

Lemma positions_from_elem children :
  ∀ p i c, children !! i = Some (Some c) →
           (p + i)%nat ∈ positions_from p (occupied <$> children).
Proof.
  induction children as [|c0 children IH]; intros p i c Hi; [by rewrite lookup_nil in Hi|].
  simpl. destruct i as [|i]; simpl in Hi.
  - simplify_eq. simpl. rewrite Nat.add_0_r. left.
  - apply elem_of_app. right. replace (p + S i)%nat with (S p + i)%nat by lia.
    by eapply IH.
Qed.

(** ** The children written for a node are read back *)

Lemma len_flat_map_ge {A} (f : A → bytes) l x :
  x ∈ l → len (f x) ≤ len (flat_map f l).
Proof.
  induction 1 as [x l|x y l _ IH]; simpl; rewrite len_app.
  - pose proof (len_nonneg (flat_map f l)). lia.
  - pose proof (len_nonneg (f y)). lia.
Qed.

Lemma flat_map_omap (children : list (option VerkleNode)) :
  flat_map (λ c, match c with Some c' => Serialize c' | None => [] end) children
  = flat_map Serialize (omap id children).
Proof.
  induction children as [|[c|] children IH]; simpl; by rewrite ?IH.
Qed.

Lemma Serialize_flat_child c :
  flat_child c → Serialize c = encode_list (child_payload c).
Proof. by destruct c. Qed.

Lemma child_of_payload c :
  flat_child c → len (Serialize c) < 2 ^ 64 →
  child_of (child_payload c) (Some c).
Proof.
  intros Hf Hlen. rewrite (Serialize_flat_child c Hf) in Hlen.
  pose proof (len_encode_list_ge (child_payload c)).
  destruct c as [| key value | h]; [done| |]; simpl in *.
  - eapply child_leaf; [apply has_values_encode_string_2; lia|..];
      apply string_kind_not_List.
  - rewrite <- (BytesToHash_32 h Hf) at 2.
    eapply child_hashed; [apply has_values_encode_string_1; lia|].
    apply string_kind_not_List.
Qed.

Lemma serialized_children_lists occ rest :
  Forall flat_child occ →
  Forall (λ c, len (Serialize c) < 2 ^ 64) occ →
  starts_with_lists (flat_map Serialize occ ++ rest) (child_payload <$> occ) ∧
  Forall2 child_of (child_payload <$> occ) (Some <$> occ).
Proof.
  induction occ as [|c occ IH]; intros Hf Hlen; simpl.
  { split; constructor. }
  apply Forall_cons in Hf as [Hc Hf]. apply Forall_cons in Hlen as [Hlc Hlen].
  destruct (IH Hf Hlen) as [Hs HF]. split.
  - econstructor; [|exact Hs]. rewrite <- (assoc_L (++)).
    rewrite (Serialize_flat_child c Hc) in *.
    apply SplitList_encode_list. pose proof (len_encode_list_ge (child_payload c)). lia.
  - constructor; [by apply child_of_payload|done].
Qed.

(** An internal node with 1024 slots that hold leaves and hashed nodes
    is read back with the same slots, at depth 0 and with empty caches. *)
Lemma ParseNode_Serialize_internal children commitment hash tc :
  width tc = 10%nat → length children = 1024%nat →
  Forall flat_slot children →
  len (Serialize (InternalNode children 0 commitment hash tc)) < 2 ^ 64 →
  ParseNode (Serialize (InternalNode children 0 commitment hash tc)) tc
  = Ok (InternalNode children 0 None None tc).
Proof.
  intros Hw Hlen Hflat Hsize.
  assert (nodeWidth tc = 1024%nat) as Hnw by (unfold nodeWidth; by rewrite Hw).
  cbn [Serialize] in *. rewrite flat_map_omap in *.
  set (occ := omap id children) in *.
  set (raw := flat_map Serialize occ) in *.
  set (bl := bitlist_of children) in *.
  assert (length bl = 128%nat) as Hbl.
  { subst bl. unfold bitlist_of. by rewrite length_bitlist_loop, Hlen. }
  pose proof (len_encode_list_ge (encode_string bl ++ encode_list raw)) as H1.
  rewrite len_app in H1.
  pose proof (len_encode_string_ge bl) as H2.
  pose proof (len_encode_list_ge raw) as H3.
  pose proof (len_nonneg (encode_string bl)) as H4.
  pose proof (len_nonneg bl) as H5. pose proof (len_nonneg raw) as H6.
  (* the shape of the encoding *)
  assert (list_of (encode_list (encode_string bl ++ encode_list raw))
            [(rlp.String, bl); (rlp.List, raw)]) as Hshape.
  { apply list_of_encode_list; [done|].
    econstructor; [|econstructor; [|constructor]].
    - rewrite <- (string_kind_long bl) by lia. apply Split_encode_string. lia.
    - rewrite <- (app_nil_r (encode_list raw)). apply Split_encode_list. lia. }
  rewrite (ParseNode_two _ tc _ _ _ _ Hshape).
  destruct (decide (_ ≠ _)); [done|]. rewrite Hbl. simpl.
  (* the children *)
  assert (Forall flat_child occ) as Hfc.
  { apply Forall_forall. intros c Hc. subst occ.
    apply list_elem_of_omap in Hc as (oc & Hoc & Hid). simpl in Hid. subst oc.
    rewrite Forall_forall in Hflat. by apply (Hflat (Some c)). }
  assert (Forall (λ c, len (Serialize c) < 2 ^ 64) occ) as Hsz.
  { apply Forall_forall. intros c Hc.
    pose proof (len_flat_map_ge Serialize occ c Hc). fold raw in H. lia. }
  destruct (serialized_children_lists occ [] Hfc Hsz) as [Hs HF].
  rewrite app_nil_r in Hs. fold raw in Hs.
  assert (indicesFromBitlist bl = positions_from 0 (occupied <$> children)) as Hidx.
  { subst bl. apply indicesFromBitlist_bitlist_of. by rewrite Hlen. }
  destruct (createInternalNode_spec bl raw tc (child_payload <$> occ) (Some <$> occ))
    as (children' & Hok & Hl' & Hk & Hout); try done.
  { lia. }
  { rewrite Hidx, length_fmap. subst occ. by rewrite positions_from_length. }
  rewrite Hok. do 2 f_equal.
  apply list_eq. intros slot.
  destruct (decide (slot < 1024)%nat) as [Hslot|Hslot].
  2: { rewrite !lookup_ge_None_2; [done|lia..]. }
  destruct (children !! slot) as [[c|]|] eqn:Hc.
  - (* an occupied slot *)
    pose proof (positions_from_elem children 0 slot c Hc) as Hel. simpl in Hel.
    apply list_elem_of_lookup in Hel as [k Hkl].
    destruct (positions_from_lookup _ _ _ _ Hkl) as (c' & _ & Hc' & Ho).
    rewrite Nat.sub_0_r, Hc in Hc'. simplify_eq.
    rewrite <- Hidx in Hkl. rewrite (Hk _ _ Hkl), list_lookup_fmap.
    fold occ in Ho. by rewrite Ho.
  - (* an empty slot *)
    apply Hout; [lia|]. rewrite Hidx. intros Hel.
    apply list_elem_of_lookup in Hel as [k Hkl].
    destruct (positions_from_lookup _ _ _ _ Hkl) as (c' & _ & Hc' & _).
    rewrite Nat.sub_0_r, Hc in Hc'. done.
  - apply lookup_ge_None in Hc. lia.
Qed.

(** C4 (as amended): parsing the serialization of a leaf with a 32-byte
    key, or of a hashed node, gives the node back; parsing the
    serialization of an internal node of depth 0 and width 10 whose
    occupied slots hold leaves and hashed nodes gives back the node with
    the same slots and with both caches empty. *)
Theorem Serialize_ParseNode_roundtrip :
  (∀ key value tc,
     length key = 32%nat → len (Serialize (LeafNode key value)) < 2 ^ 64 →
     ParseNode (Serialize (LeafNode key value)) tc = Ok (LeafNode key value)) ∧
  (∀ h tc,
     length h = 32%nat →
     ParseNode (Serialize (HashedNode h)) tc = Ok (HashedNode h)) ∧
  (∀ children commitment hash tc,
     width tc = 10%nat → length children = 1024%nat →
     Forall flat_slot children →
     len (Serialize (InternalNode children 0 commitment hash tc)) < 2 ^ 64 →
     ParseNode (Serialize (InternalNode children 0 commitment hash tc)) tc
     = Ok (InternalNode children 0 None None tc)).
Proof.
  split_and!.
  - apply ParseNode_Serialize_leaf.
  - apply ParseNode_Serialize_hashed.
  - apply ParseNode_Serialize_internal.
Qed.

(** * The theorems at sample inputs *)

Ltac values_by_computation :=
  repeat first
    [ apply has_values_nil
    | eapply has_values_cons; [vm_compute; reflexivity|] ].

Ltac list_of_by_computation :=
  eexists _, _; split; [vm_compute; reflexivity|values_by_computation].

Ltac lists_by_computation :=
  repeat first
    [ apply starts_with_nil
    | eapply starts_with_cons; [vm_compute; reflexivity|] ].

Lemma ParseNode_shapes_witness :
  ParseNode enc_leaf tc10 = Ok (LeafNode zeroKeyTest testValue)
  ∧ ParseNode enc_hashed tc10 = Ok (HashedNode sample_hash).
Proof.
  split.
  - apply (proj1 (proj2 (ParseNode_shapes enc_leaf tc10))) with (k2 := rlp.String);
      [list_of_by_computation|reflexivity|discriminate].
  - apply (proj1 (ParseNode_shapes enc_hashed tc10) rlp.String sample_hash);
      [list_of_by_computation|discriminate].
Defined.

(** C1 as stated fails: a one-element list whose element is a list, a
    two-element list of a 32-byte string and a list, and a two-element
    list of a 128-byte string and a list too short for the bitmap are all
    refused. *)
Lemma ParseNode_shapes_counterexample :
  (list_of enc_nested_one [(rlp.List, [])]
   ∧ ParseNode enc_nested_one tc10 = Err ErrExpectedString) ∧
  (list_of enc_key_list [(rlp.String, zeroKeyTest); (rlp.List, [])]
   ∧ length zeroKeyTest = 32%nat
   ∧ ParseNode enc_key_list tc10 = Err ErrExpectedString) ∧
  (list_of enc_internal_missing [(rlp.String, bitmap_0); (rlp.List, [])]
   ∧ length bitmap_0 = 128%nat
   ∧ ParseNode enc_internal_missing tc10 = Err ErrUnexpectedEOF).
Proof.
  split_and!; try list_of_by_computation; vm_compute; reflexivity.
Qed.


Lemma createInternalNode_children_witness :
  ∃ children,
    createInternalNode bitmap_0 ([Byte.xf8; Byte.x88] ++ long_key_content) tc10
    = Ok (InternalNode children 0 None None tc10) ∧
    children !! 0%nat = Some (Some (LeafNode bitmap_0 testValue)).
Proof.
  destruct (createInternalNode_children bitmap_0
              ([Byte.xf8; Byte.x88] ++ long_key_content) tc10 [long_key_content])
    as (Hshape & _ & _).
  - vm_compute. lia.
  - lists_by_computation.
  - reflexivity.
  - destruct (Hshape [Some (LeafNode bitmap_0 testValue)])
      as (children & Hok & Hk).
    { repeat constructor.
      apply (child_leaf long_key_content rlp.String bitmap_0 rlp.String testValue);
        [values_by_computation|discriminate..]. }
    exists children. split; [done|].
    apply (proj2 (Hk 0%nat long_key_content 0%nat eq_refl eq_refl)
             rlp.String bitmap_0 rlp.String testValue);
      [values_by_computation|discriminate..].
Defined.

(** C3 as stated fails: the encoding of an internal node, which
    [ParseNode] accepts on its own, is refused as a child; and a child of
    two byte strings whose first has 128 bytes becomes a leaf. *)
Lemma createInternalNode_children_counterexample :
  (ParseNode enc_internal_empty tc10
   = Ok (InternalNode (replicate 1024 None) 0 None None tc10) ∧
   list_of enc_internal_nested
     [(rlp.String, bitmap_0); (rlp.List, enc_internal_empty)] ∧
   ParseNode enc_internal_nested tc10 = Err ErrExpectedString) ∧
  (has_values long_key_content [(rlp.String, bitmap_0); (rlp.String, testValue)] ∧
   length bitmap_0 = 128%nat ∧
   list_of enc_internal_long_key
     [(rlp.String, bitmap_0);
      (rlp.List, [Byte.xf8; Byte.x88] ++ long_key_content)] ∧
   ParseNode enc_internal_long_key tc10
   = Ok (InternalNode (<[0%nat := Some (LeafNode bitmap_0 testValue)]>
                         (replicate 1024 None)) 0 None None tc10)).
Proof.
  split_and!; try list_of_by_computation; try values_by_computation;
    vm_compute; reflexivity.
Qed.

Lemma Serialize_ParseNode_roundtrip_witness :
  ParseNode (Serialize (LeafNode zeroKeyTest testValue)) tc10
  = Ok (LeafNode zeroKeyTest testValue) ∧
  ParseNode (Serialize (HashedNode sample_hash)) tc10 = Ok (HashedNode sample_hash) ∧
  ∃ children,
    sample_flat = InternalNode children 0 (Some G1Infinity) (Some 7) tc10 ∧
    ParseNode (Serialize sample_flat) tc10 = Ok (InternalNode children 0 None None tc10).
Proof.
  destruct Serialize_ParseNode_roundtrip as (Hleaf & Hhashed & Hinternal).
  split_and!.
  - apply Hleaf; [reflexivity|vm_compute; reflexivity].
  - apply Hhashed. reflexivity.
  - eexists. split; [reflexivity|]. apply Hinternal.
    + reflexivity.
    + reflexivity.
    + apply Forall_forall. intros c Hc.
      apply list_elem_of_In in Hc.
      assert (∀ l : list (option VerkleNode),
                Forall flat_slot l → In c l → flat_slot c) as Hin.
      { intros l Hl Hi. rewrite Forall_forall in Hl. apply Hl.
        by apply list_elem_of_In. }
      revert Hc. apply Hin.
      apply Forall_insert; [apply Forall_insert; [apply Forall_replicate|]|];
        simpl; done.
    + vm_compute. reflexivity.
Defined.

(** C4 as stated fails: an internal node whose slot 0 holds an internal
    node with two leaves is serialized to bytes that [ParseNode] refuses. *)
Lemma Serialize_ParseNode_roundtrip_counterexample :
  ParseNode (Serialize sample_outer) tc10 = Err ErrExpectedString.
Proof. vm_compute. reflexivity. Qed.

Lemma ParseNode_skips_children_witness :
  ∃ children,
    ParseNode enc_internal_three tc10 = Ok (InternalNode children 0 None None tc10) ∧
    children !! 0%nat = Some None ∧
    children !! 9%nat = Some (Some (LeafNode zeroKeyTest testValue)).
Proof.
  destruct (ParseNode_skips_children enc_internal_three tc10 bitmap_0_9
              raw_three_leaf [three_content; leaf_content]
              [None; Some (LeafNode zeroKeyTest testValue)])
    as (children & Hok & Hskip & Hkeep).
  - list_of_by_computation.
  - reflexivity.
  - vm_compute. lia.
  - lists_by_computation.
  - repeat constructor.
    + apply (child_skipped three_content
               [(rlp.Byte, [Byte.x01]); (rlp.Byte, [Byte.x02]); (rlp.Byte, [Byte.x03])]);
        [values_by_computation|discriminate..].
    + apply (child_leaf leaf_content rlp.String zeroKeyTest rlp.String testValue);
        [values_by_computation|discriminate..].
  - reflexivity.
  - exists children. split_and!; [done| |by apply (Hkeep 1%nat)].
    apply (Hskip 0%nat three_content
             [(rlp.Byte, [Byte.x01]); (rlp.Byte, [Byte.x02]); (rlp.Byte, [Byte.x03])]);
      [reflexivity|values_by_computation|discriminate..|reflexivity].
Defined.

Lemma ParseNode_hash_any_length_witness :
  (∃ hash, ParseNode enc_short_hash tc10 = Ok (HashedNode hash)
           ∧ hash = replicate 31 Byte.x00 ++ [Byte.xff]) ∧
  (∃ hash, ParseNode enc_long_hash tc10 = Ok (HashedNode hash)
           ∧ hash = sample_hash).
Proof.
  split.
  - destruct (ParseNode_hash_any_length enc_short_hash tc10 rlp.String [Byte.xff])
      as (hash & Hok & _ & Hshort & _);
      [list_of_by_computation|discriminate|].
    exists hash. split; [done|]. apply Hshort. simpl. lia.
  - destruct (ParseNode_hash_any_length enc_long_hash tc10 rlp.String
                (Byte.x22 :: sample_hash))
      as (hash & Hok & _ & _ & Hlong);
      [list_of_by_computation|discriminate|].
    exists hash. split; [done|]. apply Hlong. simpl. lia.
Defined.

(** * Keys, prefixes and slots *)

Lemma be_to_Z_range b : 0 ≤ be_to_Z b < 256 ^ len b.
Proof.
  induction b as [|x b IH] using rev_ind.
  - by vm_compute.
  - rewrite be_to_Z_snoc, len_app. change (len [x]) with 1.
    pose proof (len_nonneg b). rewrite Z.pow_add_r, Z.pow_1_r by lia.
    pose proof (bv_range x). nia.
Qed.

Lemma bv_inj x y : bv x = bv y → x = y.
Proof.
  unfold bv. intros H. apply N2Z.inj in H.
  pose proof (Byte.of_to_N x) as Hx. pose proof (Byte.of_to_N y) as Hy.
  rewrite H in Hx. rewrite Hx in Hy. by injection Hy.
Qed.

Lemma be_to_Z_inj a b : length a = length b → be_to_Z a = be_to_Z b → a = b.
Proof.
  revert b. induction a as [|x a IH] using rev_ind; intros b Hlen Heq.
  - destruct b; [done|simpl in Hlen; lia].
  - destruct b as [|y b _] using rev_ind; [rewrite length_app in Hlen; simpl in Hlen; lia|].
    rewrite !length_app in Hlen. simpl in Hlen.
    rewrite !be_to_Z_snoc in Heq.
    pose proof (bv_range x). pose proof (bv_range y).
    assert (be_to_Z a = be_to_Z b ∧ bv x = bv y) as [Ha Hx] by lia.
    f_equal; [apply IH; [lia|done]|]. f_equal. by apply bv_inj.
Qed.

Lemma key_range key : length key = 32%nat → 0 ≤ be_to_Z key < 2 ^ 256.
Proof.
  intros H. pose proof (be_to_Z_range key) as Hr. unfold len in Hr.
  rewrite H in Hr. exact Hr.
Qed.

Section Slots.
Variable tc : TreeConfig.
Hypothesis width_pos : (0 < width tc)%nat.

Lemma keyPrefix_0 key : length key = 32%nat → keyPrefix key 0 tc = 0.
Proof.
  intros H. unfold keyPrefix. simpl. rewrite Z.sub_0_r.
  pose proof (key_range key H). rewrite Z.shiftr_div_pow2 by lia.
  apply Z.div_small. lia.
Qed.

Lemma keyPrefix_S key d :
  keyPrefix key (S d) tc =
    keyPrefix key d tc * 2 ^ Z.of_nat (width tc) + Z.of_nat (childIndex key d tc).
Proof.
  unfold keyPrefix, childIndex.
  set (w := Z.of_nat (width tc)). assert (0 < w) by (subst w; lia).
  set (s := 256 - (Z.of_nat d + 1) * w).
  replace (256 - Z.of_nat (S d) * w) with s by (subst s; lia).
  replace (256 - Z.of_nat d * w) with (s + w) by (subst s; lia).
  set (X := Z.shiftr (be_to_Z key) s).
  rewrite <- Z.shiftr_shiftr by lia. fold X. rewrite Z.shiftr_div_pow2 by lia.
  assert (0 < 2 ^ w) by (apply Z.pow_pos_nonneg; lia).
  pose proof (Z.mod_pos_bound X (2 ^ w) ltac:(lia)).
  rewrite Z2Nat.id by lia.
  pose proof (Z.div_mod X (2 ^ w) ltac:(lia)). lia.
Qed.

Lemma childIndex_lt key d : (childIndex key d tc < nodeWidth tc)%nat.
Proof.
  unfold childIndex, nodeWidth.
  set (w := Z.of_nat (width tc)).
  assert (0 < 2 ^ w) by (apply Z.pow_pos_nonneg; lia).
  pose proof (Z.mod_pos_bound
                (Z.shiftr (be_to_Z key) (256 - (Z.of_nat d + 1) * w)) (2 ^ w)
                ltac:(lia)) as Hm.
  apply Nat2Z.inj_lt. rewrite Z2Nat.id by lia.
  rewrite Nat2Z.inj_pow. subst w. simpl. lia.
Qed.

Lemma shiftr_le a b n : 0 ≤ a ≤ b → Z.shiftr a n ≤ Z.shiftr b n.
Proof.
  intros Hab. destruct (Z_le_gt_dec 0 n).
  - rewrite !Z.shiftr_div_pow2 by lia. apply Z.div_le_mono; [|lia].
    apply Z.pow_pos_nonneg; lia.
  - rewrite !Z.shiftr_mul_pow2 by lia.
    assert (0 < 2 ^ (- n)) by (apply Z.pow_pos_nonneg; lia). nia.
Qed.

Lemma keyPrefix_le k1 k2 d :
  0 ≤ be_to_Z k1 ≤ be_to_Z k2 → keyPrefix k1 d tc ≤ keyPrefix k2 d tc.
Proof. apply shiftr_le. Qed.

Lemma Depth_covers : 256 ≤ Z.of_nat (Depth tc) * Z.of_nat (width tc).
Proof.
  unfold Depth. set (w := width tc) in *.
  pose proof (Nat.div_mod (256 + w - 1) w ltac:(lia)) as Hd.
  pose proof (Nat.mod_upper_bound (256 + w - 1) w ltac:(lia)). nia.
Qed.

Lemma Depth_pos : (0 < Depth tc)%nat.
Proof. pose proof Depth_covers. destruct (Depth tc); lia. Qed.

(** Below the last level the prefix is the whole key. *)
Lemma keyPrefix_inj k1 k2 d :
  length k1 = 32%nat → length k2 = 32%nat → (Depth tc ≤ d)%nat →
  keyPrefix k1 d tc = keyPrefix k2 d tc → k1 = k2.
Proof.
  intros H1 H2 Hd Heq. apply be_to_Z_inj; [congruence|].
  unfold keyPrefix in Heq. pose proof Depth_covers.
  assert (256 - Z.of_nat d * Z.of_nat (width tc) ≤ 0) as Hs by nia.
  rewrite !Z.shiftr_mul_pow2 in Heq by lia.
  set (e := - (256 - Z.of_nat d * Z.of_nat (width tc))) in *.
  assert (0 < 2 ^ e) by (apply Z.pow_pos_nonneg; lia). nia.
Qed.

(** Two keys that meet in a slot at depth [d] and differ leave room
    for a node at depth [d + 1]. *)
Lemma split_depth k1 k2 d :
  length k1 = 32%nat → length k2 = 32%nat → k1 ≠ k2 →
  keyPrefix k1 (S d) tc = keyPrefix k2 (S d) tc → (S d < Depth tc)%nat.
Proof.
  intros H1 H2 Hne Heq. destruct (decide (S d < Depth tc)%nat); [done|].
  destruct Hne. apply (keyPrefix_inj k1 k2 (S d)); [done|done|lia|done].
Qed.

Lemma keyPrefix_step k1 k2 d :
  keyPrefix k1 d tc = keyPrefix k2 d tc →
  childIndex k1 d tc = childIndex k2 d tc →
  keyPrefix k1 (S d) tc = keyPrefix k2 (S d) tc.
Proof. intros Hp Hi. rewrite !keyPrefix_S. congruence. Qed.

(** Keys in increasing order go to slots in increasing order. *)
Lemma childIndex_mono k1 k2 d :
  0 ≤ be_to_Z k1 ≤ be_to_Z k2 →
  keyPrefix k1 d tc = keyPrefix k2 d tc →
  (childIndex k1 d tc ≤ childIndex k2 d tc)%nat.
Proof.
  intros Hle Hp. pose proof (keyPrefix_le k1 k2 (S d) Hle) as H.
  rewrite !keyPrefix_S, Hp in H. lia.
Qed.

End Slots.

(** * Insert and Get *)

Lemma Get_internal children d c h tc key :
  Get (InternalNode children d c h tc) key =
    match children !! childIndex key d tc with
    | None => Panic
    | Some None => Err errValueNotPresent
    | Some (Some child) => Get child key
    end.
Proof.
  cbn [Get]. generalize (childIndex key d tc) as i.
  induction children as [|c0 cs IH]; intros i; [done|].
  destruct i as [|i]; simpl; [by destruct c0|apply IH].
Qed.

Lemma Get_leaf k v key :
  Get (LeafNode k v) key =
    if decide (k = key) then Ok v else Err errValueNotPresent.
Proof. reflexivity. Qed.

Lemma wf_newInternalNode tc d p :
  (d < Depth tc)%nat → wf_node tc d p (newInternalNode d tc).
Proof.
  intros Hd. constructor; [done|apply length_replicate|].
  intros i child H. by apply lookup_replicate in H as [? _].
Qed.

Lemma Get_newInternalNode tc d key :
  (0 < width tc)%nat → Get (newInternalNode d tc) key = Err errValueNotPresent.
Proof.
  intros Hw. unfold newInternalNode. rewrite Get_internal.
  by rewrite lookup_replicate_2 by (by apply childIndex_lt).
Qed.

Lemma wf_insert tc d p children c h i child :
  wf_node tc d p (InternalNode children d c h tc) →
  wf_node tc (S d) (p * 2 ^ Z.of_nat (width tc) + Z.of_nat i) child →
  wf_node tc d p (InternalNode (<[i := Some child]> children) d None None tc).
Proof.
  intros Hwf Hchild. inversion Hwf as [|? ? ? ? ? Hd Hlen Hch]; subst.
  constructor; [done|by rewrite length_insert|].
  intros i' child' Hl. destruct (decide (i' = i)) as [->|Hne].
  - apply list_lookup_insert_Some in Hl as [(_ & Heq & _)|[? _]]; [|done].
    by simplify_eq.
  - rewrite list_lookup_insert_ne in Hl by done. by apply Hch.
Qed.

Section InsertGet.
Variable tc : TreeConfig.
Hypothesis width_pos : (0 < width tc)%nat.

(** What [Get] finds in a node after slot [i] was replaced. *)
Lemma Get_insert children d c h i child key key' :
  (i < length children)%nat → childIndex key d tc = i →
  Get (InternalNode (<[i := Some child]> children) d None None tc) key' =
    if decide (childIndex key' d tc = i) then Get child key'
    else Get (InternalNode children d c h tc) key'.
Proof.
  intros Hi Hidx. rewrite !Get_internal. destruct (decide _) as [->|Hne].
  - by rewrite list_lookup_insert_eq.
  - by rewrite list_lookup_insert_ne.
Qed.

(** [Insert] of a 32-byte key into a well-formed internal node succeeds,
    keeps the node well-formed, makes [Get] of the key return the value
    and leaves [Get] of every other key as it was. *)
Lemma insert_rec_spec fuel :
  ∀ children d c h p key value,
    let n := InternalNode children d c h tc in
    wf_node tc d p n → length key = 32%nat → keyPrefix key d tc = p →
    (Depth tc - d ≤ fuel)%nat →
    ∃ children',
      let n' := InternalNode children' d None None tc in
      insert_rec fuel n key value = Ok n' ∧ wf_node tc d p n' ∧
      Get n' key = Ok value ∧
      ∀ key', key' ≠ key → Get n' key' = Get n key'.
Proof.
  induction fuel as [|fuel IH]; intros children d c h p key value n Hwf Hkey Hp Hfuel.
  { inversion Hwf; lia. }
  subst n. inversion Hwf as [|? ? ? ? ? Hd Hlen Hch]; subst.
  cbn [insert_rec].
  pose proof (childIndex_lt tc width_pos key d) as Hi.
  pose proof (keyPrefix_S tc width_pos key d) as HpS.
  set (i := childIndex key d tc) in *.
  set (q := keyPrefix key d tc * 2 ^ Z.of_nat (width tc) + Z.of_nat i) in *.
  destruct (children !! i) as [slot|] eqn:Hslot;
    [|apply lookup_ge_None in Hslot; lia].
  (* storing a child for the key in slot [i] *)
  assert (∀ child,
            wf_node tc (S d) q child → Get child key = Ok value →
            (∀ key', key' ≠ key → childIndex key' d tc = i →
               Get child key' = match slot with
                                | None => Err errValueNotPresent
                                | Some old => Get old key'
                                end) →
            let n' := InternalNode (<[i := Some child]> children) d None None tc in
            wf_node tc d (keyPrefix key d tc) n' ∧ Get n' key = Ok value ∧
            ∀ key', key' ≠ key →
              Get n' key' = Get (InternalNode children d c h tc) key')
    as Hstore.
  { intros child Hwfc Hget Hother. split_and!.
    - by eapply wf_insert.
    - rewrite (Get_insert children d c h i child key key) by (done || lia).
      by destruct (decide _).
    - intros key' Hne.
      rewrite (Get_insert children d c h i child key key') by (done || lia).
      destruct (decide _) as [Hi'|]; [|done].
      rewrite (Hother _ Hne Hi'), Get_internal, Hi', Hslot. done. }
  assert (wf_node tc (S d) q (LeafNode key value)) as Hwfleaf by by constructor.
  assert (Get (LeafNode key value) key = Ok value) as Hgetleaf
    by (cbn [Get]; by destruct (decide _)).
  destruct slot as [[cs d' c' h' tc'|k v|x]|].
  - (* an internal child *)
    pose proof (Hch _ _ Hslot) as Hwfc. inversion Hwfc; subst.
    destruct (IH cs (S d) c' h' q key value Hwfc Hkey HpS ltac:(lia))
      as (cs' & Hins & Hwf' & Hget & Hother).
    rewrite Hins. simpl. eexists. split; [done|]. apply Hstore; auto.
  - (* a leaf *)
    pose proof (Hch _ _ Hslot) as Hwfc. inversion Hwfc as [? ? ? ? Hk HkS|]; subst.
    destruct (decide (k = key)) as [->|Hne].
    { eexists. split; [done|]. apply Hstore; auto.
      intros key' Hne' _. cbn [Get]. by repeat destruct (decide _). }
    assert (S d < Depth tc)%nat as HSd.
    { apply (split_depth tc width_pos k key d); [done..|]. rewrite HpS. exact HkS. }
    destruct (Nat.ltb_spec (Depth tc) (d + 1)) as [|_]; [lia|].
    replace (d + 1)%nat with (S d) by lia.
    destruct (IH (replicate (nodeWidth tc) None) (S d) None None q k v)
      as (cs1 & Hins1 & Hwf1 & Hget1 & Hother1);
      [by apply wf_newInternalNode|done|exact HkS|lia|].
    fold (newInternalNode (S d) tc) in Hins1, Hother1.
    destruct (IH cs1 (S d) None None q key value)
      as (cs2 & Hins2 & Hwf2 & Hget2 & Hother2); [done|done|done|lia|].
    rewrite Hins1. simpl. rewrite Hins2. simpl. eexists. split; [done|].
    apply Hstore; auto.
    intros key' Hne' _. rewrite (Hother2 _ Hne'), Get_leaf.
    destruct (decide (k = key')) as [->|Hk']; [done|].
    rewrite Hother1 by done. by apply Get_newInternalNode.
  - (* a hashed child *)
    pose proof (Hch _ _ Hslot) as Hwfc. inversion Hwfc.
  - (* an empty slot *)
    eexists. split; [done|]. apply Hstore; auto.
    intros key' Hne' _. cbn [Get]. by destruct (decide _).
Qed.

Lemma Insert_spec children c h key value :
  let n := InternalNode children 0 c h tc in
  wf_node tc 0 0 n → length key = 32%nat →
  ∃ children',
    let n' := InternalNode children' 0 None None tc in
    Insert n key value = Ok n' ∧ wf_node tc 0 0 n' ∧
    Get n' key = Ok value ∧
    ∀ key', key' ≠ key → Get n' key' = Get n key'.
Proof.
  intros n Hwf Hkey. unfold Insert.
  apply insert_rec_spec; [done|done|by apply keyPrefix_0|].
  unfold levels. simpl. lia.
Qed.

Lemma insert_all_spec kvs :
  ∀ children c h,
    let n := InternalNode children 0 c h tc in
    wf_node tc 0 0 n →
    Forall (λ kv, length kv.1 = 32%nat) kvs →
    ∃ t, insert_all n kvs = Ok t ∧ wf_node tc 0 0 t ∧
         ∀ k, Get t k = match last_value k kvs with
                        | Some v => Ok v
                        | None => Get n k
                        end.
Proof.
  induction kvs as [|[k0 v0] kvs IH]; intros children c h n Hwf Hkeys; subst n.
  { eexists. by split_and!. }
  apply Forall_cons in Hkeys as [Hk0 Hkeys]. simpl in Hk0.
  destruct (Insert_spec children c h k0 v0 Hwf Hk0)
    as (children' & Hins & Hwf' & Hget & Hother).
  destruct (IH children' None None Hwf' Hkeys) as (t & Hall & Hwft & Hgets).
  simpl in Hins. exists t. cbn [insert_all]. rewrite Hins. simpl.
  split_and!; [done..|].
  intros k. rewrite Hgets. cbn [last_value].
  destruct (last_value k kvs); [done|].
  destruct (decide (k0 = k)) as [->|Hne]; [done|]. by apply Hother.
Qed.

End InsertGet.

(** C6: after any sequence of insertions of 32-byte keys into a fresh
    tree, every insertion having succeeded, [Get] of a key returns the
    value of the most recent insertion under that key, and fails with
    [errValueNotPresent], without a value, when the key was never
    inserted. *)
Theorem Get_after_Insert (tc : TreeConfig) (kvs : list (bytes * bytes)) (k : bytes) :
  (0 < width tc)%nat →
  Forall (λ kv, length kv.1 = 32%nat) kvs →
  ∃ t, insert_all (New tc) kvs = Ok t ∧
       Get t k = match last_value k kvs with
                 | Some v => Ok v
                 | None => Err errValueNotPresent
                 end.
Proof.
  intros Hw Hkeys.
  destruct (insert_all_spec tc Hw kvs (replicate (nodeWidth tc) None) None None)
    as (t & Hall & _ & Hget); [|done|].
  { apply (wf_newInternalNode tc 0). by apply Depth_pos. }
  exists t. split; [done|]. rewrite Hget.
  destruct (last_value k kvs); [done|]. by apply (Get_newInternalNode tc 0).
Qed.

(** * Scalars and their 32 bytes *)

Lemma modulus_range : 0 < modulus < 2 ^ 256.
Proof. by vm_compute. Qed.

Lemma le_to_Z_nonneg b : 0 ≤ le_to_Z b.
Proof. unfold le_to_Z. apply be_to_Z_range. Qed.

Lemma hashToFr_range h : 0 ≤ hashToFr h < modulus.
Proof. unfold hashToFr. apply Z.mod_pos_bound. apply modulus_range. Qed.

Lemma FrFrom32_range v x : FrFrom32 v = Some x → 0 ≤ x < modulus.
Proof.
  unfold FrFrom32. destruct (Z.ltb_spec (le_to_Z v) modulus); [|done].
  intros [= <-]. split; [apply le_to_Z_nonneg|done].
Qed.

Lemma FrFrom32_FrTo32 x : 0 ≤ x < modulus → FrFrom32 (FrTo32 x) = Some x.
Proof.
  intros Hx. pose proof modulus_range. unfold FrFrom32, FrTo32, le_to_Z.
  rewrite reverse_involutive, be_to_Z_be_bytes.
  change (256 ^ Z.of_nat 32) with (2 ^ 256).
  rewrite Z.mod_small by lia. by destruct (Z.ltb_spec x modulus); [|lia].
Qed.

(** * The order of keys *)

Lemma be_to_Z_acc b acc :
  fold_left (λ acc x, acc * 256 + bv x) b acc = acc * 256 ^ len b + be_to_Z b.
Proof.
  unfold be_to_Z. revert acc. induction b as [|x b IH]; intros acc.
  - simpl. change (len []) with 0. lia.
  - cbn [fold_left]. rewrite IH, (IH (0 * 256 + bv x)), len_cons.
    pose proof (len_nonneg b). rewrite Z.pow_add_r, Z.pow_1_r by lia. lia.
Qed.

Lemma be_to_Z_cons x b : be_to_Z (x :: b) = bv x * 256 ^ len b + be_to_Z b.
Proof. unfold be_to_Z at 1. simpl. apply be_to_Z_acc. Qed.

(** On keys of one length [bytes.Compare] is the order of the numbers
    they spell. *)
Lemma Compare_Lt_be a b :
  length a = length b → Compare a b = Lt → be_to_Z a < be_to_Z b.
Proof.
  revert b. induction a as [|x a IH]; intros [|y b] Hlen Hc; try done.
  simpl in Hlen, Hc. rewrite !be_to_Z_cons.
  assert (len a = len b) as Hl by (unfold len; lia). rewrite Hl.
  pose proof (be_to_Z_range a) as Ha. pose proof (be_to_Z_range b) as Hb.
  rewrite Hl in Ha.
  destruct (Z.compare_spec (bv x) (bv y)) as [Heq|Hlt|Hgt]; [| |done].
  - rewrite Heq. specialize (IH b ltac:(lia) Hc). lia.
  - nia.
Qed.

(** * The commitment of a tree grown in order *)

Section Ordered.
Context `{CurveLib}.
Variable lg1 : list G1Point.
Variable tc : TreeConfig.
Hypothesis width_pos : (0 < width tc)%nat.

Lemma Hash_internal children d :
  Hash lg1 (InternalNode children d None None tc) =
    hashToFr (sha256 (ToCompressedG1
                        (commitToPoly lg1 (childScalar lg1 <$> children)))).
Proof. reflexivity. Qed.

(** The hash of a node without a cached hash is a scalar. *)
Lemma Hash_range n :
  match n with InternalNode _ _ _ (Some _) _ => False | _ => True end →
  0 ≤ Hash lg1 n < modulus.
Proof.
  destruct n as [children d c [h|] tc'|k v|h]; intros Hh; [done|..]; cbn [Hash].
  - apply hashToFr_range.
  - apply hashToFr_range.
  - destruct (FrFrom32 h) as [x|] eqn:E; simpl.
    + by eapply FrFrom32_range.
    + pose proof modulus_range. lia.
Qed.

Lemma condense_scalar c :
  match c with Some (InternalNode _ _ _ (Some _) _) => False | _ => True end →
  childScalar lg1 (condense lg1 c) = childScalar lg1 c.
Proof.
  destruct c as [n|]; [|done]. intros Hc.
  assert (∀ m, 0 ≤ Hash lg1 m < modulus →
               Hash lg1 (HashedNode (FrTo32 (Hash lg1 m))) = Hash lg1 m) as Hh.
  { intros m Hr. change (Hash lg1 (HashedNode ?h)) with (default 0 (FrFrom32 h)).
    by rewrite FrFrom32_FrTo32. }
  destruct n as [children d c h tc'|k v|h]; [| |done]; unfold condense, childScalar.
  - apply Hh, Hash_range. by destruct h.
  - by apply Hh, Hash_range.
Qed.

Lemma condense_condensed c : is_condensed c → condense lg1 c = c.
Proof. by destruct c as [[| |]|]. Qed.

Lemma is_condensed_condense c : is_condensed (condense lg1 c).
Proof. by destruct c as [[| |]|]. Qed.

Lemma hash_left_lookup_lt i children j :
  (j < i)%nat → hash_left lg1 i children !! j = condense lg1 <$> children !! j.
Proof.
  intros Hj. unfold hash_left.
  destruct (decide (j < length children)%nat) as [Hl|Hl].
  - rewrite lookup_app_l by (rewrite length_fmap, length_take; lia).
    by rewrite list_lookup_fmap, lookup_take_lt.
  - rewrite (lookup_ge_None_2 children) by lia. simpl.
    apply lookup_ge_None_2.
    rewrite length_app, length_fmap, length_take, length_drop. lia.
Qed.

Lemma hash_left_lookup_ge i children j :
  (i ≤ j)%nat → hash_left lg1 i children !! j = children !! j.
Proof.
  intros Hj. unfold hash_left.
  destruct (decide (i ≤ length children)%nat) as [Hl|Hl].
  - rewrite lookup_app_r by (rewrite length_fmap, length_take; lia).
    rewrite length_fmap, length_take, lookup_drop. f_equal. lia.
  - rewrite (lookup_ge_None_2 children) by lia.
    apply lookup_ge_None_2.
    rewrite length_app, length_fmap, length_take, length_drop. lia.
Qed.

Lemma hash_left_length i children :
  length (hash_left lg1 i children) = length children.
Proof.
  unfold hash_left. rewrite length_app, length_fmap, length_take, length_drop. lia.
Qed.

Lemma existsb_occupied_drop (children : list (option VerkleNode)) i :
  (∀ j, (i < j)%nat → (j < length children)%nat → children !! j = Some None) →
  existsb occupied (drop (S i) children) = false.
Proof.
  intros Hr. destruct (existsb occupied (drop (S i) children)) eqn:E; [|done].
  apply existsb_exists in E as (c & Hin & Hc).
  apply list_elem_of_In, list_elem_of_lookup in Hin as [j Hj].
  rewrite lookup_drop in Hj.
  rewrite Hr in Hj; [by simplify_eq|lia|]. by apply lookup_lt_Some in Hj.
Qed.

(** The scalars of two nodes in the relation agree slot by slot. *)
Lemma Sim_sides_scalars i children' children c' c :
  Sim_sides lg1 tc i children' children →
  children' !! i = Some c' → children !! i = Some c →
  childScalar lg1 c' = childScalar lg1 c →
  childScalar lg1 <$> children' = childScalar lg1 <$> children.
Proof.
  intros (Hl' & Hl & Hleft & Hright) Hc' Hc Heq. apply list_eq. intros j.
  rewrite !list_lookup_fmap.
  destruct (lt_eq_lt_dec j i) as [[Hj| ->]|Hj].
  - destruct (Hleft j Hj) as (x' & x & -> & -> & _ & Hx). simpl. by f_equal.
  - rewrite Hc', Hc. simpl. by f_equal.
  - destruct (decide (j < nodeWidth tc)%nat) as [Hw|Hw].
    + by destruct (Hright j Hj Hw) as [-> ->].
    + by rewrite !lookup_ge_None_2 by lia.
Qed.

Lemma Sim_scalars lk d n' n :
  Sim lg1 tc lk d n' n →
  ∃ children' children,
    n' = InternalNode children' d None None tc ∧
    n = InternalNode children d None None tc ∧
    childScalar lg1 <$> children' = childScalar lg1 <$> children.
Proof.
  induction 1 as [d children' children v Hd Hs Hc' Hc
                 |d children' children m' m Hd Hs Hc' Hc HSim IH].
  - eexists _, _. split_and!; [done..|]. by eapply Sim_sides_scalars.
  - eexists _, _. split_and!; [done..|]. eapply Sim_sides_scalars; [done..|].
    destruct IH as (cs' & cs & -> & -> & Heq). unfold childScalar.
    by rewrite !Hash_internal, Heq.
Qed.

Lemma Sim_Hash lk d n' n : Sim lg1 tc lk d n' n → Hash lg1 n' = Hash lg1 n.
Proof.
  intros (cs' & cs & -> & -> & Heq)%Sim_scalars. by rewrite !Hash_internal, Heq.
Qed.

Lemma Sim_ComputeCommitment lk d n' n :
  Sim lg1 tc lk d n' n →
  ∃ c, ComputeCommitment lg1 n' = Ok c ∧ ComputeCommitment lg1 n = Ok c.
Proof.
  intros (cs' & cs & -> & -> & Heq)%Sim_scalars. simpl. rewrite Heq. eauto.
Qed.

(** What a node on the path of the last key gives: its sides, and in
    the slot of the key two children with the same hash, the first of
    which has no cached hash. *)
Lemma Sim_inv lk d n' n :
  Sim lg1 tc lk d n' n →
  ∃ children' children s' s,
    n' = InternalNode children' d None None tc ∧
    n = InternalNode children d None None tc ∧
    (d < Depth tc)%nat ∧
    Sim_sides lg1 tc (childIndex lk d tc) children' children ∧
    children' !! childIndex lk d tc = Some (Some s') ∧
    children !! childIndex lk d tc = Some (Some s) ∧
    Hash lg1 s' = Hash lg1 s ∧
    match s' with InternalNode _ _ _ (Some _) _ => False | _ => True end.
Proof.
  inversion 1 as [? children' children v Hd Hs Hc' Hc
                 |? children' children m' m Hd Hs Hc' Hc HSim]; subst.
  - by eexists _, _, _, _.
  - eexists _, _, _, _. split_and!; [done..|by eapply Sim_Hash|].
    by inversion HSim.
Qed.

(** The sides around the slot [i'] of a greater key, once the children
    to its left are condensed and the slot itself is replaced. *)
Lemma sides_step lk d children' children s' s i' x' x :
  Sim_sides lg1 tc (childIndex lk d tc) children' children →
  children' !! childIndex lk d tc = Some (Some s') →
  children !! childIndex lk d tc = Some (Some s) →
  Hash lg1 s' = Hash lg1 s →
  match s' with InternalNode _ _ _ (Some _) _ => False | _ => True end →
  (childIndex lk d tc ≤ i')%nat → (i' < nodeWidth tc)%nat →
  Sim_sides lg1 tc i' (<[i' := x']> (hash_left lg1 i' children'))
                      (<[i' := x]> children).
Proof.
  intros (Hl' & Hl & Hleft & Hright) Hs' Hs Hhash Hcache Hle Hi'.
  set (i := childIndex lk d tc) in *.
  split_and!.
  - by rewrite length_insert, hash_left_length.
  - by rewrite length_insert.
  - intros j Hj. rewrite !list_lookup_insert_ne by lia.
    rewrite hash_left_lookup_lt by done.
    destruct (lt_eq_lt_dec j i) as [[Hji| ->]|Hji].
    + destruct (Hleft j Hji) as (c' & c & -> & -> & Hc & Heq).
      exists c', c. simpl. by rewrite condense_condensed.
    + rewrite Hs', Hs. exists (condense lg1 (Some s')), (Some s).
      split_and!; [done|done|apply is_condensed_condense|].
      rewrite condense_scalar by done. done.
    + destruct (Hright j Hji ltac:(lia)) as [-> ->]. by exists None, None.
  - intros j Hj Hw. rewrite !list_lookup_insert_ne by lia.
    rewrite hash_left_lookup_ge by lia. apply Hright; lia.
Qed.

Lemma insert_rec_fresh fuel d k v :
  insert_rec (S fuel) (newInternalNode d tc) k v =
    Ok (InternalNode (<[childIndex k d tc := Some (LeafNode k v)]>
                        (replicate (nodeWidth tc) None)) d None None tc).
Proof.
  cbn [insert_rec newInternalNode].
  by rewrite lookup_replicate_2 by (by apply childIndex_lt).
Qed.

Lemma insertOrdered_rec_fresh fuel d k v :
  insertOrdered_rec lg1 (S fuel) (newInternalNode d tc) k v =
    Ok (InternalNode
          (<[childIndex k d tc := Some (LeafNode k v)]>
             (hash_left lg1 (childIndex k d tc) (replicate (nodeWidth tc) None)))
          d None None tc).
Proof.
  cbn [insertOrdered_rec newInternalNode].
  pose proof (childIndex_lt tc width_pos k d) as Hi.
  rewrite existsb_occupied_drop
    by (intros j _ Hj; rewrite length_replicate in Hj; by apply lookup_replicate_2).
  rewrite hash_left_lookup_ge by done.
  by rewrite lookup_replicate_2.
Qed.

Lemma Sim_fresh lk d v :
  (d < Depth tc)%nat →
  Sim lg1 tc lk d
    (InternalNode
       (<[childIndex lk d tc := Some (LeafNode lk v)]>
          (hash_left lg1 (childIndex lk d tc) (replicate (nodeWidth tc) None)))
       d None None tc)
    (InternalNode (<[childIndex lk d tc := Some (LeafNode lk v)]>
                     (replicate (nodeWidth tc) None)) d None None tc).
Proof.
  intros Hd. pose proof (childIndex_lt tc width_pos lk d) as Hi.
  eapply Sim_at_leaf; [done| |..].
  - split_and!.
    + by rewrite length_insert, hash_left_length, length_replicate.
    + by rewrite length_insert, length_replicate.
    + intros j Hj. rewrite !list_lookup_insert_ne by lia.
      rewrite hash_left_lookup_lt by done.
      rewrite lookup_replicate_2 by lia. by exists None, None.
    + intros j Hj Hw. rewrite !list_lookup_insert_ne by lia.
      rewrite hash_left_lookup_ge by lia. by rewrite lookup_replicate_2.
  - apply list_lookup_insert_eq. by rewrite hash_left_length, length_replicate.
  - apply list_lookup_insert_eq. by rewrite length_replicate.
Qed.

(** One ordered insertion against one plain insertion of the same,
    greater key: both succeed and the results are related again. *)
Lemma ordered_step fuel :
  ∀ d n' n lk key value,
    Sim lg1 tc lk d n' n →
    length lk = 32%nat → length key = 32%nat →
    be_to_Z lk < be_to_Z key →
    keyPrefix lk d tc = keyPrefix key d tc →
    (Depth tc - d ≤ fuel)%nat →
    ∃ m' m,
      insertOrdered_rec lg1 fuel n' key value = Ok m' ∧
      insert_rec fuel n key value = Ok m ∧
      Sim lg1 tc key d m' m.
Proof.
  induction fuel as [|fuel IH]; intros d n' n lk key value HSim Hlk Hkey Hlt Hp Hfuel.
  { apply Sim_inv in HSim as (? & ? & ? & ? & _ & _ & Hd & _). lia. }
  pose proof (Sim_inv _ _ _ _ HSim)
    as (children' & children & s' & s & -> & -> & Hd & Hsides & Hs' & Hs & Hhash & Hcache).
  pose proof (be_to_Z_range lk) as [Hlk0 _].
  pose proof (childIndex_mono tc width_pos lk key d ltac:(lia) Hp) as Hle.
  pose proof (childIndex_lt tc width_pos key d) as Hi'.
  set (i := childIndex lk d tc) in *. set (i' := childIndex key d tc) in *.
  pose proof Hsides as (Hl' & Hl & Hleft & Hright).
  assert (lk ≠ key) as Hne by (intros ->; lia).
  cbn [insertOrdered_rec insert_rec]. fold i'.
  rewrite existsb_occupied_drop
    by (intros j Hj Hjl; apply Hright; lia).
  rewrite hash_left_lookup_ge by done.
  assert (∀ x' x, Sim_sides lg1 tc i' (<[i' := x']> (hash_left lg1 i' children'))
                            (<[i' := x]> children)) as Hstep
    by (intros; by eapply sides_step).
  assert (∀ x', <[i' := x']> (hash_left lg1 i' children') !! i' = Some x') as Hin'
    by (intros; apply list_lookup_insert_eq; rewrite hash_left_length; lia).
  assert (∀ x, <[i' := x]> children !! i' = Some x) as Hin
    by (intros; apply list_lookup_insert_eq; lia).
  destruct (decide (i = i')) as [Heq|Hneq].
  - (* the slot of the last key *)
    assert (keyPrefix lk (S d) tc = keyPrefix key (S d) tc) as HpS.
    { apply keyPrefix_step; [done..|]. exact Heq. }
    inversion HSim as [? ? ? v _ _ Hc' Hc|? ? ? m0' m0 _ _ Hc' Hc HSim0]; subst;
      fold i in Hc', Hc; rewrite Hs' in Hc'; rewrite Hs in Hc; simplify_eq;
      rewrite Heq in Hs', Hs; rewrite Hs', Hs.
    + (* a leaf: split *)
      destruct (decide (lk = key)); [done|].
      assert (S d < Depth tc)%nat as HSd by by apply (split_depth tc width_pos lk key d).
      destruct (Nat.ltb_spec (Depth tc) (d + 1)) as [|_]; [lia|].
      replace (d + 1)%nat with (S d) by lia.
      destruct fuel as [|fuel]; [lia|].
      rewrite insertOrdered_rec_fresh, insert_rec_fresh, !ret_bind.
      destruct (IH (S d) _ _ lk key value (Sim_fresh lk (S d) v HSd))
        as (m' & m & -> & -> & HSim'); [done..|lia|].
      rewrite !ret_bind. eexists _, _. split_and!; [done..|].
      eapply Sim_at_node; [done|apply Hstep|apply Hin'|apply Hin|done].
    + (* an internal node: descend *)
      destruct (IH (S d) _ _ lk key value HSim0) as (m' & m & Hm' & Hm & HSim');
        [done..|lia|].
      apply Sim_inv in HSim0 as (? & ? & ? & ? & -> & -> & _).
      rewrite Hm', Hm, !ret_bind. eexists _, _. split_and!; [done..|].
      eapply Sim_at_node; [done|apply Hstep|apply Hin'|apply Hin|done].
  - (* a slot to the right *)
    destruct (Hright i' ltac:(lia) Hi') as [-> ->].
    eexists _, _. split_and!; [done..|].
    eapply Sim_at_leaf; [done|apply Hstep|apply Hin'|apply Hin].
Qed.

(** A sequence of increasing keys, inserted in order and inserted
    plainly into two related trees, gives two related trees. *)
Lemma ordered_all kvs :
  ∀ lk n' n,
    Sim lg1 tc lk 0 n' n → length lk = 32%nat →
    Forall (λ kv, length kv.1 = 32%nat) kvs →
    increasing ((lk, []) :: kvs) →
    ∃ m' m lk',
      insertOrdered_all lg1 n' kvs = Ok m' ∧ insert_all n kvs = Ok m ∧
      Sim lg1 tc lk' 0 m' m.
Proof.
  induction kvs as [|[k v] kvs IH]; intros lk n' n HSim Hlk Hkeys Hinc.
  { by exists n', n, lk. }
  apply Forall_cons in Hkeys as [Hk Hkeys]. simpl in Hk.
  destruct Hinc as [Hlt Hinc]. simpl in Hlt.
  apply Compare_Lt_be in Hlt; [|congruence].
  pose proof (Sim_inv _ _ _ _ HSim) as (cs' & cs & ? & ? & -> & -> & _).
  destruct (ordered_step (S (S (Depth tc))) 0 _ _ lk k v HSim)
    as (m' & m & Hm' & Hm & HSim'); [done|done|done| |lia|].
  { by rewrite !keyPrefix_0. }
  destruct (IH k m' m HSim' Hk Hkeys Hinc) as (t' & t & lk' & Ht' & Ht & HSim'').
  exists t', t, lk'. cbn [insertOrdered_all insert_all].
  unfold InsertOrdered, Insert, levels. simpl node_config. cbv iota.
  by rewrite Hm', Hm, !ret_bind.
Qed.

End Ordered.

(** C5: for every strictly increasing sequence of 32-byte keys with
    values, inserting them all with [InsertOrdered] and inserting them all
    with [Insert] both succeed, and [ComputeCommitment] gives the same
    root commitment for the two trees. *)
Theorem InsertOrdered_commitment `{CurveLib} (lg1 : list G1Point)
    (tc : TreeConfig) (kvs : list (bytes * bytes)) :
  (0 < width tc)%nat →
  Forall (λ kv, length kv.1 = 32%nat) kvs →
  increasing kvs →
  ∃ t' t c,
    insertOrdered_all lg1 (New tc) kvs = Ok t' ∧
    insert_all (New tc) kvs = Ok t ∧
    ComputeCommitment lg1 t' = Ok c ∧
    ComputeCommitment lg1 t = Ok c.
Proof.
  intros Hw Hkeys Hinc. destruct kvs as [|[k v] kvs].
  { eexists _, _, _. by split_and!. }
  apply Forall_cons in Hkeys as [Hk Hkeys]. simpl in Hk.
  pose proof (Sim_fresh lg1 tc Hw k 0 v (Depth_pos tc Hw)) as HSim.
  destruct (ordered_all lg1 tc Hw kvs k _ _ HSim Hk Hkeys) as (t' & t & lk & Ht' & Ht & HS).
  { destruct kvs; [done|]. exact Hinc. }
  destruct (Sim_ComputeCommitment lg1 tc Hw _ _ _ _ HS) as (c & Hc' & Hc).
  exists t', t, c. split_and!; [| |done..].
  - cbn [insertOrdered_all]. unfold InsertOrdered, New, levels. simpl node_config.
    cbv iota. by rewrite (insertOrdered_rec_fresh lg1 tc Hw), ret_bind.
  - cbn [insert_all]. unfold Insert, New, levels. simpl node_config.
    cbv iota. by rewrite (insert_rec_fresh tc Hw), ret_bind.
Qed.

(** C8: the hash to the field of the 32 bytes [c79e…e000] is the scalar
    that [FrFrom32] decodes from the same bytes. *)
Theorem hashToFr_trailing_zero :
  FrFrom32 trailing_zero_hash = Some (hashToFr trailing_zero_hash).
Proof. vm_compute. reflexivity. Qed.

Lemma Get_after_Insert_witness :
  (∃ t, insert_all (New tc10) two_leaves = Ok t ∧
        Get t zeroKeyTest = Ok testValue) ∧
  (∃ t, insert_all (New tc10) two_leaves = Ok t ∧
        Get t oneKeyTest = Err errValueNotPresent).
Proof.
  split.
  - destruct (Get_after_Insert tc10 two_leaves zeroKeyTest) as (t & Ht & Hg);
      [vm_compute; lia|repeat constructor|].
    exists t. split; [done|exact Hg].
  - destruct (Get_after_Insert tc10 two_leaves oneKeyTest) as (t & Ht & Hg);
      [vm_compute; lia|repeat constructor|].
    exists t. split; [done|exact Hg].
Defined.

Lemma InsertOrdered_commitment_witness :
  ∃ t' t c,
    insertOrdered_all (H := toy_lib) [] (New tc10) three_leaves = Ok t' ∧
    insert_all (New tc10) three_leaves = Ok t ∧
    ComputeCommitment (H := toy_lib) [] t' = Ok c ∧
    ComputeCommitment (H := toy_lib) [] t = Ok c.
Proof.
  apply (InsertOrdered_commitment (H := toy_lib) [] tc10 three_leaves).
  - vm_compute. lia.
  - repeat constructor.
  - vm_compute. done.
Defined.

(** * The reader on a longer input *)

Lemma readSize_app b slen s junk :
  1 ≤ slen → rlp.readSize b slen = Ok s → rlp.readSize (b ++ junk) slen = Ok s.
Proof.
  unfold rlp.readSize. intros Hs.
  destruct (Z.ltb_spec (len b) slen) as [|Hlen]; [done|].
  destruct (Z.ltb_spec (len (b ++ junk)) slen) as [Hlt|_].
  { rewrite len_app in Hlt. pose proof (len_nonneg junk). lia. }
  rewrite take_app_le by (unfold len in Hlen; lia).
  destruct b as [|b0 tl]; [unfold len in Hlen; simpl in Hlen; lia|]. done.
Qed.
Lemma readKind_app buf junk r :
  rlp.readKind buf = Ok r → rlp.readKind (buf ++ junk) = Ok r.
Proof.
  destruct buf as [|b0 tl]; [done|]. destruct r as [[k ts] cs].
  intros H0. revert H0. rewrite <- app_comm_cons. unfold rlp.readKind.
  pose proof (len_nonneg junk) as Hj. pose proof (bv_range b0) as Hb.
  pose proof (len_nonneg tl) as Htl.
  assert (len (b0 :: tl ++ junk) = len (b0 :: tl) + len junk) as Hl.
  { rewrite app_comm_cons. apply len_app. }
  assert (∀ (k' : rlp.Kind) ts' cs',
    (if len (b0 :: tl) - ts' <? cs' then Err ErrValueTooLarge else Ok (k', ts', cs'))
      = Ok (k, ts, cs) →
    (if len (b0 :: tl ++ junk) - ts' <? cs' then Err ErrValueTooLarge
     else Ok (k', ts', cs')) = Ok (k, ts, cs)) as Hfin.
  { intros k' ts' cs'. destruct (Z.ltb_spec (len (b0 :: tl) - ts') cs'); [done|].
    intros [= -> -> ->]. destruct (Z.ltb_spec (len (b0 :: tl ++ junk) - ts) cs); [lia|done]. }
  destruct (Z.ltb_spec (bv b0) 0x80).
  { rewrite !ret_bind. apply Hfin. }
  destruct (Z.ltb_spec (bv b0) 0xB8).
  { destruct (Z.eqb_spec (bv b0 - 0x80) 1) as [H1|H1]; simpl andb.
    - destruct tl as [|b1 tl].
      + rewrite andb_false_r, ret_bind, H1. by vm_compute.
      + simpl app. destruct (Z.ltb_spec 1 (len (b0 :: b1 :: tl ++ junk))) as [_|Hn].
        2:{ rewrite !len_cons in Hn. pose proof (len_nonneg (tl ++ junk)). lia. }
        destruct (Z.ltb_spec 1 (len (b0 :: b1 :: tl))) as [_|Hn].
        2:{ rewrite !len_cons in Hn. pose proof (len_nonneg tl). lia. }
        simpl andb. destruct (bv b1 <? 128); [done|]. rewrite !ret_bind. apply Hfin.
    - apply Hfin. }
  assert (∀ (k' : rlp.Kind) slen,
    1 ≤ slen →
    (rlp.readSize tl slen ≫= (λ contentsize, Ok (k', slen + 1, contentsize)))
      ≫= (λ '(k0, tagsize, contentsize),
            if len (b0 :: tl) - tagsize <? contentsize then Err ErrValueTooLarge
            else Ok (k0, tagsize, contentsize)) = Ok (k, ts, cs) →
    (rlp.readSize (tl ++ junk) slen ≫= (λ contentsize, Ok (k', slen + 1, contentsize)))
      ≫= (λ '(k0, tagsize, contentsize),
            if len (b0 :: tl ++ junk) - tagsize <? contentsize then Err ErrValueTooLarge
            else Ok (k0, tagsize, contentsize)) = Ok (k, ts, cs)) as Hlong.
  { intros k' slen Hslen. destruct (rlp.readSize tl slen) as [s| |] eqn:Hrs; [|done..].
    rewrite (readSize_app _ _ _ junk Hslen Hrs), !ret_bind. apply Hfin. }
  destruct (Z.ltb_spec (bv b0) 0xC0).
  { apply Hlong. lia. }
  destruct (Z.ltb_spec (bv b0) 0xF8).
  { rewrite !ret_bind. apply Hfin. }
  apply Hlong. lia.
Qed.

Lemma Split_app b junk k content rest :
  rlp.Split b = Ok (k, content, rest) →
  rlp.Split (b ++ junk) = Ok (k, content, rest ++ junk).
Proof.
  intros (ts & cs & Hk & -> & -> & _)%Split_Ok.
  pose proof (readKind_Ok _ _ _ _ Hk) as (Hts & Hcs & _ & Hle).
  unfold rlp.Split. rewrite (readKind_app _ junk _ Hk), ret_bind.
  unfold len in Hle.
  rewrite !drop_app_le by lia.
  rewrite take_app_le; [done|]. rewrite length_drop. lia.
Qed.

Lemma SplitList_app b junk content rest :
  rlp.SplitList b = Ok (content, rest) →
  rlp.SplitList (b ++ junk) = Ok (content, rest ++ junk).
Proof.
  intros H%SplitList_Ok. apply SplitList_Ok. by apply Split_app.
Qed.

Lemma SplitString_app b junk content rest :
  rlp.SplitString b = Ok (content, rest) →
  rlp.SplitString (b ++ junk) = Ok (content, rest ++ junk).
Proof.
  unfold rlp.SplitString. destruct (rlp.Split b) as [[[k c] r]| |] eqn:Hs; [|done..].
  rewrite (Split_app _ junk _ _ _ Hs), !ret_bind.
  destruct (decide _); [done|]. by intros [= -> ->].
Qed.
Lemma parseLeafNode_app raw junk n :
  parseLeafNode raw = Ok n → parseLeafNode (raw ++ junk) = Ok n.
Proof.
  unfold parseLeafNode.
  intros ([key rest] & Hk & ([value r2] & Hv & Hn)%bind_Ok)%bind_Ok.
  by rewrite (SplitString_app _ junk _ _ Hk), ret_bind,
    (SplitString_app _ junk _ _ Hv), ret_bind.
Qed.

Lemma parseHashedNode_app raw junk n :
  parseHashedNode raw = Ok n → parseHashedNode (raw ++ junk) = Ok n.
Proof.
  unfold parseHashedNode. intros ([h rest] & Hh & Hn)%bind_Ok.
  by rewrite (SplitString_app _ junk _ _ Hh), ret_bind.
Qed.

Lemma createInternalNode_loop_app indices :
  ∀ raw junk children children',
    createInternalNode_loop indices raw children = Ok children' →
    createInternalNode_loop indices (raw ++ junk) children = Ok children'.
Proof.
  induction indices as [|index indices IH]; intros raw junk children children'; [done|].
  rewrite !createInternalNode_loop_cons.
  intros ([el rest] & Hs & (c & Hc & Hl)%bind_Ok)%bind_Ok.
  rewrite (SplitList_app _ junk _ _ Hs), ret_bind, Hc, ret_bind. by apply IH.
Qed.

(** X1: what follows the list at the start of the input never matters:
    once the input starts with a list, [ParseNode] gives the same
    outcome, node or error, with any bytes appended. *)
Theorem ParseNode_trailing_bytes (s junk : bytes) (tc : TreeConfig)
    (elems rest : bytes) :
  rlp.SplitList s = Ok (elems, rest) →
  ParseNode (s ++ junk) tc = ParseNode s tc.
Proof.
  intros Hs. unfold ParseNode.
  by rewrite (SplitList_app _ junk _ _ Hs), Hs, !ret_bind.
Qed.

Lemma ParseNode_trailing_bytes_witness :
  ParseNode (enc_leaf ++ [Byte.xff; Byte.x00]) tc10
  = Ok (LeafNode zeroKeyTest testValue).
Proof.
  rewrite (ParseNode_trailing_bytes enc_leaf [Byte.xff; Byte.x00] tc10 leaf_content []).
  - vm_compute. reflexivity.
  - vm_compute. reflexivity.
Defined.

(** X2: the children list may hold more than the bitmap asks for: when
    [createInternalNode] returns a node, it returns the same node with
    any bytes appended to the children. *)
Theorem createInternalNode_surplus (bitlist raw junk : bytes) (tc : TreeConfig)
    (n : VerkleNode) :
  createInternalNode bitlist raw tc = Ok n →
  createInternalNode bitlist (raw ++ junk) tc = Ok n.
Proof.
  rewrite !createInternalNode_unfold. intros (children & Hl & Hn)%bind_Ok.
  by rewrite (createInternalNode_loop_app _ _ junk _ _ Hl), ret_bind.
Qed.

Lemma createInternalNode_surplus_witness :
  createInternalNode bitmap_0 (enc_hashed ++ enc_leaf) tc10
  = Ok (InternalNode (<[0%nat := Some (HashedNode sample_hash)]> (replicate 1024 None))
          0 None None tc10).
Proof.
  apply (createInternalNode_surplus bitmap_0 enc_hashed enc_leaf tc10).
  vm_compute. reflexivity.
Defined.

(** X3: [parseLeafNode] reads two byte strings and [parseHashedNode] one
    from the front of the input: a node that either returns is returned
    again with any bytes appended to the input. *)
Theorem parse_child_reads_prefix :
  (∀ raw junk n, parseLeafNode raw = Ok n → parseLeafNode (raw ++ junk) = Ok n) ∧
  (∀ raw junk n, parseHashedNode raw = Ok n → parseHashedNode (raw ++ junk) = Ok n).
Proof. split; [apply parseLeafNode_app|apply parseHashedNode_app]. Qed.

Lemma parse_child_reads_prefix_witness :
  parseLeafNode (leaf_content ++ [Byte.xc0]) = Ok (LeafNode zeroKeyTest testValue) ∧
  parseHashedNode (hashed_content ++ leaf_content) = Ok (HashedNode sample_hash).
Proof.
  split.
  - apply (proj1 parse_child_reads_prefix leaf_content [Byte.xc0]).
    vm_compute. reflexivity.
  - apply (proj2 parse_child_reads_prefix hashed_content leaf_content).
    vm_compute. reflexivity.
Defined.
(** * Too few children, no children, slots out of range *)

Lemma SplitList_nil : rlp.SplitList [] = Err ErrUnexpectedEOF.
Proof. done. Qed.

Lemma createInternalNode_loop_short els :
  ∀ indices raw cs children,
    lists_exactly raw els → Forall2 child_of els cs →
    (length els < length indices)%nat →
    (∀ i, i ∈ indices → (i < length children)%nat) →
    createInternalNode_loop indices raw children = Err ErrUnexpectedEOF.
Proof.
  unfold lists_exactly.
  induction els as [|el els IH]; intros indices raw cs children Hv Hc Hlen Hin.
  - apply has_values_nil_inv in Hv as ->.
    destruct indices as [|index indices]; [simpl in Hlen; lia|].
    by rewrite createInternalNode_loop_cons, SplitList_nil.
  - destruct indices as [|index indices]; [simpl in Hlen; lia|].
    rewrite fmap_cons in Hv. apply has_values_cons_inv in Hv as (rest & Hs & Hv).
    apply Forall2_cons_inv_l in Hc as (oc & cs' & Hoc & Hc & ->).
    rewrite createInternalNode_loop_cons.
    apply SplitList_Ok in Hs. rewrite Hs, ret_bind.
    rewrite (child_turn _ _ _ _ Hoc) by (apply Hin; left).
    rewrite ret_bind. apply (IH _ _ cs'); [done..|simpl in Hlen; lia|].
    intros i Hi. assert (i < length children)%nat by (apply Hin; by right).
    destruct oc; [by rewrite length_insert|done].
Qed.

(** X4: when the children list holds fewer children than the bitmap has
    set bits, all of them encoded leaves and hashed nodes and nothing
    behind them, [createInternalNode] fails with [io.ErrUnexpectedEOF]. *)
Theorem createInternalNode_too_few_children (bitlist raw : bytes)
    (tc : TreeConfig) (els : list bytes) (cs : list (option VerkleNode)) :
  (8 * length bitlist ≤ nodeWidth tc)%nat →
  lists_exactly raw els → Forall2 child_of els cs →
  (length els < length (indicesFromBitlist bitlist))%nat →
  createInternalNode bitlist raw tc = Err ErrUnexpectedEOF.
Proof.
  intros Hw Hv Hc Hlen. rewrite createInternalNode_unfold.
  rewrite (createInternalNode_loop_short els _ _ cs); [done..|].
  intros i. by apply indices_in_range.
Qed.

Lemma createInternalNode_too_few_children_witness :
  createInternalNode bitmap_0_9 enc_hashed tc10 = Err ErrUnexpectedEOF.
Proof.
  apply (createInternalNode_too_few_children bitmap_0_9 enc_hashed tc10
           [hashed_content] [Some (HashedNode sample_hash)]).
  - vm_compute. lia.
  - unfold lists_exactly. values_by_computation.
  - constructor; [|constructor].
    apply (child_hashed hashed_content rlp.String sample_hash); [|done].
    values_by_computation.
  - vm_compute. lia.
Defined.
Lemma byte_some_bit b :
  bv b ≠ 0 → ∃ j, (j < 8)%nat ∧ Z.testbit (bv b) (Z.of_nat j) = true.
Proof.
  intros Hb.
  assert (existsb (λ j, Z.testbit (bv b) (Z.of_nat j)) (seq 0 8) = true) as He.
  { destruct b; first [by vm_compute | by exfalso; apply Hb; vm_compute]. }
  apply existsb_exists in He as (j & Hj & Ht). exists j. split; [|done].
  apply in_seq in Hj. lia.
Qed.

Lemma indicesFromBitlist_nil bitlist :
  indicesFromBitlist bitlist = [] ↔ Forall (λ b, bv b = 0) bitlist.
Proof.
  split.
  - intros Hnil. apply Forall_lookup_2. intros i b Hb.
    destruct (decide (bv b = 0)) as [|Hne]; [done|].
    destruct (byte_some_bit b Hne) as (j & Hj & Ht).
    assert ((8 * i + j)%nat ∈ indicesFromBitlist bitlist) as Hel.
    { apply indicesFromBitlist_spec. by exists i, j, b. }
    rewrite Hnil in Hel. by apply elem_of_nil in Hel.
  - intros Hz. destruct (indicesFromBitlist bitlist) as [|slot l] eqn:E; [done|].
    assert (slot ∈ indicesFromBitlist bitlist) as Hel by (rewrite E; left).
    apply indicesFromBitlist_spec in Hel as (i & j & b & Hb & _ & Ht & _).
    rewrite (Forall_lookup_1 _ _ _ _ Hz Hb) in Ht. by rewrite Z.testbit_0_l in Ht.
Qed.

(** X5: an encoded internal node whose bitmap is all zero parses to the
    empty node, whatever its children list holds and whatever the
    configuration: the children are never read. *)
Theorem ParseNode_zero_bitmap (s : bytes) (tc : TreeConfig) (bitlist raw : bytes) :
  list_of s [(rlp.String, bitlist); (rlp.List, raw)] →
  length bitlist = 128%nat →
  Forall (λ b, bv b = 0) bitlist →
  ParseNode s tc = Ok (newInternalNode 0 tc).
Proof.
  intros Hl Hlen Hz. rewrite (ParseNode_two _ _ _ _ _ _ Hl).
  destruct (decide (_ ≠ _)); [done|]. rewrite Hlen. simpl.
  rewrite createInternalNode_unfold.
  apply indicesFromBitlist_nil in Hz. by rewrite Hz.
Qed.

Lemma ParseNode_zero_bitmap_witness :
  ParseNode enc_internal_zero_junk tc8 = Ok (newInternalNode 0 tc8).
Proof.
  apply (ParseNode_zero_bitmap enc_internal_zero_junk tc8
           (replicate 128 Byte.x00) [Byte.xff]).
  - list_of_by_computation.
  - reflexivity.
  - by apply Forall_replicate.
Defined.

Lemma createInternalNode_not_Panic bitlist raw tc :
  (8 * length bitlist ≤ nodeWidth tc)%nat →
  createInternalNode bitlist raw tc ≠ Panic.
Proof.
  intros Hw. rewrite createInternalNode_unfold.
  pose proof (createInternalNode_loop_total (indicesFromBitlist bitlist) raw
                (replicate (nodeWidth tc) None)) as Ht.
  destruct (createInternalNode_loop _ _ _); [done..|].
  exfalso. apply Ht. intros i. by apply indices_in_range.
Qed.

(** X6: with a configuration of at least 1024 slots [ParseNode] never
    panics: for every input it returns a node or an error. *)
Theorem ParseNode_never_panics (s : bytes) (tc : TreeConfig) :
  (1024 ≤ nodeWidth tc)%nat → ParseNode s tc ≠ Panic.
Proof.
  intros Hw. unfold ParseNode.
  destruct (rlp.SplitList s) as [[elems rest]| |] eqn:Hs; [|done|].
  2:{ exfalso. revert Hs. unfold rlp.SplitList.
      pose proof (Split_not_Panic s).
      destruct (rlp.Split s) as [[[k c] r]| |]; [|done..].
      rewrite ret_bind. by destruct (decide _). }
  rewrite ret_bind.
  pose proof (CountValues_not_Panic elems).
  destruct (rlp.CountValues elems) as [c| |]; [|done..]. rewrite ret_bind.
  destruct (c =? 1); [apply parseHashedNode_not_Panic|].
  destruct (c =? 2); [|done].
  pose proof (Split_not_Panic elems).
  destruct (rlp.Split elems) as [[[kind first] rest']| |]; [|done..].
  rewrite ret_bind. destruct (decide _); [done|].
  destruct (length first =? 32)%nat.
  { pose proof (SplitString_not_Panic rest').
    destruct (rlp.SplitString rest') as [[value r]| |]; done. }
  destruct (Nat.eqb_spec (length first) 128) as [Hlen|]; [|done].
  destruct (rlp.SplitList rest') as [[children r]| |] eqn:Hs'; [|done|].
  2:{ exfalso. revert Hs'. unfold rlp.SplitList.
      pose proof (Split_not_Panic rest').
      destruct (rlp.Split rest') as [[[k c'] r]| |]; [|done..].
      rewrite ret_bind. by destruct (decide _). }
  rewrite ret_bind. apply createInternalNode_not_Panic. lia.
Qed.

Lemma ParseNode_never_panics_witness :
  ParseNode enc_internal_missing tc10 ≠ Panic.
Proof.
  apply (ParseNode_never_panics enc_internal_missing tc10).
  vm_compute. lia.
Defined.

Lemma createInternalNode_loop_Panic pre :
  ∀ raw els cs el c idx post children,
    starts_with_lists raw (els ++ [el]) →
    Forall2 child_of els cs → child_of el (Some c) →
    length els = length pre →
    (∀ i, i ∈ pre → (i < length children)%nat) →
    (length children ≤ idx)%nat →
    createInternalNode_loop (pre ++ idx :: post) raw children = Panic.
Proof.
  induction pre as [|index pre IH];
    intros raw els cs el c idx post children Hs Hc Hel Hlen Hin Hout.
  - destruct els; [|done]. simpl in Hs. inversion Hs as [|? ? rest ? Hsp _]; subst.
    simpl app. rewrite createInternalNode_loop_cons, Hsp, ret_bind.
    assert (turn el children idx = Panic) as ->; [|done].
    unfold turn. inversion Hel as [? k h Hv Hk|? k1 key k2 value Hv Hk1 Hk2|]; subst.
    + rewrite (CountValues_values _ _ Hv), ret_bind. simpl.
      rewrite (parseHashedNode_values _ _ _ Hv).
      destruct (decide _); [done|]. rewrite ret_bind. unfold set_child.
      by destruct (Nat.ltb_spec idx (length children)); [lia|].
    + rewrite (CountValues_values _ _ Hv), ret_bind. simpl.
      rewrite (parseLeafNode_values _ _ _ _ _ Hv).
      do 2 (destruct (decide _); [done|]). rewrite ret_bind. unfold set_child.
      by destruct (Nat.ltb_spec idx (length children)); [lia|].
  - destruct els as [|el0 els]; [done|]. simpl in Hs.
    inversion Hs as [|? ? rest ? Hsp Hs']; subst.
    apply Forall2_cons_inv_l in Hc as (oc & cs' & Hoc & Hc & ->).
    simpl app. rewrite createInternalNode_loop_cons, Hsp, ret_bind.
    rewrite (child_turn _ _ _ _ Hoc) by (apply Hin; left).
    rewrite ret_bind.
    assert (length (match oc with
                    | Some c0 => <[index:=Some c0]> children
                    | None => children
                    end) = length children) as Hl.
    { destruct oc; [by rewrite length_insert|done]. }
    apply (IH _ els cs' el c); try done; rewrite ?Hl; try done.
    + by injection Hlen.
    + intros i Hi. apply Hin. by right.
Qed.

(** X7: with a configuration of fewer slots than the bitmap can name, a
    set bit at or beyond the number of slots makes [createInternalNode]
    panic (index out of range) as soon as its child, a leaf or a hashed
    node, is to be stored, the children before it having been stored. *)
Theorem createInternalNode_index_out_of_range (bitlist raw : bytes)
    (tc : TreeConfig) (pre : list nat) (idx : nat) (post : list nat)
    (els : list bytes) (cs : list (option VerkleNode)) (el : bytes)
    (c : VerkleNode) :
  indicesFromBitlist bitlist = pre ++ idx :: post →
  (∀ i, i ∈ pre → (i < nodeWidth tc)%nat) →
  (nodeWidth tc ≤ idx)%nat →
  starts_with_lists raw (els ++ [el]) →
  length els = length pre →
  Forall2 child_of els cs → child_of el (Some c) →
  createInternalNode bitlist raw tc = Panic.
Proof.
  intros Hi Hpre Hidx Hs Hlen Hc Hel. rewrite createInternalNode_unfold, Hi.
  rewrite (createInternalNode_loop_Panic pre raw els cs el c); try done.
  - intros i Hin. rewrite length_replicate. by apply Hpre.
  - by rewrite length_replicate.
Qed.

Lemma createInternalNode_index_out_of_range_witness :
  createInternalNode bitmap_256 enc_hashed tc8 = Panic.
Proof.
  apply (createInternalNode_index_out_of_range bitmap_256 enc_hashed tc8
           [] 256 [] [] [] hashed_content (HashedNode sample_hash)).
  - vm_compute. reflexivity.
  - intros i Hi. by apply elem_of_nil in Hi.
  - vm_compute. lia.
  - lists_by_computation.
  - reflexivity.
  - constructor.
  - apply (child_hashed hashed_content rlp.String sample_hash); [|done].
    values_by_computation.
Defined.
(** * Which error *)

Lemma ParseNode_count s tc vs :
  list_of s vs → length vs ≠ 1%nat → length vs ≠ 2%nat →
  ParseNode s tc = Err ErrInvalidNodeEncoding.
Proof.
  intros (content & rest & Hs & Hv) H1 H2. unfold ParseNode.
  rewrite Hs, ret_bind, (CountValues_values _ _ Hv), ret_bind.
  destruct (Z.eqb_spec (len vs) 1); [unfold len in *; lia|].
  destruct (Z.eqb_spec (len vs) 2); [unfold len in *; lia|]. done.
Qed.

(** X8: the error [ParseNode] returns for an input it refuses:
    [io.ErrUnexpectedEOF] for the empty input, [rlp.ErrExpectedList] for
    an input that does not start with a list, [ErrInvalidNodeEncoding]
    for a list of no or more than two elements and for a two-element
    list whose first element is not a byte string of 32 or 128 bytes,
    [rlp.ErrExpectedString] for a list as the only element or as the
    value behind a 32-byte key, [rlp.ErrExpectedList] for a byte string
    behind a 128-byte bitmap. *)
Theorem ParseNode_errors (tc : TreeConfig) :
  ParseNode [] tc = Err ErrUnexpectedEOF ∧
  (∀ s k content rest,
     rlp.Split s = Ok (k, content, rest) → k ≠ rlp.List →
     ParseNode s tc = Err ErrExpectedList) ∧
  (∀ s vs,
     list_of s vs → length vs ≠ 1%nat → length vs ≠ 2%nat →
     ParseNode s tc = Err ErrInvalidNodeEncoding) ∧
  (∀ s k1 first k2 second,
     list_of s [(k1, first); (k2, second)] →
     k1 ≠ rlp.String ∨ (length first ≠ 32%nat ∧ length first ≠ 128%nat) →
     ParseNode s tc = Err ErrInvalidNodeEncoding) ∧
  (∀ s h, list_of s [(rlp.List, h)] → ParseNode s tc = Err ErrExpectedString) ∧
  (∀ s key second,
     list_of s [(rlp.String, key); (rlp.List, second)] → length key = 32%nat →
     ParseNode s tc = Err ErrExpectedString) ∧
  (∀ s bitlist k2 second,
     list_of s [(rlp.String, bitlist); (k2, second)] →
     length bitlist = 128%nat → k2 ≠ rlp.List →
     ParseNode s tc = Err ErrExpectedList).
Proof.
  split_and!.
  - done.
  - intros s k content rest Hs Hk. unfold ParseNode, rlp.SplitList.
    rewrite Hs, ret_bind. by destruct (decide _).
  - intros s vs. apply ParseNode_count.
  - intros s k1 first k2 second Hl Hor. rewrite (ParseNode_two _ _ _ _ _ _ Hl).
    destruct (decide _) as [|Hk]; [done|]. destruct Hor as [|[H32 H128]]; [done|].
    destruct (Nat.eqb_spec (length first) 32); [done|].
    by destruct (Nat.eqb_spec (length first) 128).
  - intros s h Hl. rewrite (ParseNode_one _ _ _ _ Hl). by destruct (decide _).
  - intros s key second Hl Hlen. rewrite (ParseNode_two _ _ _ _ _ _ Hl).
    destruct (decide _); [done|]. by rewrite Hlen.
  - intros s bitlist k2 second Hl Hlen Hk. rewrite (ParseNode_two _ _ _ _ _ _ Hl).
    destruct (decide _); [done|]. rewrite Hlen. simpl. by destruct (decide _).
Qed.

Lemma ParseNode_errors_witness :
  ParseNode leaf_content tc10 = Err ErrExpectedList ∧
  ParseNode [Byte.xc0] tc10 = Err ErrInvalidNodeEncoding ∧
  ParseNode enc_nested_one tc10 = Err ErrExpectedString ∧
  ParseNode enc_key_list tc10 = Err ErrExpectedString.
Proof.
  destruct (ParseNode_errors tc10) as (_ & Hstr & Hcount & _ & Hone & Hkey & _).
  split_and!.
  - apply (Hstr leaf_content rlp.String zeroKeyTest ([Byte.x85] ++ testValue)).
    + vm_compute. reflexivity.
    + done.
  - apply (Hcount [Byte.xc0] []); [list_of_by_computation|done..].
  - apply (Hone enc_nested_one []). list_of_by_computation.
  - apply (Hkey enc_key_list zeroKeyTest []); [list_of_by_computation|reflexivity].
Defined.
(** * The bitmap, byte by byte *)

Lemma flat_map_fmap {A} (f : nat → nat) (g g' : A → list nat) (l : list A) :
  (∀ x, g' x = f <$> g x) → flat_map g' l = f <$> flat_map g l.
Proof.
  intros Hg. induction l as [|x l IH]; [done|].
  simpl. by rewrite fmap_app, Hg, IH.
Qed.

Lemma byte_indices_shift i k b :
  byte_indices (k + i) b = (λ n, 8 * k + n)%nat <$> byte_indices i b.
Proof.
  unfold byte_indices. apply flat_map_fmap. intros j.
  destruct (_ =? _); [|done]. simpl. f_equal. lia.
Qed.

Lemma indices_from_shift i k bitlist :
  indices_from (k + i) bitlist = (λ n, 8 * k + n)%nat <$> indices_from i bitlist.
Proof.
  revert i. induction bitlist as [|b tl IH]; intros i; [done|].
  simpl. rewrite fmap_app. f_equal.
  - destruct (_ =? _); [done|]. apply byte_indices_shift.
  - rewrite <- IH. f_equal. lia.
Qed.

Lemma indices_from_app i a b :
  indices_from i (a ++ b) = indices_from i a ++ indices_from (length a + i) b.
Proof.
  revert i. induction a as [|x a IH]; intros i; [done|].
  simpl. rewrite <- app_assoc. f_equal. rewrite IH. do 2 f_equal. lia.
Qed.

(** X9: the indices of a bitmap made of two pieces are the indices of
    the first piece followed by those of the second, each moved up by
    eight times the number of bytes of the first. *)
Theorem indicesFromBitlist_app (a b : bytes) :
  indicesFromBitlist (a ++ b)
  = indicesFromBitlist a ++ ((λ n, 8 * length a + n)%nat <$> indicesFromBitlist b).
Proof.
  unfold indicesFromBitlist. rewrite indices_from_app. f_equal.
  apply indices_from_shift.
Qed.

(** * What a result looks like *)

Lemma parseHashedNode_hash el n :
  parseHashedNode el = Ok n → ∃ h, n = HashedNode (BytesToHash h).
Proof.
  unfold parseHashedNode. intros ([h rest] & _ & [= <-])%bind_Ok. by exists h.
Qed.

Lemma turn_Ok el children index children' :
  turn el children index = Ok children' →
  children' = children ∨
  ∃ c, children' = <[index := Some c]> children ∧ (index < length children)%nat ∧
       parsed_slot (Some c).
Proof.
  unfold turn. intros (c & _ & H)%bind_Ok. revert H.
  assert (∀ c0, parsed_slot (Some c0) →
            set_child children index c0 = Ok children' →
            ∃ c1, children' = <[index := Some c1]> children ∧
                  (index < length children)%nat ∧ parsed_slot (Some c1)) as Hset.
  { intros c0 Hc0. unfold set_child.
    destruct (Nat.ltb_spec index (length children)); [|done].
    intros [= <-]. by exists c0. }
  destruct (c =? 1).
  { intros (n & (h & ->)%parseHashedNode_hash & Hs)%bind_Ok. right.
    apply (Hset (HashedNode (BytesToHash h))); [|done]. apply BytesToHash_length. }
  destruct (c =? 2).
  { intros (n & (key & value & ->)%parseLeafNode_Ok & Hs)%bind_Ok. right.
    by apply (Hset (LeafNode key value)). }
  intros [= <-]. by left.
Qed.

Lemma createInternalNode_loop_Ok indices :
  ∀ raw children children',
    createInternalNode_loop indices raw children = Ok children' →
    length children' = length children ∧
    (Forall parsed_slot children → Forall parsed_slot children') ∧
    (∀ slot, slot ∉ indices → children' !! slot = children !! slot).
Proof.
  induction indices as [|index indices IH]; intros raw children children'.
  { by intros [= <-]. }
  rewrite createInternalNode_loop_cons.
  intros ([el rest] & _ & (children1 & Ht & Hl)%bind_Ok)%bind_Ok.
  destruct (IH _ _ _ Hl) as (Hlen & HF & Hout).
  apply turn_Ok in Ht as [->|(c & -> & Hlt & Hc)].
  - split_and!; [done..|]. intros slot [_ Hs]%not_elem_of_cons. by apply Hout.
  - rewrite length_insert in Hlen. split_and!; [done| |].
    + intros HFc. apply HF. apply Forall_insert; done.
    + intros slot [Hne Hs]%not_elem_of_cons. rewrite (Hout _ Hs).
      by apply list_lookup_insert_ne.
Qed.

(** X10: every node that [ParseNode] returns is well formed: a leaf has a
    key of 32 bytes, a hashed node a hash of 32 bytes, and an internal
    node has depth 0, no cached commitment or hash, the configuration
    that was passed, as many slots as the configuration says, and in
    every slot nothing, a leaf, or a hashed node with a hash of 32
    bytes. *)
Theorem ParseNode_well_formed (s : bytes) (tc : TreeConfig) (n : VerkleNode) :
  ParseNode s tc = Ok n → parsed_node tc n.
Proof.
  unfold ParseNode.
  intros ([elems rest] & _ & (c & _ & H)%bind_Ok)%bind_Ok. revert H.
  destruct (c =? 1).
  { intros (h & ->)%parseHashedNode_hash. apply BytesToHash_length. }
  destruct (c =? 2); [|done].
  intros ([[kind first] rest'] & _ & H)%bind_Ok. revert H.
  destruct (decide _); [done|].
  destruct (Nat.eqb_spec (length first) 32) as [Hlen|_].
  { by intros ([value r] & _ & [= <-])%bind_Ok. }
  destruct (length first =? 128)%nat; [|done].
  intros ([children r] & _ & H)%bind_Ok. revert H.
  rewrite createInternalNode_unfold.
  intros (children' & (Hlen & HF & _)%createInternalNode_loop_Ok & [= <-])%bind_Ok.
  rewrite length_replicate in Hlen. split_and!; try done.
  apply HF. by apply Forall_replicate.
Qed.

Lemma ParseNode_well_formed_witness :
  parsed_node tc10
    (InternalNode (<[9%nat := Some (LeafNode zeroKeyTest testValue)]>
                     (replicate 1024 None)) 0 None None tc10).
Proof.
  apply (ParseNode_well_formed enc_internal_three tc10).
  vm_compute. reflexivity.
Defined.

(** X11: [createInternalNode] fills no slot that the bitmap does not
    name: in the node it returns, for any children list, an occupied
    slot is the slot [8*i + j] of a set bit [j] of a byte [i] of the
    bitmap. *)
Theorem createInternalNode_occupied (bitlist raw : bytes) (tc : TreeConfig)
    (children : list (option VerkleNode)) (depth : nat)
    (commitment : option G1Point) (hash : option Fr) (tc' : TreeConfig)
    (slot : nat) (child : VerkleNode) :
  createInternalNode bitlist raw tc
  = Ok (InternalNode children depth commitment hash tc') →
  children !! slot = Some (Some child) →
  ∃ i j b, bitlist !! i = Some b ∧ (j < 8)%nat ∧
           Z.testbit (bv b) (Z.of_nat j) = true ∧ slot = (8 * i + j)%nat.
Proof.
  rewrite createInternalNode_unfold.
  intros (children' & (_ & _ & Hout)%createInternalNode_loop_Ok & [= <- _ _ _ _])%bind_Ok.
  intros Hslot. apply indicesFromBitlist_spec.
  destruct (decide (slot ∈ indicesFromBitlist bitlist)) as [|Hn]; [done|].
  rewrite (Hout _ Hn) in Hslot. apply lookup_replicate in Hslot as [? _]. done.
Qed.

Lemma createInternalNode_occupied_witness :
  ∃ i j b, bitmap_0_9 !! i = Some b ∧ (j < 8)%nat ∧
           Z.testbit (bv b) (Z.of_nat j) = true ∧ 9%nat = (8 * i + j)%nat.
Proof.
  apply (createInternalNode_occupied bitmap_0_9 raw_three_leaf tc10
           (<[9%nat := Some (LeafNode zeroKeyTest testValue)]> (replicate 1024 None))
           0 None None tc10 9 (LeafNode zeroKeyTest testValue)).
  - vm_compute. reflexivity.
  - vm_compute. reflexivity.
Defined.

(** X12: the configuration only matters for internal nodes: a leaf or a
    hashed node that [ParseNode] returns under one configuration it
    returns under every other. *)
Theorem ParseNode_config (s : bytes) (tc1 tc2 : TreeConfig) (n : VerkleNode) :
  ParseNode s tc1 = Ok n → ¬ is_internal n → ParseNode s tc2 = Ok n.
Proof.
  unfold ParseNode. intros ([elems rest] & Hs & (c & Hc & H)%bind_Ok)%bind_Ok Hn.
  rewrite Hs, ret_bind, Hc, ret_bind. revert H. destruct (c =? 1); [done|].
  destruct (c =? 2); [|done].
  intros ([[kind first] rest'] & Hf & H)%bind_Ok. rewrite Hf, ret_bind. revert H.
  destruct (decide _); [done|]. destruct (length first =? 32)%nat; [done|].
  destruct (length first =? 128)%nat; [|done].
  intros ([children r] & _ & H%createInternalNode_internal)%bind_Ok. done.
Qed.

Lemma ParseNode_config_witness :
  ParseNode enc_leaf tc8 = Ok (LeafNode zeroKeyTest testValue).
Proof.
  apply (ParseNode_config enc_leaf tc10 tc8).
  - vm_compute. reflexivity.
  - intros [].
Defined.
(** * A child that holds a list *)

Lemma createInternalNode_loop_child_error pre :
  ∀ raw els cs el e idx post children,
    starts_with_lists raw (els ++ [el]) →
    Forall2 child_of els cs →
    length els = length pre →
    (∀ i, i ∈ pre → (i < length children)%nat) →
    (∀ children', turn el children' idx = Err e) →
    createInternalNode_loop (pre ++ idx :: post) raw children = Err e.
Proof.
  induction pre as [|index pre IH];
    intros raw els cs el e idx post children Hs Hc Hlen Hin Hturn.
  - destruct els; [|done]. simpl in Hs. inversion Hs as [|? ? rest ? Hsp _]; subst.
    simpl app. by rewrite createInternalNode_loop_cons, Hsp, ret_bind, Hturn.
  - destruct els as [|el0 els]; [done|]. simpl in Hs.
    inversion Hs as [|? ? rest ? Hsp Hs']; subst.
    apply Forall2_cons_inv_l in Hc as (oc & cs' & Hoc & Hc & ->).
    simpl app. rewrite createInternalNode_loop_cons, Hsp, ret_bind.
    rewrite (child_turn _ _ _ _ Hoc) by (apply Hin; left).
    rewrite ret_bind.
    apply (IH _ els cs' el); try done.
    + by injection Hlen.
    + intros i Hi. assert (i < length children)%nat by (apply Hin; by right).
      destruct oc; [by rewrite length_insert|done].
Qed.

Lemma turn_list_element el children idx :
  (∃ h, has_values el [(rlp.List, h)]) ∨
  (∃ k1 a k2 b, has_values el [(k1, a); (k2, b)] ∧ (k1 = rlp.List ∨ k2 = rlp.List)) →
  turn el children idx = Err ErrExpectedString.
Proof.
  unfold turn. intros [(h & Hv)|(k1 & a & k2 & b & Hv & Hk)].
  - rewrite (CountValues_values _ _ Hv), ret_bind. simpl.
    by rewrite (parseHashedNode_values _ _ _ Hv).
  - rewrite (CountValues_values _ _ Hv), ret_bind. simpl.
    rewrite (parseLeafNode_values _ _ _ _ _ Hv).
    destruct (decide (k1 = rlp.List)); [done|].
    destruct (decide (k2 = rlp.List)); [done|]. by destruct Hk.
Qed.

(** X13: inside the children list, a child whose only element is a list,
    or one of whose two elements is a list, makes [createInternalNode]
    fail with [rlp.ErrExpectedString], the children before it being
    encoded leaves and hashed nodes. *)
Theorem createInternalNode_list_in_child (bitlist raw : bytes) (tc : TreeConfig)
    (pre : list nat) (idx : nat) (post : list nat)
    (els : list bytes) (cs : list (option VerkleNode)) (el : bytes) :
  (8 * length bitlist ≤ nodeWidth tc)%nat →
  indicesFromBitlist bitlist = pre ++ idx :: post →
  starts_with_lists raw (els ++ [el]) →
  length els = length pre →
  Forall2 child_of els cs →
  (∃ h, has_values el [(rlp.List, h)]) ∨
  (∃ k1 a k2 b, has_values el [(k1, a); (k2, b)] ∧ (k1 = rlp.List ∨ k2 = rlp.List)) →
  createInternalNode bitlist raw tc = Err ErrExpectedString.
Proof.
  intros Hw Hi Hs Hlen Hc Hel. rewrite createInternalNode_unfold, Hi.
  rewrite (createInternalNode_loop_child_error pre raw els cs el ErrExpectedString);
    try done.
  - intros i Hin. apply (indices_in_range bitlist); [done|].
    rewrite Hi. apply elem_of_app. by left.
  - intros children'. by apply turn_list_element.
Qed.

Lemma createInternalNode_list_in_child_witness :
  createInternalNode bitmap_0_9 raw_hashed_nested tc10 = Err ErrExpectedString.
Proof.
  apply (createInternalNode_list_in_child bitmap_0_9 raw_hashed_nested tc10
           [0%nat] 9 [] [hashed_content] [Some (HashedNode sample_hash)] [Byte.xc0]).
  - vm_compute. lia.
  - vm_compute. reflexivity.
  - lists_by_computation.
  - reflexivity.
  - constructor; [|constructor].
    apply (child_hashed hashed_content rlp.String sample_hash); [|done].
    values_by_computation.
  - left. exists []. values_by_computation.
Defined.

(** * The testing setup *)

Lemma setup_loop_spec `{KzgLib} (s : Fr) (k : nat) :
  ∀ i sPow s1Out s2Out,
    sPow = s ^ Z.of_nat i mod modulus →
    (i + k ≤ length s1Out)%nat → (i + k ≤ length s2Out)%nat →
    ∃ s1Out' s2Out',
      setup_loop k i s sPow s1Out s2Out = (s1Out', s2Out') ∧
      length s1Out' = length s1Out ∧ length s2Out' = length s2Out ∧
      (∀ j, (j < i)%nat → s1Out' !! j = s1Out !! j ∧ s2Out' !! j = s2Out !! j) ∧
      (∀ j, (i ≤ j < i + k)%nat →
         s1Out' !! j = Some (MulG1 GenG1 (s ^ Z.of_nat j mod modulus)) ∧
         s2Out' !! j = Some (MulG2 GenG2 (s ^ Z.of_nat j mod modulus))).
Proof.
  induction k as [|k IH]; intros i sPow s1Out s2Out HsPow H1 H2.
  { exists s1Out, s2Out. split_and!; try done. intros j Hj. lia. }
  cbn [setup_loop].
  destruct (IH (S i) (MulModFr sPow s) (<[i:=MulG1 GenG1 sPow]> s1Out)
              (<[i:=MulG2 GenG2 sPow]> s2Out))
    as (s1Out' & s2Out' & Hloop & Hl1 & Hl2 & Hlow & Hhigh).
  { unfold MulModFr. rewrite HsPow, Nat2Z.inj_succ, Z.pow_succ_r by lia.
    rewrite Z.mul_mod_idemp_l by done. f_equal. lia. }
  { rewrite length_insert. lia. }
  { rewrite length_insert. lia. }
  rewrite length_insert in Hl1. rewrite length_insert in Hl2.
  exists s1Out', s2Out'. split_and!; try done.
  - intros j Hj. destruct (Hlow j) as [-> ->]; [lia|].
    by rewrite !list_lookup_insert_ne by lia.
  - intros j Hj. destruct (decide (j = i)) as [->|Hne].
    + destruct (Hlow i) as [-> ->]; [lia|].
      rewrite !list_lookup_insert_eq by lia. by rewrite HsPow.
    + apply Hhigh. lia.
Qed.

(** X14: the testing setup is the list of the powers of the secret: for
    every [i] below [n], entry [i] of the first list is the generator of
    G1 times [s^i] reduced modulo the order of the scalar field, entry
    [i] of the second the generator of G2 times the same scalar; both
    lists have [n] entries, and the third result is the Fourier
    transform, in inverse mode, of the first list. *)
Theorem GenerateTestingSetupWithLagrange_powers `{KzgLib} (s : Fr) (n : nat) :
  ∃ s1Out s2Out,
    GenerateTestingSetupWithLagrange s n = (s1Out, s2Out, FFTG1 s1Out true) ∧
    length s1Out = n ∧ length s2Out = n ∧
    ∀ i, (i < n)%nat →
      s1Out !! i = Some (MulG1 GenG1 (s ^ Z.of_nat i mod modulus)) ∧
      s2Out !! i = Some (MulG2 GenG2 (s ^ Z.of_nat i mod modulus)).
Proof.
  unfold GenerateTestingSetupWithLagrange.
  destruct (setup_loop_spec s n 0 ONE (replicate n zeroG1) (replicate n zeroG2))
    as (s1Out & s2Out & Hloop & Hl1 & Hl2 & _ & Hhigh).
  { done. }
  { by rewrite length_replicate. }
  { by rewrite length_replicate. }
  rewrite Hloop. exists s1Out, s2Out.
  rewrite length_replicate in Hl1. rewrite length_replicate in Hl2.
  split_and!; try done. intros i Hi. apply Hhigh. lia.
Qed.

(** * The keys of the full-node benchmark *)

Lemma fullNodeKey_bytes i :
  fullNodeKey i
  = byte_of_Z (Z.shiftr (shl16 (uint16 i) 6) 8) :: byte_of_Z (shl16 (uint16 i) 6)
    :: replicate 30 Byte.x00.
Proof. done. Qed.

Lemma be_to_Z_zeros n : be_to_Z (replicate n Byte.x00) = 0.
Proof.
  induction n as [|n IH]; [done|].
  change (replicate (S n) Byte.x00) with (Byte.x00 :: replicate n Byte.x00).
  rewrite be_to_Z_cons, IH. done.
Qed.

(** X15: for [i] below 1024 the key that [BenchmarkCommitFullNode] makes
    at counter [i] has 32 bytes and, read as a big-endian number, is
    [i * 2^246]: its first ten bits spell [i] and all others are zero, so
    the keys differ from one another and increase with [i]; the counter
    is cut to 16 bits before the shift, so counters that differ by 1024
    give the same key. *)
Theorem fullNodeKey_top_bits (i : Z) :
  0 ≤ i < 1024 →
  length (fullNodeKey i) = 32%nat ∧
  be_to_Z (fullNodeKey i) = i * 2 ^ 246 ∧
  Z.shiftr (be_to_Z (fullNodeKey i)) 246 = i ∧
  fullNodeKey (i + 1024) = fullNodeKey i.
Proof.
  intros Hi.
  assert (shl16 (uint16 i) 6 = i * 64) as Hv.
  { unfold shl16, uint16. rewrite (Z.mod_small i) by lia.
    rewrite Z.shiftl_mul_pow2 by lia. apply Z.mod_small. lia. }
  assert (be_to_Z (fullNodeKey i) = i * 2 ^ 246) as Hbe.
  { rewrite fullNodeKey_bytes, Hv, !be_to_Z_cons, be_to_Z_zeros.
    rewrite !bv_byte_of_Z, Z.shiftr_div_pow2 by lia.
    unfold len. cbn [length]. rewrite length_replicate.
    rewrite (Z.mod_small (i * 64 / 2 ^ 8)).
    2:{ split; [apply Z.div_pos; lia|]. apply Z.div_lt_upper_bound; lia. }
    change (Z.of_nat 30) with 30. change (Z.of_nat 31) with 31.
    pose proof (Z.div_mod (i * 64) 256 ltac:(lia)) as Hdm.
    change (2 ^ 8) with 256.
    replace (256 ^ 31) with (256 * 256 ^ 30) by done.
    replace (2 ^ 246) with (64 * 256 ^ 30) by done.
    set (q := i * 64 / 256) in *. set (r := (i * 64) mod 256) in *.
    set (p := 256 ^ 30). clearbody p q r. nia. }
  split_and!.
  - done.
  - done.
  - rewrite Hbe, Z.shiftr_div_pow2 by lia. apply Z.div_mul. lia.
  - rewrite !fullNodeKey_bytes.
    assert (shl16 (uint16 (i + 1024)) 6 = shl16 (uint16 i) 6) as ->; [|done].
    unfold shl16, uint16. rewrite !Z.shiftl_mul_pow2 by lia.
    rewrite !Z.mul_mod_idemp_l by lia.
    replace ((i + 1024) * 2 ^ 6) with (i * 2 ^ 6 + 1 * 2 ^ 16) by lia.
    by rewrite Z.mod_add by lia.
Qed.

Lemma fullNodeKey_top_bits_witness :
  length (fullNodeKey 1023) = 32%nat ∧
  be_to_Z (fullNodeKey 1023) = 1023 * 2 ^ 246 ∧
  Z.shiftr (be_to_Z (fullNodeKey 1023)) 246 = 1023 ∧
  fullNodeKey (1023 + 1024) = fullNodeKey 1023.
Proof. apply (fullNodeKey_top_bits 1023). lia. Defined.
(** * The bytes of a leaf *)

Lemma Split_parts b k content rest :
  rlp.Split b = Ok (k, content, rest) →
  ∃ header, b = header ++ content ++ rest.
Proof.
  intros (ts & cs & Hk & -> & -> & _)%Split_Ok.
  pose proof (readKind_Ok _ _ _ _ Hk) as (Hts & Hcs & _ & Hle).
  exists (take (Z.to_nat ts) b).
  rewrite Z2Nat.inj_add, <- drop_drop, take_drop by done. by rewrite take_drop.
Qed.

(** X16: the key and the value of a leaf that [ParseNode] returns are
    pieces of the input, byte for byte and in this order: the decoder
    cuts them out and changes nothing. *)
Theorem ParseNode_leaf_verbatim (s : bytes) (tc : TreeConfig) (key value : bytes) :
  ParseNode s tc = Ok (LeafNode key value) →
  ∃ a b c, s = a ++ key ++ b ++ value ++ c.
Proof.
  unfold ParseNode.
  intros ([elems rest] & Hs & (c & _ & H)%bind_Ok)%bind_Ok. revert H.
  destruct (c =? 1).
  { by intros (h & [=])%parseHashedNode_hash. }
  destruct (c =? 2); [|done].
  intros ([[kind first] rest'] & Hf & H)%bind_Ok. revert H.
  destruct (decide _); [done|].
  destruct (length first =? 32)%nat.
  - intros ([value' r] & Hv & [= <- <-])%bind_Ok.
    apply SplitList_Ok, Split_parts in Hs as (h0 & ->).
    apply Split_parts in Hf as (h1 & ->).
    revert Hv. unfold rlp.SplitString.
    destruct (rlp.Split rest') as [[[k2 v2] r2]| |] eqn:Hv; [|done..].
    rewrite ret_bind. destruct (decide _); [done|]. intros [= -> ->].
    apply Split_parts in Hv as (h2 & ->).
    exists (h0 ++ h1), h2, (r ++ rest). by rewrite <- !app_assoc.
  - destruct (length first =? 128)%nat; [|done].
    by intros ([children r] & _ & H%createInternalNode_internal)%bind_Ok.
Qed.

Lemma ParseNode_leaf_verbatim_witness :
  ∃ a b c, enc_leaf = a ++ zeroKeyTest ++ b ++ testValue ++ c.
Proof.
  apply (ParseNode_leaf_verbatim enc_leaf tc10). vm_compute. reflexivity.
Defined.
(** * How many children a bitmap asks for *)

Lemma length_byte_indices i b : length (byte_indices i b) = set_bits b.
Proof. destruct b; vm_compute; reflexivity. Qed.

Lemma length_indices_from i bitlist :
  length (indices_from i bitlist) = sum_list (set_bits <$> bitlist).
Proof.
  revert i. induction bitlist as [|b tl IH]; intros i; [done|].
  cbn [indices_from]. rewrite fmap_cons.
  change (sum_list (set_bits b :: (set_bits <$> tl)))
    with (set_bits b + sum_list (set_bits <$> tl))%nat.
  rewrite length_app, IH. f_equal.
  destruct (Z.eqb_spec (Z.land (bv b) 255) 0) as [Hz|_].
  - by rewrite <- (length_byte_indices i), zero_byte_no_indices.
  - apply length_byte_indices.
Qed.

(** X17: the bitmap asks for as many children as it has set bits: the
    number of indices is the sum over the bytes of their set bits, at
    most eight per byte, and there is none exactly when every byte is
    zero. *)
Theorem indicesFromBitlist_count (bitlist : bytes) :
  length (indicesFromBitlist bitlist) = sum_list (set_bits <$> bitlist) ∧
  (length (indicesFromBitlist bitlist) ≤ 8 * length bitlist)%nat ∧
  (indicesFromBitlist bitlist = [] ↔ Forall (λ b, bv b = 0) bitlist).
Proof.
  split_and!.
  - apply length_indices_from.
  - unfold indicesFromBitlist. rewrite length_indices_from.
    induction bitlist as [|b tl IH]; [done|].
    rewrite fmap_cons.
    change (sum_list (set_bits b :: (set_bits <$> tl)))
      with (set_bits b + sum_list (set_bits <$> tl))%nat.
    cbn [length]. assert (set_bits b ≤ 8)%nat; [|lia].
    unfold set_bits. etrans; [apply length_filter|]. done.
  - apply indicesFromBitlist_nil.
Qed.
(** * A node as a child *)

Lemma ParseNode_child_of s tc n :
  ParseNode s tc = Ok n → ¬ is_internal n →
  ∃ el rest, rlp.SplitList s = Ok (el, rest) ∧ child_of el (Some n).
Proof.
  unfold ParseNode.
  intros ([elems rest] & Hs & (c & Hc & H)%bind_Ok)%bind_Ok Hn.
  exists elems, rest. split; [done|]. revert H.
  apply CountValues_Ok in Hc as (vs & Hv & ->).
  destruct (Z.eqb_spec (len vs) 1) as [H1|_].
  { destruct vs as [|[k h] [|? ?]]; try (unfold len in H1; simpl in H1; lia).
    rewrite (parseHashedNode_values _ _ _ Hv).
    destruct (decide _); [done|]. intros [= <-]. by eapply child_hashed. }
  destruct (Z.eqb_spec (len vs) 2) as [H2|_]; [|done].
  destruct vs as [|[k1 a] [|[k2 b] [|? ?]]]; try (unfold len in H2; simpl in H2; lia).
  pose proof Hv as (rest1 & Hsp & Hv')%has_values_cons_inv.
  apply has_values_cons_inv in Hv' as (rest2 & Hsp2 & _).
  rewrite Hsp, ret_bind. destruct (decide _) as [|Hk%dec_stable]; [done|].
  destruct (length a =? 32)%nat.
  - rewrite (SplitString_Ok _ _ _ _ Hsp2). destruct (decide _); [done|].
    rewrite ret_bind. intros [= <-]. eapply child_leaf; [done| |done].
    by rewrite Hk.
  - destruct (length a =? 128)%nat; [|done].
    by intros ([children r] & _ & H%createInternalNode_internal)%bind_Ok.
Qed.

(** X18: an encoding that [ParseNode] reads as a leaf or as a hashed node
    is read in the same way as a child: under a bitmap with one set bit,
    [createInternalNode] on this encoding returns the node that holds
    this leaf or hashed node in the slot of the bit and nothing else. *)
Theorem ParseNode_as_child (s : bytes) (tc : TreeConfig) (n : VerkleNode)
    (bitlist : bytes) (slot : nat) :
  ParseNode s tc = Ok n → ¬ is_internal n →
  indicesFromBitlist bitlist = [slot] →
  (8 * length bitlist ≤ nodeWidth tc)%nat →
  createInternalNode bitlist s tc
  = Ok (InternalNode (<[slot := Some n]> (replicate (nodeWidth tc) None))
          0 None None tc).
Proof.
  intros Hp Hn Hi Hw.
  destruct (ParseNode_child_of _ _ _ Hp Hn) as (el & rest & Hs & Hc).
  destruct (createInternalNode_spec bitlist s tc [el] [Some n])
    as (children & -> & Hlen & Hin & Hout); try done.
  { econstructor; [done|constructor]. }
  { by constructor. }
  { by rewrite Hi. }
  do 2 f_equal. apply list_eq. intros i.
  destruct (decide (i = slot)) as [->|Hne].
  - rewrite (Hin 0%nat slot) by by rewrite Hi.
    assert (slot < nodeWidth tc)%nat as Hlt.
    { pose proof (indices_in_range bitlist tc slot Hw) as Hr.
      rewrite length_replicate in Hr. apply Hr. rewrite Hi. left. }
    by rewrite list_lookup_insert_eq by by rewrite length_replicate.
  - rewrite list_lookup_insert_ne by done.
    destruct (decide (i < nodeWidth tc)%nat) as [Hlt|Hge].
    + rewrite Hout; [|done|]. { symmetry. by apply lookup_replicate_2. }
      rewrite Hi. by intros ->%list_elem_of_singleton.
    + rewrite !lookup_ge_None_2; [done|rewrite length_replicate; lia|lia].
Qed.

Lemma ParseNode_as_child_witness :
  createInternalNode bitmap_0 enc_leaf tc10
  = Ok (InternalNode (<[0%nat := Some (LeafNode zeroKeyTest testValue)]>
                        (replicate (nodeWidth tc10) None)) 0 None None tc10).
Proof.
  apply (ParseNode_as_child enc_leaf tc10 (LeafNode zeroKeyTest testValue) bitmap_0 0).
  - vm_compute. reflexivity.
  - intros [].
  - vm_compute. reflexivity.
  - vm_compute. lia.
Defined.
